(** * Video editor: retry policy, bulk queue and client-side export pipeline

    A shallow embedding of the parts of the application that carry
    behaviour:
    - [retryOperation], the retry wrapper of the Gemini service
      (src/unnamed/part_000);
    - [processQueue], the bulk-generation queue of the scenes view
      (src/unnamed/part_001);
    - [handleExportVideo] and [handleDownloadZip] of the [Player] component,
      with the frame rendering and the word wrap they contain
      (src/components/Sidebar.tsx, from line 45 on);
    - the types of src/types.ts.

    Conventions.
    - JavaScript numbers are modelled as rationals ([Q]), and as
      binary64 values ([Double.number]) where a property turns on the
      rounding; [Date.now()] readings are integers ([Z]) measured from
      the scene's [startTime].
    - Strings are [string]; a character is a byte.
    - Everything the browser or the network decides (whether a fetch or a
      decode succeeds, what [measureText] answers, which value the clock
      shows after a frame, in which order awaited promises settle) is an
      explicit oracle argument.
    - Exceptions are a sum type; [try]/[catch]/[finally] are written out. *)

From Stdlib Require Import String Ascii List Bool Arith ZArith QArith Lia Lqa.
From Stdlib Require Import Permutation Sorted DecimalString Qround Qpower.
From Stdlib Require Import DecimalNat.
Import ListNotations.

Open Scope string_scope.
Open Scope list_scope.
Open Scope nat_scope.

(* ================================================================== *)
(** * Part I.  Definitions                                             *)
(* ================================================================== *)

(** ** JavaScript helpers *)

(** [s.includes(pat)] *)
Fixpoint includes (pat s : string) : bool :=
  String.prefix pat s ||
  match s with
  | EmptyString => false
  | String _ s' => includes pat s'
  end.

(** A thrown value as [retryOperation] inspects it: [error?.message],
    [error?.status] and [error?.error?.code]. *)
Record JsError : Type := mkJsError {
  message : option string;
  status : option Z;
  code : option Z
}.

Inductive Outcome (T : Type) : Type :=
| Resolved (v : T)
| Rejected (e : JsError).
Arguments Resolved {T} v.
Arguments Rejected {T} e.

(* ------------------------------------------------------------------ *)
(** ** src/unnamed/part_000 (Gemini service): [retryOperation] *)

Module Retry.

(** [error?.message || ''] *)
Definition msgOf (e : JsError) : string :=
  match message e with
  | Some m => m
  | None => ""
  end.

(** [error?.status || error?.error?.code]: the first truthy one. *)
Definition statusOf (e : JsError) : option Z :=
  match status e with
  | Some s => if (s =? 0)%Z then code e else Some s
  | None => code e
  end.

Definition isRateLimit (e : JsError) : bool :=
  match statusOf e with
  | Some s => (s =? 429)%Z
  | None => false
  end
  || includes "429" (msgOf e)
  || includes "quota" (msgOf e)
  || includes "RESOURCE_EXHAUSTED" (msgOf e)
  || includes "rate limit" (msgOf e).

(** [new Error("Operation failed after retries")] *)
Definition exhaustedError : JsError :=
  mkJsError (Some "Operation failed after retries") None None.

(** What one call of [retryOperation] did: how it settled, how many times
    it called [operation], and the [setTimeout] waits in between. *)
Record Run (T : Type) : Type := mkRun {
  result : Outcome T;
  attempts : nat;
  waits : list Q
}.
Arguments mkRun {T}.
Arguments result {T}.
Arguments attempts {T}.
Arguments waits {T}.

Section Loop.
Context {T : Type}.
(** [operation i] is how the [i]-th call of the wrapped operation settles;
    [random i] is what [Math.random()] answers after the [i]-th failure. *)
Variable operation : nat -> Outcome T.
Variable random : nat -> Q.
Variable maxRetries : nat.

(** The [for (let i = 0; i < maxRetries; i++)] loop from index [i] on, with
    [remaining = maxRetries - i] iterations left. *)
Fixpoint retryFrom (remaining i : nat) (delay : Q) : Run T :=
  match remaining with
  | O => mkRun (Rejected exhaustedError) i []
  | S remaining' =>
      match operation i with
      | Resolved v => mkRun (Resolved v) (S i) []
      | Rejected error =>
          let isLastAttempt := Nat.eqb i (maxRetries - 1) in
          if isRateLimit error && negb isLastAttempt then
            let jitter := (random i * 1000)%Q in
            let waitTime := (delay + jitter)%Q in
            let rest := retryFrom remaining' (S i) (delay * 1.5)%Q in
            mkRun (result rest) (attempts rest) (waitTime :: waits rest)
          else mkRun (Rejected error) (S i) []
      end
  end.

End Loop.

Definition retryOperation {T} (operation : nat -> Outcome T)
    (random : nat -> Q) (maxRetries : nat) (initialDelay : Q) : Run T :=
  retryFrom operation random maxRetries maxRetries 0 initialDelay.

(** An operation that is rejected with [errs i] on its first [k] calls and
    resolves to [v] from then on. *)
Definition failsThenSucceeds {T} (k : nat) (errs : nat -> JsError) (v : T)
    : nat -> Outcome T :=
  fun i => if i <? k then Rejected (errs i) else Resolved v.

Definition err429 : JsError := mkJsError (Some "Too Many Requests") (Some 429%Z) None.
Definition errQuota : JsError :=
  mkJsError (Some "You exceeded your current quota") None None.
Definition errNoText : JsError :=
  mkJsError (Some "No text returned from Gemini") None None.

End Retry.


(* ------------------------------------------------------------------ *)
(** ** src/unnamed/part_001 (scenes view): [processQueue] *)

Module Queue.

(** One [runNext] chain: it awaits the task it started, or the 1500 ms
    [setTimeout] after it, or it has returned. *)
Inductive Worker : Type :=
| Running (currentIndex : nat)
| Sleeping
| Done.

(** [index] is the shared counter; [workers] are the chains pushed to
    [activePromises]; [started] logs every [task()] call and [settled]
    every task promise that settled, with [true] when it rejected (the
    [catch] that logs "Queue task failed"). *)
Record State : Type := mkState {
  index : nat;
  workers : list Worker;
  started : list nat;
  settled : list (nat * bool)
}.

(** What the scheduler can deliver: the task awaited by chain [w] settles,
    or the timer awaited by chain [w] fires. *)
Inductive Event : Type :=
| TaskSettles (w : nat)
| TimerFires (w : nat).

Fixpoint setNth {A} (k : nat) (x : A) (l : list A) : list A :=
  match l, k with
  | [], _ => []
  | _ :: l', O => x :: l'
  | y :: l', S k' => y :: setNth k' x l'
  end.

Section WithTasks.
(** [tasks.length], and whether [tasks[i]()] rejects. *)
Variable length_tasks : nat.
Variable fails : nat -> bool.

(** The synchronous head of [runNext]: return if the queue is drained,
    otherwise take [index++] and call the task. *)
Definition runNext (s : State) : State * Worker :=
  if length_tasks <=? index s then (s, Done)
  else
    let currentIndex := index s in
    (mkState (S (index s)) (workers s) (started s ++ [currentIndex]) (settled s),
     Running currentIndex).

(** [for (let i = 0; i < limit; i++) activePromises.push(runNext())] *)
Fixpoint startBatch (limit : nat) (s : State) : State :=
  match limit with
  | O => s
  | S limit' =>
      let '(s', w) := runNext s in
      startBatch limit'
        (mkState (index s') (workers s' ++ [w]) (started s') (settled s'))
  end.

Definition processQueue (concurrency : nat) : State :=
  let limit := Nat.min concurrency length_tasks in
  startBatch limit (mkState 0 [] [] []).

(** One resumption of a chain. [None]: the chain is not waiting for that. *)
Definition step (e : Event) (s : State) : option State :=
  match e with
  | TaskSettles w =>
      match nth_error (workers s) w with
      | Some (Running i) =>
          Some (mkState (index s) (setNth w Sleeping (workers s)) (started s)
                  (settled s ++ [(i, fails i)]))
      | _ => None
      end
  | TimerFires w =>
      match nth_error (workers s) w with
      | Some Sleeping =>
          let '(s', wk) := runNext s in
          Some (mkState (index s') (setNth w wk (workers s')) (started s')
                  (settled s'))
      | _ => None
      end
  end.

Fixpoint run (es : list Event) (s : State) : option State :=
  match es with
  | [] => Some s
  | e :: es' =>
      match step e s with
      | Some s' => run es' s'
      | None => None
      end
  end.

End WithTasks.

Definition isSettled (s : State) (i : nat) : bool :=
  existsb (fun p => Nat.eqb (fst p) i) (settled s).

(** The tasks in flight: called and not yet settled. *)
Definition inFlight (s : State) : list nat :=
  filter (fun i => negb (isSettled s i)) (started s).

Definition isDone (w : Worker) : bool :=
  match w with
  | Done => true
  | _ => false
  end.

(** [Promise.all(activePromises)] resolves: every chain has returned. *)
Definition finished (s : State) : bool := forallb isDone (workers s).

Definition runningOf (w : Worker) : list nat :=
  match w with
  | Running i => [i]
  | _ => []
  end.

Definition running (ws : list Worker) : list nat := flat_map runningOf ws.

(** Steps still to come: two per task not yet taken, two per task awaited,
    one per timer awaited. *)
Definition weight (w : Worker) : nat :=
  match w with
  | Running _ => 2
  | Sleeping => 1
  | Done => 0
  end.

Definition measure (length_tasks : nat) (s : State) : nat :=
  2 * (length_tasks - index s) + list_sum (map weight (workers s)).

(** What every state of a [processQueue] call satisfies: the counter stays
    within the task list; the tasks called are those below the counter;
    each of them has settled or is awaited by a chain; a settled task is
    logged as rejected exactly when it rejects; and a chain returns only
    once the counter has passed the last task. *)
Record Inv (length_tasks : nat) (fails : nat -> bool) (s : State) : Prop := mkInv {
  inv_index : index s <= length_tasks;
  inv_started : started s = seq 0 (index s);
  inv_perm : Permutation (started s) (map fst (settled s) ++ running (workers s));
  inv_outcome : forall i b, In (i, b) (settled s) -> b = fails i;
  inv_done : In Done (workers s) -> length_tasks <= index s
}.

(** A schedule for three tasks at concurrency 2, the second task failing. *)
Definition demoFails (i : nat) : bool := Nat.eqb i 1.
Definition demoSchedule : list Event :=
  [TaskSettles 1; TaskSettles 0; TimerFires 1; TimerFires 0;
   TaskSettles 1; TimerFires 1].

End Queue.


(* ------------------------------------------------------------------ *)
(** ** types.ts *)

Inductive SubtitleStyle : Type :=
| MODERN    (* Clean sans-serif, bg box *)
| KARAOKE   (* Highlighted text (simulated) *)
| CLASSIC   (* Yellow text, black outline *)
| MINIMAL.  (* Small white text *)

Record Scene : Type := mkScene {
  id : string;
  narration : string;
  visualPrompt : string;
  imageUrl : option string;
  audioUrl : option string
}.

(** [if (s)] on an optional string: [undefined] and [''] are falsy. *)
Definition truthy (o : option string) : bool :=
  match o with
  | Some EmptyString => false
  | Some _ => true
  | None => false
  end.

(** [s.split(sep)] for a one-character separator. *)
Fixpoint split (sep : ascii) (s : string) : list string :=
  match s with
  | EmptyString => [EmptyString]
  | String c s' =>
      if Ascii.eqb c sep then EmptyString :: split sep s'
      else match split sep s' with
           | w :: ws => String c w :: ws
           | [] => [String c EmptyString]
           end
  end.

(** [a > b] on numbers. *)
Definition Qgtb (a b : Q) : bool := negb (Qle_bool a b).

(** [a < b] on numbers. *)
Definition Qltb (a b : Q) : bool := negb (Qle_bool b a).

(* ------------------------------------------------------------------ *)
(** ** src/components/Sidebar.tsx: the [Player] component *)

Module Player.

(** *** Word wrap *)

Section WordWrap.
(** [ctx.measureText(s).width] under the font set just before. *)
Variable measureText : string -> Q.
Variable maxWidth : Q.

(** The [for (let n = 0; n < words.length; n++)] loop, at index [n], with
    the final [lines.push(line)]. *)
Fixpoint wrapWords (words : list string) (n : nat) (line : string)
    (lines : list string) : list string :=
  match words with
  | [] => lines ++ [line]
  | word :: words' =>
      let testLine := ((line ++ word) ++ " ")%string in
      if Qgtb (measureText testLine) maxWidth && (0 <? n) then
        wrapWords words' (S n) (word ++ " ")%string (lines ++ [line])
      else
        wrapWords words' (S n) testLine lines
  end.

Definition wordWrap (text : string) : list string :=
  wrapWords (split " " text) 0 "" [].

(** A line kept as the list of its words, and the string it stands for. *)
Definition renderLine (ws : list string) : string :=
  fold_right (fun w acc => (w ++ " " ++ acc)%string) "" ws.

Definition hasWord (current : list string) : bool :=
  match current with
  | [] => false
  | _ :: _ => true
  end.

(** The greedy rule as the specification words it, on lines kept as lists
    of words: append the word, unless that would exceed the maximum width
    and at least one word is already on the line; then commit the line and
    start a new one with that word. *)
Fixpoint specGreedyLoop (words current : list string)
    (committed : list (list string)) : list (list string) :=
  match words with
  | [] => committed ++ [current]
  | word :: words' =>
      if Qgtb (measureText (renderLine (current ++ [word]))) maxWidth
         && hasWord current
      then specGreedyLoop words' [word] (committed ++ [current])
      else specGreedyLoop words' (current ++ [word]) committed
  end.

Definition specGreedyWrap (words : list string) : list (list string) :=
  specGreedyLoop words [] [].

(** A line is acceptable when it has a word and, if it is wider than the
    maximum, it is a single word. *)
Definition lineOk (g : list string) : Prop :=
  g <> [] /\ (maxWidth < measureText (renderLine g) -> exists w, g = [w])%Q.

End WordWrap.

(** [const maxWidth = canvas.width * 0.8] *)
Definition subtitleMaxWidth (canvasWidth : Q) : Q := (canvasWidth * 0.8)%Q.

Definition subtitleLines (measureText : string -> Q) (canvasWidth : Q)
    (text : string) : list string :=
  wordWrap measureText (subtitleMaxWidth canvasWidth) text.


(** *** The 2D context *)

(** The part of [CanvasRenderingContext2D] state the export assigns. *)
Record Ctx2D : Type := mkCtx {
  fillStyle : string;
  font : string;
  textAlign : string;
  textBaseline : string;
  shadowColor : string;
  shadowBlur : Q;
  shadowOffsetX : Q;
  shadowOffsetY : Q
}.

Definition setFillStyle (v : string) (c : Ctx2D) : Ctx2D :=
  mkCtx v (font c) (textAlign c) (textBaseline c) (shadowColor c)
    (shadowBlur c) (shadowOffsetX c) (shadowOffsetY c).

Definition setShadowColor (v : string) (c : Ctx2D) : Ctx2D :=
  mkCtx (fillStyle c) (font c) (textAlign c) (textBaseline c) v
    (shadowBlur c) (shadowOffsetX c) (shadowOffsetY c).

(** A fresh context: black fill, default font, no shadow. *)
Definition freshCtx : Ctx2D :=
  mkCtx "#000000" "10px sans-serif" "start" "alphabetic" "rgba(0, 0, 0, 0)"
    0%Q 0%Q 0%Q.

(** What reaches the bitmap, each with the context state it was drawn
    under. [FillRoundRect] (a [roundRect] path, filled) is what a box with
    rounded corners would take; the export never issues it. *)
Inductive Drawn : Type :=
| FillRect (c : Ctx2D) (x y w h : Q)
| FillRoundRect (c : Ctx2D) (x y w h radius : Q)
| FillText (c : Ctx2D) (text : string) (x y : Q)
| DrawImage (zoom centerX centerY : Q) (offsetX offsetY drawW drawH : Q).

(** An [HTMLImageElement] after the [onload]/[onerror] promise resolved. *)
Inductive Img : Type :=
| ImgLoaded (width height : Q)
| ImgBroken.

(** [drawImage] on an image in the broken state throws (HTML, "check the
    usability of the image argument"). *)
Definition invalidStateError : JsError :=
  mkJsError (Some "The HTMLImageElement provided is in the 'broken' state.")
    None None.

(** *** Subtitles *)

Section Frame.
Variable measureText : string -> Q.
Variable canvasWidth canvasHeight : Q.
Variable subtitleStyle : SubtitleStyle.
Variable showSubtitles : bool.

Definition isModern (s : SubtitleStyle) : bool :=
  match s with
  | MODERN => true
  | _ => false
  end.

Definition isClassic (s : SubtitleStyle) : bool :=
  match s with
  | CLASSIC => true
  | _ => false
  end.

(** The body of [lines.forEach((line, i) => ...)] once [lineY] is known. *)
Definition drawLine (x lineY : Q) (line : string) (c : Ctx2D)
    : list Drawn * Ctx2D :=
  let '(box, c1) :=
    if isModern subtitleStyle then
      let textWidth := measureText line in
      let cb := setFillStyle "rgba(0,0,0,0.6)" c in
      ([FillRect cb (x - textWidth / 2 - 10)%Q (lineY - 48)%Q (textWidth + 20)%Q 60%Q],
       cb)
    else ([], c) in
  let c2 :=
    setFillStyle (if isClassic subtitleStyle then "#FFD700" else "#ffffff") c1 in
  (box ++ [FillText c2 line x lineY], c2).

(** [lines.forEach] from index [i], with [total = lines.length]. *)
Fixpoint drawLines (x y : Q) (total i : nat) (lines : list string) (c : Ctx2D)
    : list Drawn * Ctx2D :=
  match lines with
  | [] => ([], c)
  | line :: lines' =>
      let lineY := (y - inject_Z (Z.of_nat (total - 1 - i)) * 60)%Q in
      let '(d1, c1) := drawLine x lineY line c in
      let '(d2, c2) := drawLines x y total (S i) lines' c1 in
      (d1 ++ d2, c2)
  end.

(** The context as set up before the lines are drawn: font, alignment and
    the drop shadow. *)
Definition subtitleCtx (c : Ctx2D) : Ctx2D :=
  mkCtx (fillStyle c) "bold 48px sans-serif" "center" "bottom"
    "rgba(0,0,0,0.8)" 4%Q 2%Q 2%Q.

(** The [if (showSubtitles && scene.narration)] block. *)
Definition drawSubtitles (text : string) (c : Ctx2D) : list Drawn * Ctx2D :=
  if showSubtitles && negb (String.eqb text "") then
    let c1 := subtitleCtx c in
    let maxWidth := subtitleMaxWidth canvasWidth in
    let x := (canvasWidth / 2)%Q in
    let y := (canvasHeight - 100)%Q in
    let lines := wordWrap measureText maxWidth text in
    let '(d, c2) := drawLines x y (length lines) 0 lines c1 in
    (d, setShadowColor "transparent" c2)
  else ([], c).

(** *** One frame *)

(** The [if (img)] block: object-cover placement, zoomed about the centre. *)
Definition drawImage (img : option Img) (scale : Q) : JsError + list Drawn :=
  match img with
  | None => inr []
  | Some ImgBroken => inl invalidStateError
  | Some (ImgLoaded iw ih) =>
      let w := canvasWidth in
      let h := canvasHeight in
      let imgRatio := (iw / ih)%Q in
      let canvasRatio := (w / h)%Q in
      let '(drawW, drawH) :=
        if Qgtb imgRatio canvasRatio then ((h * imgRatio)%Q, h)
        else (w, (w / imgRatio)%Q) in
      let offsetX := ((w - drawW) / 2)%Q in
      let offsetY := ((h - drawH) / 2)%Q in
      inr [DrawImage scale (w / 2)%Q (h / 2)%Q offsetX offsetY drawW drawH]
  end.

(** [const scale = 1.0 + (0.15 * progress)] *)
Definition zoomScale (progress : Q) : Q := (1.0 + 0.15 * progress)%Q.

(** The body of the animation loop up to the subtitles, for one value of
    [loopTime / durationMs]. *)
Definition renderFrame (img : option Img) (text : string) (progress : Q)
    (c : Ctx2D) : JsError + (list Drawn * Ctx2D) :=
  let scale := zoomScale progress in
  let c1 := setFillStyle "#000" c in
  let clear := FillRect c1 0%Q 0%Q canvasWidth canvasHeight in
  match drawImage img scale with
  | inl e => inl e
  | inr image =>
      let '(subs, c2) := drawSubtitles text c1 in
      inr (clear :: image ++ subs, c2)
  end.

(** *** The animation loop of one scene *)

Record Frame : Type := mkFrame {
  loopTime : Z;
  progress : Q;
  scale : Q;
  drawn : list Drawn
}.

Inductive LoopOutcome : Type :=
| LoopDone (frames : list Frame) (exitTime : Z) (c : Ctx2D)
| LoopThrew (e : JsError).

(** [while (loopTime < durationMs)]. [ticks] are the successive values of
    [Date.now() - startTime] read at the end of each iteration; the waits
    computed from [frameInterval] only decide how late those readings are.
    [None]: the readings given do not reach the end of the loop. *)
Fixpoint animationLoop (img : option Img) (text : string) (durationMs : Q)
    (ticks : list Z) (loopTime : Z) (c : Ctx2D) : option LoopOutcome :=
  if Qltb (inject_Z loopTime) durationMs then
    let progress := (inject_Z loopTime / durationMs)%Q in
    match renderFrame img text progress c with
    | inl e => Some (LoopThrew e)
    | inr (d, c1) =>
        match ticks with
        | [] => None
        | t :: ticks' =>
            match animationLoop img text durationMs ticks' t c1 with
            | Some (LoopDone frames exitTime c2) =>
                Some (LoopDone
                        (mkFrame loopTime progress (zoomScale progress) d :: frames)
                        exitTime c2)
            | other => other
            end
        end
    end
  else Some (LoopDone [] loopTime c).

End Frame.

(** What holds of a frame the loop rendered for a scene of [durationMs]. *)
Definition frameOk (durationMs : Q) (f : Frame) : Prop :=
  (inject_Z (loopTime f) < durationMs)%Q /\
  progress f = (inject_Z (loopTime f) / durationMs)%Q /\
  scale f = zoomScale (progress f).

(** [let durationMs = 3000; ... durationMs = audioBuffer.duration * 1000;
    ... durationMs += 500], given how the fetch and decode of the scene's
    audio went ([None]: no [audioUrl], or the [catch] was taken). *)
Definition defaultDurationMs : Q := 3000%Q.
Definition graceMs : Q := 500%Q.

Definition nominalDurationMs (decoded : option Q) : Q :=
  (match decoded with
   | Some seconds => seconds * 1000
   | None => defaultDurationMs
   end + graceMs)%Q.


(** The scene's audio as the export gets it: [fetchAudio url] is the
    decoded [audioBuffer.duration] in seconds, or [None] when the fetch or
    [decodeAudioData] threw. *)
Definition decodeSceneAudio (fetchAudio : string -> option Q) (scene : Scene)
    : option Q :=
  if truthy (audioUrl scene) then
    match audioUrl scene with
    | Some url => fetchAudio url
    | None => None
    end
  else None.

Definition sceneDurationMs (fetchAudio : string -> option Q) (scene : Scene) : Q :=
  nominalDurationMs (decodeSceneAudio fetchAudio scene).

(** Fixtures: a scene with a 2 s narration clip, one whose clip fails to
    load, one without audio; a clock that reads every 34 ms. *)
Definition sceneWithAudio : Scene :=
  mkScene "s1" "Hello world" "a sunrise" None (Some "blob:a1").
Definition sceneAudioFails : Scene :=
  mkScene "s2" "Second scene" "a forest" None (Some "blob:gone").
Definition sceneNoAudio : Scene :=
  mkScene "s3" "Hello world" "a city" None None.
Definition demoFetchAudio (url : string) : option Q :=
  if String.eqb url "blob:a1" then Some 2%Q else None.
Definition clock34 (frames : nat) : list Z :=
  map (fun k => (34 * Z.of_nat k)%Z) (seq 1 frames).


(** The context a drawing was made under, if it has one. *)
Definition drawnCtx (d : Drawn) : option Ctx2D :=
  match d with
  | FillRect c _ _ _ _ => Some c
  | FillRoundRect c _ _ _ _ _ => Some c
  | FillText c _ _ _ => Some c
  | DrawImage _ _ _ _ _ _ _ => None
  end.

(** The drop shadow set up for subtitles: translucent black, blur 4,
    offset 2/2. *)
Definition hasDropShadow (c : Ctx2D) : Prop :=
  shadowColor c = "rgba(0,0,0,0.8)" /\ shadowBlur c = 4%Q /\
  shadowOffsetX c = 2%Q /\ shadowOffsetY c = 2%Q.

(** What one subtitle line amounts to, for each style: under the context
    [base], the box (Modern only) and then the text. *)
Definition lineDrawing (measureText : string -> Q) (style : SubtitleStyle)
    (base : Ctx2D) (x lineY : Q) (line : string) : list Drawn :=
  match style with
  | MODERN =>
      [FillRect (setFillStyle "rgba(0,0,0,0.6)" base)
         (x - measureText line / 2 - 10)%Q (lineY - 48)%Q
         (measureText line + 20)%Q 60%Q;
       FillText (setFillStyle "#ffffff" base) line x lineY]
  | CLASSIC => [FillText (setFillStyle "#FFD700" base) line x lineY]
  | KARAOKE | MINIMAL => [FillText (setFillStyle "#ffffff" base) line x lineY]
  end.


(** *** The component and its surroundings *)

Inductive AspectRatio : Type :=
| Ratio16x9
| Ratio9x16.

(** The hidden canvas: [width={aspectRatio === '16:9' ? 1920 : 1080}],
    [height={aspectRatio === '16:9' ? 1080 : 1920}]. *)
Definition canvasWidthOf (r : AspectRatio) : Q :=
  match r with
  | Ratio16x9 => 1920%Q
  | Ratio9x16 => 1080%Q
  end.

Definition canvasHeightOf (r : AspectRatio) : Q :=
  match r with
  | Ratio16x9 => 1080%Q
  | Ratio9x16 => 1920%Q
  end.

Record Props : Type := mkProps {
  scenes : list Scene;
  backgroundMusicUrl : option string;
  aspectRatio : AspectRatio;
  musicVolume : Q;
  subtitleStyle : SubtitleStyle;
  showSubtitles : bool
}.

(** What the browser and the network decide. [ticks i] are the clock
    readings of the animation loop of scene [i]. *)
Record Env : Type := mkEnv {
  canvasMounted : bool;
  context2d : bool;
  mediaRecorderSupported : bool;
  measureText : string -> Q;
  fetchAudio : string -> option Q;
  loadImage : string -> Img;
  ticks : nat -> list Z;
  fetchBlob : string -> bool;
  zipGenerates : bool
}.

Inductive LogEntry : Type :=
| ConsoleWarn (msg : string)
| ConsoleError (msg : string).

(** What was recorded for one scene. *)
Record SceneTrack : Type := mkTrack {
  trackScene : string;
  trackDurationMs : Q;
  trackNarration : option Q;
  trackFrames : list Frame;
  trackExit : Z
}.

Inductive ZipContent : Type :=
| ZText (content : string)
| ZBase64 (data : string)
| ZBlob (url : string).

(** A file handed to the user through [a.click()]: the recorded video
    ([video_<Date.now()>.webm]) with the looped music, if any, as
    (seconds, gain); or the asset archive. *)
Inductive Download : Type :=
| VideoFile (tracks : list SceneTrack) (music : option (Q * Q))
| ZipFile (files : list (string * ZipContent)).

(** React state of [Player], the page, and the media resources held. *)
Record World : Type := mkWorld {
  isPlaying : bool;
  isExporting : bool;
  isZipping : bool;
  documentTitle : string;
  console : list LogEntry;
  alerts : list string;
  downloads : list Download;
  openAudioContexts : nat;
  loopingSources : nat;
  activeRecorders : nat
}.

Definition setIsPlaying (v : bool) (w : World) : World :=
  mkWorld v (isExporting w) (isZipping w) (documentTitle w) (console w)
    (alerts w) (downloads w) (openAudioContexts w) (loopingSources w)
    (activeRecorders w).

Definition setIsExporting (v : bool) (w : World) : World :=
  mkWorld (isPlaying w) v (isZipping w) (documentTitle w) (console w)
    (alerts w) (downloads w) (openAudioContexts w) (loopingSources w)
    (activeRecorders w).

Definition setIsZipping (v : bool) (w : World) : World :=
  mkWorld (isPlaying w) (isExporting w) v (documentTitle w) (console w)
    (alerts w) (downloads w) (openAudioContexts w) (loopingSources w)
    (activeRecorders w).

Definition setDocumentTitle (v : string) (w : World) : World :=
  mkWorld (isPlaying w) (isExporting w) (isZipping w) v (console w)
    (alerts w) (downloads w) (openAudioContexts w) (loopingSources w)
    (activeRecorders w).

Definition log (entries : list LogEntry) (w : World) : World :=
  mkWorld (isPlaying w) (isExporting w) (isZipping w) (documentTitle w)
    (console w ++ entries) (alerts w) (downloads w) (openAudioContexts w)
    (loopingSources w) (activeRecorders w).

Definition alert (msg : string) (w : World) : World :=
  mkWorld (isPlaying w) (isExporting w) (isZipping w) (documentTitle w)
    (console w) (alerts w ++ [msg]) (downloads w) (openAudioContexts w)
    (loopingSources w) (activeRecorders w).

Definition download (d : Download) (w : World) : World :=
  mkWorld (isPlaying w) (isExporting w) (isZipping w) (documentTitle w)
    (console w) (alerts w) (downloads w ++ [d]) (openAudioContexts w)
    (loopingSources w) (activeRecorders w).

Definition setResources (contexts sources recorders : nat) (w : World) : World :=
  mkWorld (isPlaying w) (isExporting w) (isZipping w) (documentTitle w)
    (console w) (alerts w) (downloads w) contexts sources recorders.

(** [new AudioContextClass()] and [actx.close()] *)
Definition openAudioContext (w : World) : World :=
  setResources (S (openAudioContexts w)) (loopingSources w) (activeRecorders w) w.
Definition closeAudioContext (w : World) : World :=
  setResources (pred (openAudioContexts w)) (loopingSources w)
    (activeRecorders w) w.

(** [musicSource.start(0)] with [loop = true], and [musicSource?.stop()] *)
Definition startMusic (w : World) : World :=
  setResources (openAudioContexts w) (S (loopingSources w)) (activeRecorders w) w.
Definition stopMusic (w : World) : World :=
  setResources (openAudioContexts w) (pred (loopingSources w))
    (activeRecorders w) w.

(** [recorder.start()] and [recorder.stop()] *)
Definition startRecorder (w : World) : World :=
  setResources (openAudioContexts w) (loopingSources w) (S (activeRecorders w)) w.
Definition stopRecorder (w : World) : World :=
  setResources (openAudioContexts w) (loopingSources w)
    (pred (activeRecorders w)) w.

Inductive Completion (A : Type) : Type :=
| Normal (a : A)
| Threw (e : JsError).
Arguments Normal {A} a.
Arguments Threw {A} e.

Definition errorOf (msg : string) : JsError := mkJsError (Some msg) None None.

(** [new MediaRecorder(...)] with a [mimeType] the browser cannot record. *)
Definition notSupportedError : JsError :=
  errorOf "Failed to construct 'MediaRecorder': mimeType is not supported".

(** *** [handleExportVideo] *)

Section ExportVideo.
Variable env : Env.
Variable props : Props.

(** Step 2: the music buffer, [None] when there is no URL or the fetch or
    decode threw; and what the [catch] then warns. *)
Definition decodeMusic : option Q :=
  if truthy (backgroundMusicUrl props) then
    match backgroundMusicUrl props with
    | Some url => fetchAudio env url
    | None => None
    end
  else None.

Definition musicWarning : list LogEntry :=
  if truthy (backgroundMusicUrl props) then
    match decodeMusic with
    | Some _ => []
    | None => [ConsoleWarn "Failed to load background music for export"]
    end
  else [].

(** Step A of a scene: [img] stays [null] without [imageUrl]. *)
Definition sceneImage (scene : Scene) : option Img :=
  if truthy (imageUrl scene) then
    match imageUrl scene with
    | Some url => Some (loadImage env url)
    | None => None
    end
  else None.

(** Step B of a scene: the [catch] around the fetch and decode warns. *)
Definition sceneAudioWarning (scene : Scene) : list LogEntry :=
  if truthy (audioUrl scene) then
    match decodeSceneAudio (fetchAudio env) scene with
    | Some _ => []
    | None => [ConsoleWarn "Failed to load scene audio"]
    end
  else [].

(** Step 5: [for (const scene of scenes)], from scene number [i]. *)
Fixpoint processScenes (rest : list Scene) (i : nat) (c : Ctx2D) (w : World)
    : option (Completion (list SceneTrack) * World) :=
  match rest with
  | [] => Some (Normal [], w)
  | scene :: rest' =>
      let img := sceneImage scene in
      let decoded := decodeSceneAudio (fetchAudio env) scene in
      let w1 := log (sceneAudioWarning scene) w in
      let durationMs := nominalDurationMs decoded in
      match animationLoop (measureText env)
              (canvasWidthOf (aspectRatio props))
              (canvasHeightOf (aspectRatio props))
              (subtitleStyle props) (showSubtitles props)
              img (narration scene) durationMs (ticks env i) 0 c with
      | None => None
      | Some (LoopThrew e) => Some (Threw e, w1)
      | Some (LoopDone frames exitTime c1) =>
          match processScenes rest' (S i) c1 w1 with
          | Some (Normal tracks, w2) =>
              Some (Normal (mkTrack (id scene) durationMs decoded frames exitTime
                              :: tracks), w2)
          | other => other
          end
      end
  end.

(** The [try] block. [None]: the clock readings of some scene run out. *)
Definition exportBody (w : World) : option (Completion unit * World) :=
  if negb (canvasMounted env) then Some (Threw (errorOf "No canvas"), w)
  else if negb (context2d env) then Some (Threw (errorOf "No context"), w)
  else
    let w1 := openAudioContext w in
    let musicBuffer := decodeMusic in
    let w2 := log musicWarning w1 in
    let w3 := match musicBuffer with
              | Some _ => startMusic w2
              | None => w2
              end in
    if negb (mediaRecorderSupported env) then Some (Threw notSupportedError, w3)
    else
      let w4 := startRecorder w3 in
      match processScenes (scenes props) 0 freshCtx w4 with
      | None => None
      | Some (Threw e, w5) => Some (Threw e, w5)
      | Some (Normal tracks, w5) =>
          let w6 := match musicBuffer with
                    | Some _ => stopMusic w5
                    | None => w5
                    end in
          let w7 := closeAudioContext (stopRecorder w6) in
          let music := match musicBuffer with
                       | Some seconds => Some (seconds, musicVolume props)
                       | None => None
                       end in
          Some (Normal tt, download (VideoFile tracks music) w7)
      end.

(** The synchronous head, up to the [try]: [None] when the handler returns
    at once. *)
Definition exportBegin (w : World) : option World :=
  if length (scenes props) =? 0 then None
  else
    Some (setDocumentTitle "Renderizando..."
            (setIsPlaying false (setIsExporting true w))).

(** The [catch] and [finally] blocks. *)
Definition exportCatch (w : World) : World :=
  alert "Erro ao exportar vídeo. Tente a opção 'Baixar Assets' se o problema persistir."
    (log [ConsoleError "Export failed"] w).

Definition exportFinally (originalTitle : string) (w : World) : World :=
  setDocumentTitle originalTitle (setIsExporting false w).

Definition handleExportVideo (w : World) : option World :=
  match exportBegin w with
  | None => Some w
  | Some w1 =>
      let originalTitle := documentTitle w in
      match exportBody w1 with
      | None => None
      | Some (Normal _, w2) => Some (exportFinally originalTitle w2)
      | Some (Threw _, w2) => Some (exportFinally originalTitle (exportCatch w2))
      end
  end.

(** [disabled={isExporting || scenes.length === 0}] on the export button. *)
Definition exportButtonDisabled (w : World) : bool :=
  isExporting w || (length (scenes props) =? 0).

End ExportVideo.


(** *** [handleDownloadZip] *)

Definition LF : string := String (Ascii.ascii_of_nat 10) EmptyString.

(** [n.toString()] *)
Definition toString (n : nat) : string := NilEmpty.string_of_uint (Nat.to_uint n).

(** [s.padStart(2, '0')] *)
Definition padStart2 (s : string) : string :=
  match String.length s with
  | 0 => "00"
  | 1 => ("0" ++ s)%string
  | _ => s
  end.

(** [l.map((x, i) => ...)]: the elements with their indices. *)
Definition indexed {A} (l : list A) : list (nat * A) :=
  combine (seq 0 (length l)) l.

Section Zip.
Variable env : Env.
Variable props : Props.

Definition scriptEntry (ix : nat * Scene) : string :=
  ("Scene " ++ toString (fst ix + 1) ++ ":" ++ LF
   ++ "Narration: " ++ narration (snd ix) ++ LF
   ++ "Visual Prompt: " ++ visualPrompt (snd ix) ++ LF)%string.

Definition scriptContent : string :=
  String.concat (LF ++ "---" ++ LF)%string (map scriptEntry (indexed (scenes props))).

(** The image file of a scene: the part of the data URL after the first
    comma, when there ix one. *)
Definition imageFile (ix : nat * Scene) : list (string * ZipContent) :=
  let index := padStart2 (toString (fst ix + 1)) in
  if truthy (imageUrl (snd ix)) then
    match imageUrl (snd ix) with
    | Some url =>
        match nth_error (split "," url) 1 with
        | Some base64Data =>
            if String.eqb base64Data "" then []
            else [(("media/scene_" ++ index ++ ".jpg")%string, ZBase64 base64Data)]
        | None => []
        end
    | None => []
    end
  else [].

(** The audio file of a scene, or the error logged by the [catch]. *)
Definition audioFile (ix : nat * Scene)
    : list (string * ZipContent) * list LogEntry :=
  let index := padStart2 (toString (fst ix + 1)) in
  if truthy (audioUrl (snd ix)) then
    match audioUrl (snd ix) with
    | Some url =>
        if fetchBlob env url then
          ([(("media/scene_" ++ index ++ ".wav")%string, ZBlob url)], [])
        else ([], [ConsoleError "Failed to add audio to zip"])
    | None => ([], [])
    end
  else ([], []).

(** The [try] block. The archive ix keyed by path, so the order in which
    the fetches of [Promise.all] finish does not show. *)
Definition zipBody (w : World) : Completion unit * World :=
  let script := [("script/script.txt", ZText scriptContent)] in
  let media :=
    flat_map (fun ix => imageFile ix ++ fst (audioFile ix)) (indexed (scenes props)) in
  let errors := flat_map (fun ix => snd (audioFile ix)) (indexed (scenes props)) in
  let w1 := log errors w in
  if zipGenerates env then (Normal tt, download (ZipFile (script ++ media)) w1)
  else (Threw (errorOf "generateAsync failed"), w1).

Definition handleDownloadZip (w : World) : World :=
  if length (scenes props) =? 0 then w
  else
    let w1 := setIsZipping true w in
    let '(completion, w2) := zipBody w1 in
    let w3 := match completion with
              | Normal _ => w2
              | Threw _ =>
                  alert "Erro ao criar arquivo ZIP."
                    (log [ConsoleError "Zip failed"] w2)
              end in
    setIsZipping false w3.

End Zip.

(** *** The mounted component *)

(** What the body of an export in flight does to the world between its
    head and its [finally]. *)
Inductive BodyEffect : Type :=
| EffLog (entries : list LogEntry)
| EffOpenAudioContext
| EffCloseAudioContext
| EffStartMusic
| EffStopMusic
| EffStartRecorder
| EffStopRecorder
| EffDownload (d : Download).

Definition applyEffect (e : BodyEffect) (w : World) : World :=
  match e with
  | EffLog entries => log entries w
  | EffOpenAudioContext => openAudioContext w
  | EffCloseAudioContext => closeAudioContext w
  | EffStartMusic => startMusic w
  | EffStopMusic => stopMusic w
  | EffStartRecorder => startRecorder w
  | EffStopRecorder => stopRecorder w
  | EffDownload d => download d w
  end.

(** The mounted component between events: the props and the state of the
    last call of the component function ([uiProps], [uiWorld]), the
    exports in flight, each with the [originalTitle] it captured, and the
    [disabled] attribute of the export button as the last committed
    render left it in the DOM. *)
Record Ui : Type := mkUi {
  uiProps : Props;
  uiWorld : World;
  exportsInFlight : list string;
  exportDisabled : bool
}.

Inductive UiEvent : Type :=
| ClickExport                              (* a click on "Baixar Vídeo" *)
| Commit                                   (* a render of the state is committed *)
| BodyStep (e : BodyEffect)                (* an export in flight moves on *)
| ExportSettles (k : nat) (threw : bool)   (* export [k] reaches [finally] *)
| Rerender (p : Props).                    (* the parent passes new props *)

Fixpoint removeNth {A} (k : nat) (l : list A) : list A :=
  match l, k with
  | [], _ => []
  | _ :: l', O => l'
  | x :: l', S k' => x :: removeNth k' l'
  end.

(** A click reaches [handleExportVideo] unless the button is [disabled] in
    the DOM; the handler itself starts an export whatever [isExporting]
    says. [setIsExporting] changes the state at once, the attribute only
    when a render is committed. *)
Definition uiStep (u : Ui) (e : UiEvent) : Ui :=
  match e with
  | ClickExport =>
      if exportDisabled u then u
      else
        match exportBegin (uiProps u) (uiWorld u) with
        | None => u
        | Some w1 =>
            mkUi (uiProps u) w1 (documentTitle (uiWorld u) :: exportsInFlight u)
              (exportDisabled u)
        end
  | Commit =>
      mkUi (uiProps u) (uiWorld u) (exportsInFlight u)
        (exportButtonDisabled (uiProps u) (uiWorld u))
  | BodyStep eff =>
      match exportsInFlight u with
      | [] => u
      | _ :: _ =>
          mkUi (uiProps u) (applyEffect eff (uiWorld u)) (exportsInFlight u)
            (exportDisabled u)
      end
  | ExportSettles k threw =>
      match nth_error (exportsInFlight u) k with
      | None => u
      | Some originalTitle =>
          let w := if threw then exportCatch (uiWorld u) else uiWorld u in
          mkUi (uiProps u) (exportFinally originalTitle w)
            (removeNth k (exportsInFlight u)) (exportDisabled u)
      end
  | Rerender p =>
      mkUi p (uiWorld u) (exportsInFlight u) (exportButtonDisabled p (uiWorld u))
  end.

Definition uiRun (u : Ui) (events : list UiEvent) : Ui :=
  fold_left uiStep events u.

(** [useState(false)] three times, nothing logged, nothing held. *)
Definition initialWorld (title : string) : World :=
  mkWorld false false false title [] [] [] 0 0 0.

(** The component once mounted: its first render is committed. *)
Definition initialUi (p : Props) (title : string) : Ui :=
  mkUi p (initialWorld title) [] (exportButtonDisabled p (initialWorld title)).

(** The events as they arrive when every pending render is committed
    before a click is delivered. *)
Definition renderedBeforeClicks (events : list UiEvent) : list UiEvent :=
  flat_map (fun e => match e with
                     | ClickExport => [Commit; ClickExport]
                     | _ => [e]
                     end) events.

(** The busy flag tells how many exports are in flight. *)
Definition busyFlagCounts (u : Ui) : Prop :=
  length (exportsInFlight u) = if isExporting (uiWorld u) then 1 else 0.

(** *** What the export needs from its surroundings to run to the end *)








(** A monospace stand-in for [measureText]: 30 px per character. *)
Definition monoWidth (s : string) : Q :=
  inject_Z (Z.of_nat (String.length s) * 30)%Z.

(** More fixtures: props for the three demo scenes with a music track, and
    environments in which everything works except, respectively, nothing,
    the recorder. *)
Definition demoProps : Props :=
  mkProps [sceneWithAudio; sceneAudioFails; sceneNoAudio] (Some "music.mp3")
    Ratio16x9 (1 # 2) MODERN true.
Definition demoTicks (i : nat) : list Z := [1000; 2000; 3000; 4000]%Z.
Definition demoEnv : Env :=
  mkEnv true true true monoWidth demoFetchAudio (fun _ => ImgLoaded 1024 1024)
    demoTicks (fun _ => true) true.
Definition musicEnv (recorder : bool) : Env :=
  mkEnv true true recorder monoWidth (fun _ => Some 2%Q)
    (fun _ => ImgLoaded 1024 1024) demoTicks (fun _ => true) true.

End Player.


(* ------------------------------------------------------------------ *)
(** ** src/components/Sidebar.tsx: preview playback of the [Player] *)

Module Playback.

(** [currentSceneIndex], [isPlaying], and whether the music element is
    playing. *)
Record State : Type := mkState {
  currentSceneIndex : Z;
  isPlaying : bool;
  musicPlaying : bool
}.

Inductive Event : Type :=
| Ended          (* the narration audio element fires 'ended' *)
| ClickBack      (* the skip-back button *)
| ClickForward   (* the skip-forward button *)
| ClickPlay.     (* the play / pause button *)

Section WithScenes.
(** [scenes.length], and whether [backgroundMusicUrl] is set. *)
Variable length_scenes : nat.
Variable hasMusic : bool.

Definition handleEnded (st : State) : State :=
  if (currentSceneIndex st <? Z.of_nat length_scenes - 1)%Z then
    mkState (currentSceneIndex st + 1) (isPlaying st) (musicPlaying st)
  else mkState 0 false false.

(** [disabled={currentSceneIndex === 0}] and
    [setCurrentSceneIndex(Math.max(0, currentSceneIndex - 1))] *)
Definition skipBack (st : State) : State :=
  if (currentSceneIndex st =? 0)%Z then st
  else mkState (Z.max 0 (currentSceneIndex st - 1)) (isPlaying st)
         (musicPlaying st).

(** [disabled={currentSceneIndex === scenes.length - 1}] and
    [setCurrentSceneIndex(Math.min(scenes.length - 1, currentSceneIndex + 1))] *)
Definition skipForward (st : State) : State :=
  if (currentSceneIndex st =? Z.of_nat length_scenes - 1)%Z then st
  else mkState (Z.min (Z.of_nat length_scenes - 1) (currentSceneIndex st + 1))
         (isPlaying st) (musicPlaying st).

Definition togglePlay (st : State) : State :=
  if isPlaying st then mkState (currentSceneIndex st) false false
  else mkState (currentSceneIndex st) true (musicPlaying st || hasMusic).

Definition step (st : State) (e : Event) : State :=
  match e with
  | Ended => handleEnded st
  | ClickBack => skipBack st
  | ClickForward => skipForward st
  | ClickPlay => togglePlay st
  end.

Definition run (st : State) (events : list Event) : State :=
  fold_left step events st.

End WithScenes.

(** [useState(0)], [useState(false)], music element idle. *)
Definition initial : State := mkState 0 false false.

(** [scenes[currentSceneIndex]] is a scene. *)
Definition indexInBounds (length_scenes : nat) (st : State) : Prop :=
  (0 <= currentSceneIndex st < Z.of_nat length_scenes)%Z.

End Playback.

(* ------------------------------------------------------------------ *)
(** ** Outcomes of an export *)

(** The alert of the [catch] block of [handleExportVideo]. *)
Definition exportAlert : string :=
  "Erro ao exportar vídeo. Tente a opção 'Baixar Assets' se o problema persistir.".



(* ------------------------------------------------------------------ *)
(** ** The asset archive *)

(** The media files of the archive, as [zipBody] collects them. *)
Definition zipMedia (env : Player.Env) (props : Player.Props)
    : list (string * Player.ZipContent) :=
  flat_map (fun ix => Player.imageFile ix ++ fst (Player.audioFile env ix))
    (Player.indexed (Player.scenes props)).

(** The path of the file of scene number [i] (from 0) with extension
    [ext]. *)
Definition scenePath (i : nat) (ext : string) : string :=
  ("media/scene_" ++ Player.padStart2 (Player.toString (i + 1)) ++ ext)%string.

(** Reading a decimal number, leading zeros allowed. *)
Definition readNumber (s : string) : option nat :=
  option_map Nat.of_uint (NilEmpty.uint_of_string s).

(* ------------------------------------------------------------------ *)
(** ** src/unnamed/part_001: the scenes view *)

Module ScenesView.

(** A [Scene] with its editing-time fields; [undefined] flags count as
    [false]. *)
Record SceneState : Type := mkSceneState {
  scene : Scene;
  isGeneratingImage : bool;
  isGeneratingAudio : bool;
  error : option string
}.

(** A [Partial<Scene>] as the view builds them: for each field, [None]
    when the key is absent. [pError = Some None] is [error: undefined]. *)
Record Partial : Type := mkPartial {
  pNarration : option string;
  pImageUrl : option string;
  pAudioUrl : option string;
  pIsGeneratingImage : option bool;
  pIsGeneratingAudio : option bool;
  pError : option (option string)
}.

Definition noUpdate : Partial := mkPartial None None None None None None.

Definition orKeep {A} (update : option A) (old : A) : A :=
  match update with
  | Some v => v
  | None => old
  end.

(** [{ ...s, ...updates }] *)
Definition merge (s : SceneState) (updates : Partial) : SceneState :=
  mkSceneState
    (mkScene (id (scene s))
       (orKeep (pNarration updates) (narration (scene s)))
       (visualPrompt (scene s))
       (match pImageUrl updates with
        | Some url => Some url
        | None => imageUrl (scene s)
        end)
       (match pAudioUrl updates with
        | Some url => Some url
        | None => audioUrl (scene s)
        end))
    (orKeep (pIsGeneratingImage updates) (isGeneratingImage s))
    (orKeep (pIsGeneratingAudio updates) (isGeneratingAudio s))
    (orKeep (pError updates) (error s)).

(** [setScenes(prev => prev.map(s => s.id === id ? { ...s, ...updates } : s))] *)
Definition updateScene (sceneId : string) (updates : Partial)
    (prev : list SceneState) : list SceneState :=
  map (fun s => if String.eqb (id (scene s)) sceneId then merge s updates else s)
    prev.

(** [{ ...first, ...second }] seen as one update. *)
Definition andThen (first second : Partial) : Partial :=
  mkPartial
    (match pNarration second with Some v => Some v | None => pNarration first end)
    (match pImageUrl second with Some v => Some v | None => pImageUrl first end)
    (match pAudioUrl second with Some v => Some v | None => pAudioUrl first end)
    (match pIsGeneratingImage second with
     | Some v => Some v
     | None => pIsGeneratingImage first
     end)
    (match pIsGeneratingAudio second with
     | Some v => Some v
     | None => pIsGeneratingAudio first
     end)
    (match pError second with Some v => Some v | None => pError first end).

(** [e?.message || fallback] *)
Definition messageOr (e : JsError) (fallback : string) : string :=
  match message e with
  | Some EmptyString => fallback
  | Some m => m
  | None => fallback
  end.

(** The updates of [handleGenerateImage]: before the call, and after it
    settled. *)
Definition imageStarted : Partial :=
  mkPartial None None None (Some true) None (Some None).

Definition imageSettled (outcome : Outcome string) : Partial :=
  match outcome with
  | Resolved imageUrl => mkPartial None (Some imageUrl) None (Some false) None None
  | Rejected e =>
      mkPartial None None None (Some false) None
        (Some (Some (messageOr e "Erro ao gerar imagem")))
  end.

(** [handleGenerateImage(scene)], the call of [generateImage] settling as
    [outcome]; [snapshot] is the scene as the caller saw it. *)
Definition handleGenerateImage (snapshot : SceneState) (outcome : Outcome string)
    (prev : list SceneState) : list SceneState :=
  if isGeneratingImage snapshot then prev
  else
    updateScene (id (scene snapshot)) (imageSettled outcome)
      (updateScene (id (scene snapshot)) imageStarted prev).

Definition audioStarted : Partial :=
  mkPartial None None None None (Some true) (Some None).

Definition audioSettled (outcome : Outcome string) : Partial :=
  match outcome with
  | Resolved audioUrl => mkPartial None None (Some audioUrl) None (Some false) None
  | Rejected e =>
      mkPartial None None None None (Some false)
        (Some (Some (messageOr e "Erro ao gerar áudio")))
  end.

Definition handleGenerateAudio (snapshot : SceneState) (outcome : Outcome string)
    (prev : list SceneState) : list SceneState :=
  if isGeneratingAudio snapshot then prev
  else
    updateScene (id (scene snapshot)) (audioSettled outcome)
      (updateScene (id (scene snapshot)) audioStarted prev).

(** The tasks [handleMagicGenerate] queues, each with the scene as seen
    when it was queued. *)
Inductive Task : Type :=
| GenerateAudio (snapshot : SceneState)
| GenerateImage (snapshot : SceneState).

Definition needsAudio (s : SceneState) : bool :=
  (negb (truthy (audioUrl (scene s))) && negb (isGeneratingAudio s))
  || (truthy (error s) && negb (truthy (audioUrl (scene s)))).

Definition needsImage (s : SceneState) : bool :=
  (negb (truthy (imageUrl (scene s))) && negb (isGeneratingImage s))
  || (truthy (error s) && negb (truthy (imageUrl (scene s)))).

Definition magicTasks (scenes : list SceneState) : list Task :=
  map GenerateAudio (filter needsAudio scenes)
  ++ map GenerateImage (filter needsImage scenes).

(** Scenes as the script view hands them over: no flag set, no error. *)
Definition fresh (scenes : list Scene) : list SceneState :=
  map (fun s => mkSceneState s false false None) scenes.

Definition sceneIdOf (s : SceneState) : string := id (scene s).

Definition demoScenes : list SceneState :=
  [mkSceneState (mkScene "a" "One" "p1" None None) false false None;
   mkSceneState (mkScene "b" "Two" "p2" None None) false false None].

End ScenesView.

(* ------------------------------------------------------------------ *)
(** ** What a generation leaves behind *)

(** How the scene [s] and the scene [s'] it became relate once
    [handleGenerateAudio] on the scene with id [sceneId] has settled as
    [outcome]: other scenes are as they were; the scene itself is no
    longer generating audio, keeps its text, its image and its image flag,
    and has the new audio and no error on success, its old audio and an
    error message on failure. *)
Definition audioSettledAs (sceneId : string) (outcome : Outcome string)
    (s s' : ScenesView.SceneState) : Prop :=
  if String.eqb (ScenesView.sceneIdOf s) sceneId then
    ScenesView.sceneIdOf s' = ScenesView.sceneIdOf s /\
    ScenesView.isGeneratingAudio s' = false /\
    ScenesView.isGeneratingImage s' = ScenesView.isGeneratingImage s /\
    narration (ScenesView.scene s') = narration (ScenesView.scene s) /\
    imageUrl (ScenesView.scene s') = imageUrl (ScenesView.scene s) /\
    match outcome with
    | Resolved url =>
        audioUrl (ScenesView.scene s') = Some url /\ ScenesView.error s' = None
    | Rejected _ =>
        audioUrl (ScenesView.scene s') = audioUrl (ScenesView.scene s) /\
        truthy (ScenesView.error s') = true
    end
  else s' = s.

(* ------------------------------------------------------------------ *)
(** ** What a frame shows *)

Definition isText (d : Player.Drawn) : bool :=
  match d with
  | Player.FillText _ _ _ _ => true
  | _ => false
  end.

Definition isImage (d : Player.Drawn) : bool :=
  match d with
  | Player.DrawImage _ _ _ _ _ _ _ => true
  | _ => false
  end.

(** A frame begins by filling the whole canvas in black; after that it
    shows an image only if the scene has one, and text only if subtitles
    are on and the narration is not empty. *)
Definition frameShows (canvasWidth canvasHeight : Q) (img : option Player.Img)
    (subtitles : bool) (f : Player.Frame) : Prop :=
  exists c rest,
    Player.drawn f
    = Player.FillRect (Player.setFillStyle "#000" c) 0 0 canvasWidth canvasHeight
      :: rest /\
    (img = None -> existsb isImage rest = false) /\
    (subtitles = false -> existsb isText rest = false) /\
    (img = None -> subtitles = false -> rest = []).

(* ------------------------------------------------------------------ *)
(** ** More JavaScript helpers *)

(** [s.includes(c)] for one character. *)
Fixpoint hasChar (c : ascii) (s : string) : bool :=
  match s with
  | EmptyString => false
  | String x s' => Ascii.eqb x c || hasChar c s'
  end.

(** [ws.join(sep)] for a one-character separator. *)
Definition join (sep : ascii) (ws : list string) : string :=
  String.concat (String sep EmptyString) ws.

(* ------------------------------------------------------------------ *)
(** ** Canvas geometry *)

(** Where [ctx.translate(c, _); ctx.scale(s, _); ctx.translate(-c, _)]
    sends the coordinate [x]. *)
Definition zoomAbout (zoom center x : Q) : Q := (center + zoom * (x - center))%Q.

(* ------------------------------------------------------------------ *)
(** ** JavaScript numbers as IEEE 754 binary64 values

    Used where a property turns on the rounding of the arithmetic: a
    finite number is the rational it denotes (the sign of zero is not
    kept), and every operation rounds its exact result to the nearest
    double, ties to even. *)

Module Double.

Inductive number : Type :=
| Finite (q : Q)
| PosInfinity
| NegInfinity
| NaN.

(** [floor (log2 x)], for [0 < x]. *)
Definition exponent (x : Q) : Z :=
  let e0 := (Z.log2 (Qnum x) - Z.log2 (Zpos (Qden x)))%Z in
  if Qle_bool (2 ^ e0) x then e0 else (e0 - 1)%Z.

(** The exponent of the unit in the last place of the doubles around [x]:
    53 bits of precision, subnormal below [2 ^ -1022]. *)
Definition quantum (x : Q) : Z := Z.max (exponent x - 52) (-1074).

(** The nearest integer, ties to even. *)
Definition roundHalfEven (m : Q) : Z :=
  let f := Qfloor m in
  match (m - inject_Z f ?= 1 # 2)%Q with
  | Lt => f
  | Gt => (f + 1)%Z
  | Eq => if Z.even f then f else (f + 1)%Z
  end.

(** The nearest multiple of [2 ^ s]. *)
Definition roundTo (s : Z) (x : Q) : Q :=
  (inject_Z (roundHalfEven (x / 2 ^ s)) * 2 ^ s)%Q.

Definition roundPositive (x : Q) : Q := roundTo (quantum x) x.

(** Round to nearest, ties to even, the exponent unbounded above. *)
Definition roundFinite (x : Q) : Q :=
  match (x ?= 0)%Q with
  | Eq => 0%Q
  | Gt => roundPositive x
  | Lt => (- roundPositive (- x))%Q
  end.

(** [Number.MAX_VALUE] *)
Definition maxValue : Q := (2 ^ 1024 - 2 ^ 971)%Q.

(** The double nearest to the real [x]; what rounds past [maxValue]
    overflows. *)
Definition round (x : Q) : number :=
  let r := roundFinite x in
  if Qle_bool r maxValue then
    if Qle_bool (- maxValue) r then Finite r else NegInfinity
  else PosInfinity.

(** [a * b] *)
Definition mul (a b : number) : number :=
  match a, b with
  | NaN, _ | _, NaN => NaN
  | Finite x, Finite y => round (x * y)
  | Finite x, PosInfinity | PosInfinity, Finite x =>
      match (x ?= 0)%Q with
      | Gt => PosInfinity
      | Lt => NegInfinity
      | Eq => NaN
      end
  | Finite x, NegInfinity | NegInfinity, Finite x =>
      match (x ?= 0)%Q with
      | Gt => NegInfinity
      | Lt => PosInfinity
      | Eq => NaN
      end
  | PosInfinity, PosInfinity | NegInfinity, NegInfinity => PosInfinity
  | PosInfinity, NegInfinity | NegInfinity, PosInfinity => NegInfinity
  end.

(** [a + b] *)
Definition add (a b : number) : number :=
  match a, b with
  | NaN, _ | _, NaN => NaN
  | Finite x, Finite y => round (x + y)
  | PosInfinity, NegInfinity | NegInfinity, PosInfinity => NaN
  | PosInfinity, _ | _, PosInfinity => PosInfinity
  | NegInfinity, _ | _, NegInfinity => NegInfinity
  end.

(** [a <= b] *)
Definition leb (a b : number) : bool :=
  match a, b with
  | NaN, _ | _, NaN => false
  | NegInfinity, _ | _, PosInfinity => true
  | Finite x, Finite y => Qle_bool x y
  | _, _ => false
  end.

(** [Math.ceil(a)] *)
Definition ceil (a : number) : number :=
  match a with
  | Finite x => Finite (inject_Z (Qceiling x))
  | _ => a
  end.

(** [Math.max(a, b)] *)
Definition max (a b : number) : number :=
  match a, b with
  | NaN, _ | _, NaN => NaN
  | _, _ => if leb a b then b else a
  end.

(** The rational [q] is the value of a double. *)
Definition isDouble (q : Q) : Prop := (roundFinite q == q)%Q.

End Double.

(* ------------------------------------------------------------------ *)
(** ** [retryOperation] with the arithmetic of doubles

    The loop of [Retry.retryFrom] again, with [delay], [jitter] and
    [waitTime] computed as the code computes them, on doubles. *)

Module RetryDouble.

Record Run (T : Type) : Type := mkRun {
  result : Outcome T;
  attempts : nat;
  waits : list Double.number
}.
Arguments mkRun {T}.
Arguments result {T}.
Arguments attempts {T}.
Arguments waits {T}.

Section Loop.
Context {T : Type}.
Variable operation : nat -> Outcome T.
Variable random : nat -> Q.
Variable maxRetries : nat.

Fixpoint retryFrom (remaining i : nat) (delay : Double.number) : Run T :=
  match remaining with
  | O => mkRun (Rejected Retry.exhaustedError) i []
  | S remaining' =>
      match operation i with
      | Resolved v => mkRun (Resolved v) (S i) []
      | Rejected error =>
          let isLastAttempt := Nat.eqb i (maxRetries - 1) in
          if Retry.isRateLimit error && negb isLastAttempt then
            let jitter :=
              Double.mul (Double.Finite (random i)) (Double.Finite 1000) in
            let waitTime := Double.add delay jitter in
            let rest :=
              retryFrom remaining' (S i)
                (Double.mul delay (Double.Finite 1.5)) in
            mkRun (result rest) (attempts rest) (waitTime :: waits rest)
          else mkRun (Rejected error) (S i) []
      end
  end.

End Loop.

Definition retryOperation {T} (operation : nat -> Outcome T)
    (random : nat -> Q) (maxRetries : nat) (initialDelay : Double.number)
    : Run T :=
  retryFrom operation random maxRetries maxRetries 0 initialDelay.

(** A [delay] of at least 2000 ms: a double, or [Infinity] once the
    back-off has overflowed. *)
Definition delayOk (delay : Double.number) : Prop :=
  match delay with
  | Double.Finite q => (2000 <= q)%Q /\ Double.isDouble q
  | Double.PosInfinity => True
  | _ => False
  end.

End RetryDouble.

(* ------------------------------------------------------------------ *)
(** ** src/unnamed/part_000 (Gemini service): the generators *)

Module Gemini.

(** [Math.max(3, Math.ceil(durationMinutes * 6))] of [generateScript]. *)
Definition estimatedScenes (durationMinutes : Double.number) : Double.number :=
  Double.max (Double.Finite 3)
    (Double.ceil (Double.mul durationMinutes (Double.Finite 6))).

(** [new Error(msg)] *)
Definition errorOf (msg : string) : JsError := mkJsError (Some msg) None None.

(** [generateImageFallback]: what the Flash-Image call answered, as the
    [inlineData.data] of the first part ([None]: no such part). *)
Definition generateImageFallback (response : Outcome (option string))
    : Outcome string :=
  match response with
  | Resolved (Some data) => Resolved ("data:image/png;base64," ++ data)%string
  | Resolved None => Rejected (errorOf "Fallback image generation failed")
  | Rejected e => Rejected e
  end.

(** The operation [generateImage] hands to [retryOperation]: [imagen] is
    what the Imagen call answered, as the [imageBytes] of the first image;
    any failure of it, the missing image included, is caught and answered
    by the fallback. *)
Definition generateImageOnce (imagen flash : Outcome (option string))
    : Outcome string :=
  match imagen with
  | Resolved (Some base64Image) =>
      if negb (String.eqb base64Image "") then
        Resolved ("data:image/jpeg;base64," ++ base64Image)%string
      else generateImageFallback flash
  | _ => generateImageFallback flash
  end.

(** [generateImage]: 5 attempts, 4000 ms initial delay. [imagen i] and
    [flash i] are the answers the two models give at attempt [i]. *)
Definition generateImage (imagen flash : nat -> Outcome (option string))
    (random : nat -> Q) : Retry.Run string :=
  Retry.retryOperation (fun i => generateImageOnce (imagen i) (flash i))
    random 5 4000.

(** The Imagen call did not yield an image. *)
Definition imagenFails (r : Outcome (option string)) : Prop :=
  match r with
  | Resolved (Some base64Image) => base64Image = ""
  | _ => True
  end.

End Gemini.

(* ------------------------------------------------------------------ *)
(** ** src/unnamed/part_002: the script view *)

Module ScriptView.

(** [Math.max(1, parseInt(e.target.value) || 1)] of the custom duration
    input; [parsed] is [None] when [parseInt] answers [NaN]. *)
Definition customDuration (parsed : option Z) : Z :=
  Z.max 1 (match parsed with
           | Some n => if (n =? 0)%Z then 1 else n
           | None => 1
           end).

(** [Math.ceil(duration * 6)], the scene count shown beside the input. *)
Definition shownScenes (duration : Double.number) : Double.number :=
  Double.ceil (Double.mul duration (Double.Finite 6)).

(** [processScenes]: every generated scene gets a fresh id
    ([crypto.randomUUID()], here [uuid i]) and no image or audio yet. *)
Definition processScenes (uuid : nat -> string)
    (generated : list (string * string)) : list Scene :=
  map (fun ig => mkScene (uuid (fst ig)) (fst (snd ig)) (snd (snd ig)) None None)
    (combine (seq 0 (length generated)) generated).

End ScriptView.

(* ================================================================== *)
(** * Part II.  Theorems                                               *)
(* ================================================================== *)

Section RetryFacts.
Import Retry.
Context {T : Type}.
Variable random : nat -> Q.
Variable maxRetries : nat.

(** [j] rate-limited rejections in a row, none on the last attempt, are
    skipped over: the loop continues from index [i + j]. *)
Lemma retryFrom_skip (operation : nat -> Outcome T) (errs : nat -> JsError) :
  forall j r i delay,
    (forall t, t < j -> operation (i + t) = Rejected (errs (i + t))) ->
    (forall t, t < j -> isRateLimit (errs (i + t)) = true) ->
    i + j <= maxRetries - 1 ->
    exists delay',
      result (retryFrom operation random maxRetries (j + r) i delay)
      = result (retryFrom operation random maxRetries r (i + j) delay') /\
      attempts (retryFrom operation random maxRetries (j + r) i delay)
      = attempts (retryFrom operation random maxRetries r (i + j) delay').
Proof.
  induction j as [|j IH]; intros r i delay Hop Hrl Hle.
  - exists delay. rewrite Nat.add_0_r. split; reflexivity.
  - assert (H0 : operation i = Rejected (errs i)).
    { generalize (Hop 0). rewrite Nat.add_0_r. intros H; apply H; lia. }
    assert (H1 : isRateLimit (errs i) = true).
    { generalize (Hrl 0). rewrite Nat.add_0_r. intros H; apply H; lia. }
    cbn [Nat.add retryFrom]. rewrite H0, H1.
    replace (Nat.eqb i (maxRetries - 1)) with false
      by (symmetry; apply Nat.eqb_neq; lia).
    cbn [andb negb result attempts].
    destruct (IH r (S i) (delay * 1.5)%Q) as [delay' [Hr Ha]].
    + intros t Ht. replace (S i + t) with (i + S t) by lia. apply Hop. lia.
    + intros t Ht. replace (S i + t) with (i + S t) by lia. apply Hrl. lia.
    + lia.
    + exists delay'. replace (i + S j) with (S i + j) by lia. split; assumption.
Qed.

(** The same, from the start of [retryOperation]. *)
Lemma retryOperation_skip (operation : nat -> Outcome T) (errs : nat -> JsError)
    (initialDelay : Q) (j : nat) :
  (forall t, t < j -> operation t = Rejected (errs t)) ->
  (forall t, t < j -> isRateLimit (errs t) = true) ->
  j <= maxRetries - 1 ->
  exists delay',
    result (retryOperation operation random maxRetries initialDelay)
    = result (retryFrom operation random maxRetries (maxRetries - j) j delay') /\
    attempts (retryOperation operation random maxRetries initialDelay)
    = attempts (retryFrom operation random maxRetries (maxRetries - j) j delay').
Proof.
  intros Hop Hrl Hle. unfold retryOperation.
  pose proof (retryFrom_skip operation errs j (maxRetries - j) 0 initialDelay)
    as H.
  cbn [Nat.add] in H.
  destruct (Nat.eq_dec maxRetries 0) as [E|E].
  - assert (j = 0) by lia. subst j. rewrite Nat.sub_0_r.
    exists initialDelay. split; reflexivity.
  - replace (j + (maxRetries - j)) with maxRetries in H by lia.
    apply H; auto.
Qed.

Lemma failsThenSucceeds_before (k : nat) (errs : nat -> JsError) (v : T) (i : nat) :
  i < k -> failsThenSucceeds k errs v i = Rejected (errs i).
Proof.
  intros H. unfold failsThenSucceeds.
  destruct (Nat.ltb_spec i k); [reflexivity | lia].
Qed.

Lemma failsThenSucceeds_after (k : nat) (errs : nat -> JsError) (v : T) (i : nat) :
  k <= i -> failsThenSucceeds k errs v i = Resolved v.
Proof.
  intros H. unfold failsThenSucceeds.
  destruct (Nat.ltb_spec i k); [lia | reflexivity].
Qed.

End RetryFacts.

(** With no attempt allowed the operation is never called and the wrapper
    rejects with its own error. No call site passes 0. *)
Remark retryOperation_zero_budget {T : Type} (operation : nat -> Outcome T)
    (random : nat -> Q) (initialDelay : Q) :
  Retry.retryOperation operation random 0 initialDelay
  = Retry.mkRun (Rejected Retry.exhaustedError) 0 [].
Proof. reflexivity. Qed.

(** C4.  With at least one attempt allowed ([1 <= maxRetries], as at every
    call site: 3 and 5): an operation that is rejected with rate-limit
    errors [k] times and then resolves makes [retryOperation] resolve to the
    same value when [k < maxRetries] (after [k + 1] calls), and makes it
    reject with the operation's own rate-limit error, after exactly
    [maxRetries] calls, when [k >= maxRetries]; and a rejection that is not
    a rate-limit error, at any attempt reached, is re-thrown at once, the
    operation not being called again. *)
Theorem retryOperation_policy {T : Type} (random : nat -> Q)
    (maxRetries : nat) (initialDelay : Q) :
  1 <= maxRetries ->
  (forall (k : nat) (errs : nat -> JsError) (v : T),
     (forall i, i < k -> Retry.isRateLimit (errs i) = true) ->
     let run := Retry.retryOperation (Retry.failsThenSucceeds k errs v)
                  random maxRetries initialDelay in
     (k < maxRetries ->
        Retry.result run = Resolved v /\ Retry.attempts run = S k) /\
     (maxRetries <= k ->
        Retry.result run = Rejected (errs (maxRetries - 1)) /\
        Retry.attempts run = maxRetries)) /\
  (forall (operation : nat -> Outcome T) (errs : nat -> JsError)
          (j : nat) (e : JsError),
     j < maxRetries ->
     (forall i, i < j -> operation i = Rejected (errs i)) ->
     (forall i, i < j -> Retry.isRateLimit (errs i) = true) ->
     operation j = Rejected e ->
     Retry.isRateLimit e = false ->
     let run := Retry.retryOperation operation random maxRetries initialDelay in
     Retry.result run = Rejected e /\ Retry.attempts run = S j).
Proof.
  intros Hmax. split.
  - intros k errs v Hrl run. subst run. split.
    + intros Hk.
      destruct (retryOperation_skip random maxRetries
                  (Retry.failsThenSucceeds k errs v) errs initialDelay k)
        as [d [Hr Ha]].
      * intros t Ht. now apply failsThenSucceeds_before.
      * assumption.
      * lia.
      * rewrite Hr, Ha.
        destruct (maxRetries - k) as [|r] eqn:E; [lia|].
        cbn [Retry.retryFrom].
        rewrite failsThenSucceeds_after by lia. split; reflexivity.
    + intros Hk.
      destruct (retryOperation_skip random maxRetries
                  (Retry.failsThenSucceeds k errs v) errs initialDelay
                  (maxRetries - 1))
        as [d [Hr Ha]].
      * intros t Ht. apply failsThenSucceeds_before. lia.
      * intros t Ht. apply Hrl. lia.
      * lia.
      * rewrite Hr, Ha.
        replace (maxRetries - (maxRetries - 1)) with 1 by lia.
        cbn [Retry.retryFrom].
        rewrite failsThenSucceeds_before by lia.
        rewrite Nat.eqb_refl, andb_false_r.
        cbn [Retry.result Retry.attempts]. split; [reflexivity | lia].
  - intros operation errs j e Hj Hop Hrl Hej He run. subst run.
    destruct (retryOperation_skip random maxRetries operation errs
                initialDelay j) as [d [Hr Ha]]; try assumption; try lia.
    rewrite Hr, Ha.
    destruct (maxRetries - j) as [|r] eqn:E; [lia|].
    cbn [Retry.retryFrom]. rewrite Hej, He.
    cbn [andb Retry.result Retry.attempts]. split; reflexivity.
Qed.

(** The policy at the script-generation call site ([maxRetries = 3]): two
    rate-limit rejections and then a value; three rejections; and an
    immediate non-rate-limit rejection. *)
Lemma retryOperation_policy_witness :
  1 <= 3 /\
  (Retry.result (Retry.retryOperation
       (Retry.failsThenSucceeds 2 (fun _ => Retry.err429) 7%Z)
       (fun _ => 0%Q) 3 2000%Q) = Resolved 7%Z) /\
  (Retry.result (Retry.retryOperation
       (Retry.failsThenSucceeds 3 (fun _ => Retry.errQuota) 7%Z)
       (fun _ => 0%Q) 3 2000%Q) = Rejected Retry.errQuota) /\
  (Retry.attempts (Retry.retryOperation
       (fun _ : nat => @Rejected Z Retry.errNoText)
       (fun _ => 0%Q) 3 2000%Q) = 1).
Proof.
  pose proof (@retryOperation_policy Z (fun _ => 0%Q) 3 2000%Q
                ltac:(lia)) as [Hk Hn].
  split; [lia|]. split; [|split].
  - apply (Hk 2 (fun _ => Retry.err429) 7%Z); [intros; reflexivity | lia].
  - apply (Hk 3 (fun _ => Retry.errQuota) 7%Z); [intros; reflexivity | lia].
  - apply (Hn (fun _ => Rejected Retry.errNoText) (fun _ => Retry.err429) 0
              Retry.errNoText); try reflexivity; try lia; intros; lia.
Defined.

(* ------------------------------------------------------------------ *)
(** ** [processQueue] *)

Section QueueFacts.
Import Queue.
Variable length_tasks : nat.
Variable fails : nat -> bool.

Local Abbreviation Inv := (Queue.Inv length_tasks fails).

Lemma running_app (ws ws' : list Worker) :
  running (ws ++ ws') = running ws ++ running ws'.
Proof. unfold running. apply flat_map_app. Qed.

Lemma length_running (ws : list Worker) : length (running ws) <= length ws.
Proof.
  unfold running.
  induction ws as [|w ws IH]; [apply Nat.le_refl|].
  destruct w; cbn in *; lia.
Qed.

Lemma length_setNth {A} (k : nat) (x : A) (l : list A) :
  length (setNth k x l) = length l.
Proof.
  revert k. induction l as [|y l IH]; intros [|k]; cbn; auto.
Qed.

Lemma running_settle (ws : list Worker) (w i : nat) :
  nth_error ws w = Some (Running i) ->
  Permutation (running ws) (i :: running (setNth w Sleeping ws)).
Proof.
  revert w. induction ws as [|x ws IH]; intros [|w] H; cbn in H; try discriminate.
  - injection H as ->. cbn. apply Permutation_refl.
  - cbn [setNth]. change (running (x :: ?l)) with (runningOf x ++ running l).
    rewrite (IH w H). symmetry. apply Permutation_middle.
Qed.

Lemma running_wake (ws : list Worker) (w : nat) (wk : Worker) :
  nth_error ws w = Some Sleeping ->
  Permutation (running (setNth w wk ws)) (running ws ++ runningOf wk).
Proof.
  revert w. induction ws as [|x ws IH]; intros [|w] H; cbn in H; try discriminate.
  - injection H as ->. cbn [setNth].
    change (running (?y :: ?l)) with (runningOf y ++ running l).
    cbn [runningOf app]. apply Permutation_app_comm.
  - cbn [setNth]. change (running (?y :: ?l)) with (runningOf y ++ running l).
    rewrite (IH w H). now rewrite app_assoc.
Qed.

Lemma In_setNth {A} (k : nat) (x y : A) (l : list A) :
  In y (setNth k x l) -> y = x \/ In y l.
Proof.
  revert k. induction l as [|z l IH]; intros [|k]; cbn; auto.
  - intros [H|H]; auto.
  - intros [H|H]; auto. destruct (IH k H); auto.
Qed.

(** The synchronous head of [runNext] keeps the invariant, whatever list
    [ws] the new chain state is stored in. *)
Lemma Inv_runNext (s : State) (ws : list Worker) :
  Inv s ->
  (In Done ws -> In Done (workers s) \/ snd (runNext length_tasks s) = Done) ->
  Permutation (running ws)
    (running (workers s) ++ runningOf (snd (runNext length_tasks s))) ->
  Inv (mkState (index (fst (runNext length_tasks s))) ws
         (started (fst (runNext length_tasks s)))
         (settled (fst (runNext length_tasks s)))).
Proof.
  intros [Hi Hs Hp Ho Hd]. unfold runNext.
  destruct (Nat.leb_spec length_tasks (index s)) as [Hle|Hlt];
    cbn [fst snd runningOf index started settled workers];
    intros Hdone Hperm.
  - rewrite app_nil_r in Hperm.
    constructor; cbn [index started settled workers]; auto.
    now rewrite Hperm.
  - constructor; cbn [index started settled workers].
    + lia.
    + rewrite seq_S, Hs. reflexivity.
    + rewrite Hp, <- app_assoc. apply Permutation_app_head.
      symmetry. exact Hperm.
    + exact Ho.
    + intros H. destruct (Hdone H) as [H'|H']; [|discriminate].
      apply Hd in H'. lia.
Qed.

Lemma startBatch_S (limit : nat) (s : State) :
  startBatch length_tasks (S limit) s
  = startBatch length_tasks limit
      (mkState (index (fst (runNext length_tasks s)))
         (workers (fst (runNext length_tasks s)) ++ [snd (runNext length_tasks s)])
         (started (fst (runNext length_tasks s)))
         (settled (fst (runNext length_tasks s)))).
Proof. cbn [startBatch]. destruct (runNext length_tasks s). reflexivity. Qed.

Lemma workers_runNext (s : State) :
  workers (fst (runNext length_tasks s)) = workers s.
Proof. unfold runNext. destruct (length_tasks <=? index s); reflexivity. Qed.

Lemma Inv_startBatch (limit : nat) :
  forall s, Inv s -> ~ In Done (workers s) ->
    limit + index s <= length_tasks ->
    Inv (startBatch length_tasks limit s) /\
    length (workers (startBatch length_tasks limit s)) = length (workers s) + limit.
Proof.
  induction limit as [|limit IH]; intros s HI Hnd Hle.
  - cbn. split; [assumption | lia].
  - rewrite startBatch_S, workers_runNext.
    assert (HR : snd (runNext length_tasks s) = Running (index s) /\
                 index (fst (runNext length_tasks s)) = S (index s)).
    { unfold runNext.
      destruct (Nat.leb_spec length_tasks (index s)); [lia | split; reflexivity]. }
    destruct HR as [Hw Hidx].
    match goal with |- Inv (startBatch _ _ ?t) /\ _ => destruct (IH t) as [HI' HL'] end.
    + apply Inv_runNext; [assumption | |].
      * intros HD. apply in_app_or in HD. destruct HD as [HD|[HD|[]]]; auto.
      * now rewrite running_app; cbn; rewrite app_nil_r.
    + cbn [workers]. rewrite Hw. intros HD. apply in_app_or in HD.
      destruct HD as [HD|[HD|[]]]; [contradiction | discriminate].
    + cbn [index]. lia.
    + split; [exact HI'|]. rewrite HL'. cbn [workers]. rewrite length_app. cbn. lia.
Qed.

Lemma measure_startBatch (limit : nat) :
  forall s, limit + index s <= length_tasks ->
    measure length_tasks (startBatch length_tasks limit s)
    = measure length_tasks s.
Proof.
  induction limit as [|limit IH]; intros s Hle; [reflexivity|].
  rewrite startBatch_S, IH.
  - unfold measure, runNext.
    destruct (Nat.leb_spec length_tasks (index s)); [lia|].
    cbn [fst snd index workers]. rewrite map_app, list_sum_app.
    cbn [map weight list_sum fold_right]. lia.
  - unfold runNext.
    destruct (Nat.leb_spec length_tasks (index s)); cbn [fst index]; lia.
Qed.

Lemma measure_processQueue (concurrency : nat) :
  measure length_tasks (processQueue length_tasks concurrency) = 2 * length_tasks.
Proof.
  unfold processQueue. rewrite measure_startBatch.
  - unfold measure. cbn. lia.
  - cbn [index]. lia.
Qed.

Lemma Inv_processQueue (concurrency : nat) :
  Inv (processQueue length_tasks concurrency) /\
  length (workers (processQueue length_tasks concurrency))
  = Nat.min concurrency length_tasks.
Proof.
  unfold processQueue.
  destruct (Inv_startBatch (Nat.min concurrency length_tasks)
              (mkState 0 [] [] [])) as [H1 H2].
  - constructor; cbn; auto; try lia; try tauto.
  - cbn. tauto.
  - cbn. lia.
  - split; [exact H1 | exact H2].
Qed.

Lemma weight_setNth (ws : list Worker) (w : nat) (x y : Worker) :
  nth_error ws w = Some x ->
  list_sum (map weight (setNth w y ws)) + weight x
  = list_sum (map weight ws) + weight y.
Proof.
  revert w. induction ws as [|z ws IH]; intros [|w] H; cbn in H; try discriminate.
  - injection H as ->. cbn [setNth map list_sum fold_right]. lia.
  - cbn [setNth map list_sum fold_right]. specialize (IH w H).
    unfold list_sum in IH. lia.
Qed.

(** Every resumption keeps the invariant and the number of chains, and
    uses up exactly one unit of [measure]. *)
Lemma Inv_step (e : Event) (s s' : State) :
  Inv s -> step length_tasks fails e s = Some s' ->
  Inv s' /\ length (workers s') = length (workers s) /\
  measure length_tasks s = S (measure length_tasks s').
Proof.
  intros HI Hstep. destruct e as [w|w]; cbn [step] in Hstep.
  - destruct (nth_error (workers s) w) as [[i| |]|] eqn:Hw; try discriminate.
    injection Hstep as <-. destruct HI as [Hi Hs Hp Ho Hd].
    split; [|split].
    + constructor; cbn [index started settled workers]; auto.
      * rewrite Hp, map_app, <- app_assoc. apply Permutation_app_head.
        cbn. apply running_settle. exact Hw.
      * intros j b HIn. apply in_app_or in HIn.
        destruct HIn as [HIn|[HIn|[]]]; [eauto|]. now inversion HIn.
      * intros HD. apply In_setNth in HD. destruct HD as [HD|HD];
          [discriminate | auto].
    + cbn [workers]. apply length_setNth.
    + unfold measure. cbn [index workers].
      pose proof (weight_setNth (workers s) w (Running i) Sleeping Hw) as HW.
      cbn [weight] in HW. lia.
  - destruct (nth_error (workers s) w) as [[i| |]|] eqn:Hw; try discriminate.
    pose proof (Inv_runNext s (setNth w (snd (runNext length_tasks s)) (workers s)) HI)
      as HR.
    pose proof (weight_setNth (workers s) w Sleeping
                  (snd (runNext length_tasks s)) Hw) as HW.
    pose proof (workers_runNext s) as HWs.
    destruct (runNext length_tasks s) as [t wk] eqn:Hrun.
    cbn [fst snd] in *. injection Hstep as <-. rewrite HWs.
    split; [|split].
    + apply HR.
      * intros HD. apply In_setNth in HD. destruct HD; auto.
      * apply running_wake. exact Hw.
    + cbn [workers]. apply length_setNth.
    + unfold measure. cbn [index workers]. cbn [weight] in HW.
      unfold runNext in Hrun. destruct HI as [Hi _ _ _ _].
      destruct (Nat.leb_spec length_tasks (index s));
        injection Hrun as <- <-; cbn [index weight] in *; lia.
Qed.

Lemma Inv_run (es : list Event) :
  forall s s', Inv s -> run length_tasks fails es s = Some s' ->
    Inv s' /\ length (workers s') = length (workers s) /\
    measure length_tasks s = length es + measure length_tasks s'.
Proof.
  induction es as [|e es IH]; intros s s' HI Hrun; cbn [run] in Hrun.
  - injection Hrun as <-. auto.
  - destruct (step length_tasks fails e s) as [t|] eqn:Hstep; [|discriminate].
    destruct (Inv_step e s t HI Hstep) as [HIt [HLt HMt]].
    destruct (IH t s' HIt Hrun) as [HI' [HL' HM']].
    split; [assumption|]. split; [congruence|]. cbn [length]. lia.
Qed.

Lemma Permutation_filter {A} (f : A -> bool) (l l' : list A) :
  Permutation l l' -> Permutation (filter f l) (filter f l').
Proof.
  induction 1 as [|x l l' _ IH|x y l|l l' l'' _ IH1 _ IH2]; cbn.
  - constructor.
  - destruct (f x); auto.
  - destruct (f x), (f y); auto using Permutation_refl, perm_swap.
  - eapply Permutation_trans; eassumption.
Qed.

Lemma isSettled_In (s : State) (i : nat) :
  isSettled s i = true <-> In i (map fst (settled s)).
Proof.
  unfold isSettled. rewrite existsb_exists, in_map_iff. split.
  - intros [p [Hp He]]. apply Nat.eqb_eq in He. eauto.
  - intros [p [He Hp]]. exists p. split; [assumption|]. now apply Nat.eqb_eq.
Qed.

Lemma NoDup_app_disjoint {A} (l1 l2 : list A) (a : A) :
  NoDup (l1 ++ l2) -> In a l1 -> In a l2 -> False.
Proof.
  induction l1 as [|x l1 IH]; cbn; intros ND H1 H2; [exact H1|].
  inversion ND as [|? ? Hx ND']; subst. destruct H1 as [->|H1].
  - apply Hx, in_or_app. now right.
  - now apply IH.
Qed.

Lemma filter_none {A} (f : A -> bool) (l : list A) :
  (forall a, In a l -> f a = false) -> filter f l = [].
Proof.
  induction l as [|x l IH]; cbn; intros H; [reflexivity|].
  rewrite (H x) by auto. apply IH. auto.
Qed.

(** The tasks in flight are the tasks the chains are awaiting. *)
Lemma inFlight_running (s : State) :
  Inv s -> Permutation (inFlight s) (running (workers s)).
Proof.
  intros [Hi Hs Hp Ho Hd]. unfold inFlight.
  assert (ND : NoDup (map fst (settled s) ++ running (workers s))).
  { eapply Permutation_NoDup; [exact Hp|]. rewrite Hs. apply seq_NoDup. }
  rewrite (Permutation_filter _ _ _ Hp), filter_app.
  rewrite filter_none.
  - cbn [app]. rewrite forallb_filter_id; [apply Permutation_refl|].
    apply forallb_forall. intros i Hin.
    destruct (isSettled s i) eqn:E; [|reflexivity].
    apply isSettled_In in E. exfalso.
    exact (NoDup_app_disjoint _ _ i ND E Hin).
  - intros i Hin. apply isSettled_In in Hin. now rewrite Hin.
Qed.

(** While some chain has not returned, the scheduler has something to
    deliver: the queue cannot get stuck, whichever tasks fail. *)
Lemma step_enabled (s : State) :
  finished s = false ->
  exists e s', step length_tasks fails e s = Some s'.
Proof.
  unfold finished. intros H.
  assert (Hex : exists w x, nth_error (workers s) w = Some x /\ isDone x = false).
  { induction (workers s) as [|x ws IH]; cbn in H; [discriminate|].
    destruct (isDone x) eqn:E.
    - destruct (IH H) as [w [y [Hw Hy]]]. exists (S w), y. auto.
    - exists 0, x. auto. }
  destruct Hex as [w [x [Hw Hx]]]. destruct x as [i| |]; [| |discriminate].
  - exists (TaskSettles w). cbn [step]. rewrite Hw. eauto.
  - exists (TimerFires w). cbn [step]. rewrite Hw.
    destruct (runNext length_tasks s). eauto.
Qed.

Lemma running_finished (ws : list Worker) :
  forallb isDone ws = true -> running ws = [].
Proof.
  unfold running. induction ws as [|x ws IH]; cbn; intros H; [reflexivity|].
  apply andb_prop in H. destruct H as [Hx Hws].
  destruct x; try discriminate. cbn. auto.
Qed.

(** Once every chain has returned, and there was at least one chain, every
    task has been called and has settled. *)
Lemma finished_all_settled (s : State) :
  Inv s -> finished s = true -> workers s <> [] ->
  forall i, i < length_tasks -> In (i, fails i) (settled s).
Proof.
  intros [Hi Hs Hp Ho Hd] Hfin Hne i Hlt. unfold finished in Hfin.
  assert (HD : In Done (workers s)).
  { destruct (workers s) as [|x ws]; [congruence|].
    cbn in Hfin. apply andb_prop in Hfin. destruct Hfin as [Hx _].
    destruct x; try discriminate. now left. }
  apply Hd in HD.
  rewrite (running_finished _ Hfin), app_nil_r, Hs in Hp.
  assert (Hin : In i (map fst (settled s))).
  { eapply Permutation_in; [exact Hp|]. apply in_seq. lia. }
  apply in_map_iff in Hin. destruct Hin as [[j b] [Hj Hin]]. cbn in Hj. subst j.
  now rewrite <- (Ho i b Hin).
Qed.

End QueueFacts.

(** C9.  In every state a [processQueue] call can reach, whatever the
    schedule and whichever tasks reject: at most [concurrency] tasks are in
    flight (called and not yet settled); the queue is never stuck while a
    chain has not returned; at most [2 * tasks.length] resumptions ever
    happen; and when all chains have returned, with [concurrency >= 1],
    every task has been called and has settled, the rejected ones
    included. *)
Theorem processQueue_bounded_and_complete (length_tasks concurrency : nat)
    (fails : nat -> bool) (schedule : list Queue.Event) (s : Queue.State) :
  Queue.run length_tasks fails schedule
    (Queue.processQueue length_tasks concurrency) = Some s ->
  length (Queue.inFlight s) <= concurrency /\
  length schedule <= 2 * length_tasks /\
  (Queue.finished s = false ->
     exists e s', Queue.step length_tasks fails e s = Some s') /\
  (Queue.finished s = true -> 1 <= concurrency ->
     forall i, i < length_tasks -> In (i, fails i) (Queue.settled s)).
Proof.
  intros Hrun.
  destruct (Inv_processQueue length_tasks fails concurrency) as [HI0 HL0].
  destruct (Inv_run length_tasks fails schedule _ s HI0 Hrun) as [HI [HL HM]].
  split; [|split; [|split]].
  - rewrite (Permutation_length (inFlight_running length_tasks fails s HI)).
    pose proof (length_running (Queue.workers s)). lia.
  - rewrite measure_processQueue in HM. lia.
  - apply step_enabled.
  - intros Hfin HC i Hi.
    apply (finished_all_settled length_tasks fails s HI Hfin); [|exact Hi].
    intros E. rewrite E in HL. cbn in HL. lia.
Qed.

(** Three tasks at the concurrency of [handleMagicGenerate] (2), the second
    task rejecting: the schedule runs the queue to the end. *)
Lemma processQueue_bounded_and_complete_witness :
  Queue.run 3 Queue.demoFails Queue.demoSchedule (Queue.processQueue 3 2)
  = Some (Queue.mkState 3 [Queue.Done; Queue.Done] [0; 1; 2]
            [(1, true); (0, false); (2, false)]) /\
  length (Queue.inFlight
            (Queue.mkState 3 [Queue.Done; Queue.Done] [0; 1; 2]
               [(1, true); (0, false); (2, false)])) <= 2 /\
  In (2, false) [(1, true); (0, false); (2, false)].
Proof.
  assert (Hrun : Queue.run 3 Queue.demoFails Queue.demoSchedule
                   (Queue.processQueue 3 2)
                 = Some (Queue.mkState 3 [Queue.Done; Queue.Done] [0; 1; 2]
                           [(1, true); (0, false); (2, false)]))
    by reflexivity.
  destruct (processQueue_bounded_and_complete 3 2 Queue.demoFails
              Queue.demoSchedule _ Hrun) as [H1 [_ [_ H4]]].
  split; [exact Hrun|]. split; [exact H1|].
  apply (H4 eq_refl); lia.
Defined.


(* ------------------------------------------------------------------ *)
(** ** Word wrap *)

Lemma string_app_assoc (a b c : string) :
  ((a ++ b) ++ c)%string = (a ++ (b ++ c))%string.
Proof. induction a as [|x a IH]; cbn; [reflexivity | now rewrite IH]. Qed.

Lemma string_app_nil_r (a : string) : (a ++ "")%string = a.
Proof. induction a as [|x a IH]; cbn; [reflexivity | now rewrite IH]. Qed.

Lemma split_not_nil (sep : ascii) (s : string) : split sep s <> [].
Proof.
  destruct s as [|c s]; cbn; [discriminate|].
  destruct (Ascii.eqb c sep); [discriminate|].
  destruct (split sep s); discriminate.
Qed.

Section WordWrapFacts.
Import Player.
Variable measureText : string -> Q.
Variable maxWidth : Q.

Lemma renderLine_snoc (current : list string) (word : string) :
  renderLine (current ++ [word]) = ((renderLine current ++ word) ++ " ")%string.
Proof.
  induction current as [|w ws IH]; [reflexivity|].
  change (renderLine ((w :: ws) ++ [word]))
    with (w ++ " " ++ renderLine (ws ++ [word]))%string.
  change (renderLine (w :: ws)) with (w ++ " " ++ renderLine ws)%string.
  rewrite IH, !string_app_assoc. reflexivity.
Qed.

Lemma hasWord_snoc (current : list string) (word : string) :
  hasWord (current ++ [word]) = true.
Proof. destruct current; reflexivity. Qed.

(** The loop of the source, which tests [n > 0], and the rule of the
    specification, which tests whether the line already has a word, build
    the same lines. *)
Lemma wrapWords_greedyLoop (words : list string) :
  forall n current committed,
    (0 <? n) = hasWord current ->
    wrapWords measureText maxWidth words n (renderLine current)
      (map renderLine committed)
    = map renderLine (specGreedyLoop measureText maxWidth words current committed).
Proof.
  induction words as [|word words IH]; intros n current committed Hn;
    cbn [wrapWords specGreedyLoop].
  - rewrite map_app. reflexivity.
  - rewrite <- renderLine_snoc, Hn.
    destruct (Qgtb (measureText (renderLine (current ++ [word]))) maxWidth
              && hasWord current).
    + change (word ++ " ")%string with (renderLine [word]).
      change (map renderLine committed ++ [renderLine current])
        with (map renderLine committed ++ map renderLine [current]).
      rewrite <- map_app. apply IH. reflexivity.
    + apply IH. now rewrite hasWord_snoc.
Qed.

Local Abbreviation lineOk := (Player.lineOk measureText maxWidth).

Lemma Qgtb_false (a b : Q) : Qgtb a b = false -> ~ (b < a)%Q.
Proof.
  unfold Qgtb. intros H. apply negb_false_iff, Qle_bool_iff in H.
  now apply Qle_not_lt.
Qed.

Lemma greedyLoop_ok (words : list string) :
  forall current committed,
    Forall lineOk committed ->
    (current = [] \/ lineOk current) ->
    (current = [] -> words <> []) ->
    Forall lineOk (specGreedyLoop measureText maxWidth words current committed).
Proof.
  induction words as [|word words IH]; intros current committed Hc Hcur Hne;
    cbn [specGreedyLoop].
  - apply Forall_app. split; [assumption|]. constructor; [|constructor].
    destruct Hcur as [->|H]; [now elim Hne | exact H].
  - destruct (Qgtb (measureText (renderLine (current ++ [word]))) maxWidth)
      eqn:Ew; cbn [andb].
    + destruct current as [|w ws]; cbn [hasWord app].
      * apply IH; [assumption | | discriminate].
        right. split; [discriminate | eauto].
      * apply IH; [ | | discriminate].
        -- apply Forall_app. split; [assumption|]. constructor; [|constructor].
           destruct Hcur as [H|H]; [discriminate | exact H].
        -- right. split; [discriminate | eauto].
    + apply IH; [assumption | | intros E; now destruct current].
      right. split; [now destruct current|].
      intros Hw. now apply Qgtb_false in Ew.
Qed.

Lemma greedyLoop_concat (words : list string) :
  forall current committed,
    concat (specGreedyLoop measureText maxWidth words current committed)
    = concat committed ++ current ++ words.
Proof.
  induction words as [|word words IH]; intros current committed;
    cbn [specGreedyLoop].
  - rewrite concat_app. cbn. now rewrite !app_nil_r.
  - destruct (Qgtb _ _ && hasWord current); rewrite IH.
    + rewrite concat_app. cbn. now rewrite app_nil_r, <- app_assoc.
    + now rewrite <- app_assoc.
Qed.

End WordWrapFacts.

(** C2.  The subtitle lines of a narration, wrapped at 80% of the canvas
    width, are the lines the greedy rule builds from its words (append the
    word unless that would exceed the maximum and the line already has a
    word; then commit the line and start a new one with the word); the
    lines partition the words in order, so no word is dropped; every line
    has a word; and a line measures more than the maximum only when it is a
    single word. *)
Theorem wordWrap_greedy (measureText : string -> Q) (canvasWidth : Q)
    (text : string) :
  let M := Player.subtitleMaxWidth canvasWidth in
  let words := split " " text in
  let groups := Player.specGreedyWrap measureText M words in
  Player.subtitleLines measureText canvasWidth text
  = map Player.renderLine groups /\
  concat groups = words /\
  Forall (fun g => g <> [] /\
                   (M < measureText (Player.renderLine g) ->
                    exists w, g = [w])%Q) groups.
Proof.
  intros M words groups. subst groups. unfold Player.specGreedyWrap.
  split; [|split].
  - unfold Player.subtitleLines, Player.wordWrap.
    apply (wrapWords_greedyLoop measureText M words 0 [] []). reflexivity.
  - apply greedyLoop_concat.
  - apply (greedyLoop_ok measureText M words [] []).
    + constructor.
    + now left.
    + intros _. apply split_not_nil.
Qed.

(** On a 300 px canvas with 30 px per character (maximum 240): the long
    word gets a line of its own, wider than the maximum, and is kept. *)
Example wordWrap_long_word :
  Player.subtitleLines Player.monoWidth 300 "hello supercalifragilistic a b"
  = ["hello "; "supercalifragilistic "; "a b "].
Proof. reflexivity. Qed.

(* ------------------------------------------------------------------ *)
(** ** The animation loop *)

Lemma Qltb_true (a b : Q) : Qltb a b = true <-> (a < b)%Q.
Proof.
  unfold Qltb. rewrite negb_true_iff. split.
  - intros H. apply Qnot_le_lt. intros Hle. apply Qle_bool_iff in Hle. congruence.
  - intros H. destruct (Qle_bool b a) eqn:E; [|reflexivity].
    apply Qle_bool_iff in E. now apply Qle_not_lt in E.
Qed.

Lemma Qltb_false (a b : Q) : Qltb a b = false <-> (b <= a)%Q.
Proof.
  unfold Qltb. rewrite negb_false_iff. apply Qle_bool_iff.
Qed.

Lemma StronglySorted_firstn {A} (R : A -> A -> Prop) (l : list A) :
  StronglySorted R l -> forall n, StronglySorted R (firstn n l).
Proof.
  induction 1 as [|a l Hl IH Ha]; intros [|n]; cbn; try constructor.
  - apply IH.
  - rewrite Forall_forall in *. intros x Hx. apply Ha.
    rewrite <- (firstn_skipn n l). apply in_or_app. now left.
Qed.

Lemma StronglySorted_app_l {A} (R : A -> A -> Prop) (l l' : list A) :
  StronglySorted R (l ++ l') -> StronglySorted R l.
Proof.
  induction l as [|a l IH]; cbn; intros H; [constructor|].
  apply StronglySorted_inv in H. destruct H as [H1 H2].
  constructor; [auto|]. apply Forall_app in H2. tauto.
Qed.

Lemma progress_range (t : Z) (d : Q) :
  (0 <= t)%Z -> (inject_Z t < d)%Q -> (0 <= inject_Z t / d /\ inject_Z t / d < 1)%Q.
Proof.
  intros Ht Hlt.
  assert (H0 : (inject_Z 0 <= inject_Z t)%Q) by (rewrite <- Zle_Qle; exact Ht).
  change (inject_Z 0) with 0%Q in H0.
  assert (Hd : (0 < d)%Q) by (eapply Qle_lt_trans; eassumption).
  split.
  - apply Qle_shift_div_l; [assumption|]. now rewrite Qmult_0_l.
  - apply Qlt_shift_div_r; [assumption|]. now rewrite Qmult_1_l.
Qed.

Lemma progress_mono (t1 t2 : Z) (d : Q) :
  (0 < d)%Q -> (t1 <= t2)%Z -> (inject_Z t1 / d <= inject_Z t2 / d)%Q.
Proof.
  intros Hd Ht. unfold Qdiv. apply Qmult_le_compat_r.
  - rewrite <- Zle_Qle. exact Ht.
  - apply Qinv_le_0_compat. now apply Qlt_le_weak.
Qed.

Lemma zoomScale_range (p : Q) :
  (0 <= p < 1)%Q -> (1 <= Player.zoomScale p /\ Player.zoomScale p < 1.15)%Q.
Proof. unfold Player.zoomScale. intros [H0 H1]. split; lra. Qed.

Lemma zoomScale_mono (p q : Q) :
  (p <= q)%Q -> (Player.zoomScale p <= Player.zoomScale q)%Q.
Proof. unfold Player.zoomScale. intros H. lra. Qed.

Lemma zoomScale_approaches (eps : Q) :
  (0 < eps)%Q ->
  exists p, (0 <= p < 1)%Q /\ (1.15 - eps < Player.zoomScale p)%Q.
Proof.
  intros He. destruct (Qlt_le_dec eps 0.3) as [H|H].
  - exists (1 - eps * (10 # 3))%Q. unfold Player.zoomScale. split; [split|]; lra.
  - exists 0%Q. unfold Player.zoomScale. split; [split|]; lra.
Qed.

Section LoopFacts.
Import Player.
Variable measureText : string -> Q.
Variable canvasWidth canvasHeight : Q.
Variable subtitleStyle : SubtitleStyle.
Variable showSubtitles : bool.
Variable img : option Img.
Variable text : string.
Variable durationMs : Q.

Local Abbreviation loop :=
  (animationLoop measureText canvasWidth canvasHeight subtitleStyle
     showSubtitles img text durationMs).

Local Abbreviation frameOk := (Player.frameOk durationMs).

(** Frames are rendered at [loopTime] values below [durationMs]; the loop
    exits at the first reading that is not; and the [loopTime] values are
    the initial one and the readings, in order. *)
Lemma animationLoop_frames (ticks : list Z) :
  forall t c frames exitTime c',
    loop ticks t c = Some (LoopDone frames exitTime c') ->
    Forall frameOk frames /\
    (durationMs <= inject_Z exitTime)%Q /\
    map loopTime frames ++ [exitTime] = t :: firstn (length frames) ticks.
Proof.
  induction ticks as [|t' ticks IH]; intros t c frames exitTime c' H;
    cbn [animationLoop] in H;
    destruct (Qltb (inject_Z t) durationMs) eqn:Et.
  - destruct (renderFrame _ _ _ _ _ _ _ _ _) as [e|[d c1]]; discriminate.
  - injection H as <- <- <-. apply Qltb_false in Et.
    split; [constructor | split; [exact Et | reflexivity]].
  - destruct (renderFrame _ _ _ _ _ _ _ _ _) as [e|[d c1]]; [discriminate|].
    destruct (loop ticks t' c1) as [[fs ex c2|e]|] eqn:Erec; try discriminate.
    injection H as <- <- <-.
    destruct (IH t' c1 fs ex c2 Erec) as [HF [Hex Hmap]].
    split; [|split].
    + constructor; [|exact HF]. unfold frameOk. cbn [loopTime progress scale].
      apply Qltb_true in Et. auto.
    + exact Hex.
    + cbn [map length firstn app loopTime]. now rewrite Hmap.
  - injection H as <- <- <-. apply Qltb_false in Et.
    split; [constructor | split; [exact Et | reflexivity]].
Qed.

(** When no frame throws and some reading reaches [durationMs], the loop
    returns. *)
Lemma animationLoop_returns (ticks : list Z) :
  img <> Some ImgBroken ->
  forall t c,
    Exists (fun r => (durationMs <= inject_Z r)%Q) ticks ->
    exists frames exitTime c', loop ticks t c = Some (LoopDone frames exitTime c').
Proof.
  intros Himg. induction ticks as [|t' ticks IH]; intros t c Hex.
  - inversion Hex.
  - cbn [animationLoop]. destruct (Qltb (inject_Z t) durationMs) eqn:Et;
      [|eauto].
    assert (Hr : exists d c1,
               renderFrame measureText canvasWidth canvasHeight subtitleStyle
                 showSubtitles img text (inject_Z t / durationMs)%Q c
               = inr (d, c1)).
    { unfold renderFrame, drawImage.
      destruct img as [[iw ih|]|]; [| congruence |].
      - destruct (Qgtb _ _); destruct (drawSubtitles _ _ _ _ _ _ _); eauto.
      - destruct (drawSubtitles _ _ _ _ _ _ _); eauto. }
    destruct Hr as [d [c1 ->]].
    destruct (Qlt_le_dec (inject_Z t') durationMs) as [Hlt|Hge].
    + inversion Hex as [? ? Hhd|? ? Htl]; subst.
      * exfalso. now apply Qle_not_lt in Hhd.
      * destruct (IH t' c1 Htl) as [fs [ex [c2 ->]]]. eauto.
    + destruct ticks as [|t'' ticks'];
        cbn [animationLoop]; apply Qltb_false in Hge; rewrite Hge; eauto.
Qed.

Lemma frames_sorted (frames : list Frame) :
  (0 < durationMs)%Q ->
  Forall frameOk frames ->
  StronglySorted Z.le (map loopTime frames) ->
  StronglySorted (fun a b => (scale a <= scale b)%Q) frames.
Proof.
  intros Hd. induction frames as [|f fs IH]; intros HF HS; [constructor|].
  inversion HF as [|? ? Hf HFs]; subst.
  cbn [map] in HS. apply StronglySorted_inv in HS. destruct HS as [HS Hle].
  constructor; [auto|].
  rewrite Forall_forall in *. intros g Hg.
  destruct Hf as [_ [Hp ->]]. destruct (HFs g Hg) as [_ [Hq ->]].
  rewrite Hp, Hq. apply zoomScale_mono, progress_mono; [assumption|].
  apply Hle. now apply in_map.
Qed.

End LoopFacts.

(** [loopTime] is [Date.now() - startTime], a wall-clock difference. When
    the clock is set back during a scene (readings 1000 then 500 ms), the
    frame that follows is drawn at a smaller scale than the one before:
    73/70, then 143/140. *)
Lemma zoom_shrinks_when_clock_steps_back :
  exists f0 f1 f2 c',
    Player.animationLoop Player.monoWidth 1920 1080 MODERN false
      (Some (Player.ImgLoaded 1024 1024)) "Hello world" 3500
      [1000; 500; 4000]%Z 0 Player.freshCtx
    = Some (Player.LoopDone [f0; f1; f2] 4000 c') /\
    (Player.scale f1 == 73 # 70)%Q /\
    (Player.scale f2 == 143 # 140)%Q /\
    (Player.scale f2 < Player.scale f1)%Q /\
    ~ StronglySorted (fun a b => (Player.scale a <= Player.scale b)%Q)
        [f0; f1; f2].
Proof.
  do 4 eexists. split; [vm_compute; reflexivity|].
  cbn [Player.scale].
  split; [reflexivity|]. split; [reflexivity|]. split; [reflexivity|].
  intros H. apply StronglySorted_inv in H. destruct H as [H _].
  apply StronglySorted_inv in H. destruct H as [_ H].
  apply Forall_inv in H. cbn [Player.scale] in H.
  revert H. vm_compute. intros H. now apply H.
Qed.

(** C3, as the code has it.  On a clock that does not run backwards,
    every frame of a scene is drawn at scale [1.0 + 0.15 * progress] with
    [progress = loopTime / durationMs] in [[0, 1)], hence at a scale in
    [[1, 1.15)]; the first frame is drawn at [loopTime = 0] and scale
    exactly 1; the scales never decrease from one frame to the next; and
    the scale comes arbitrarily close to 1.15 as [progress] nears 1. *)
Theorem kenBurns_zoom (measureText : string -> Q) (canvasWidth canvasHeight : Q)
    (subtitleStyle : SubtitleStyle) (showSubtitles : bool)
    (img : option Player.Img) (text : string) (durationMs : Q)
    (ticks : list Z) (c c' : Player.Ctx2D) (frames : list Player.Frame)
    (exitTime : Z) :
  (0 < durationMs)%Q ->
  StronglySorted Z.le (0%Z :: ticks) ->
  Player.animationLoop measureText canvasWidth canvasHeight subtitleStyle
    showSubtitles img text durationMs ticks 0 c
  = Some (Player.LoopDone frames exitTime c') ->
  Forall (fun f =>
            Player.scale f = (1.0 + 0.15 * Player.progress f)%Q /\
            Player.progress f = (inject_Z (Player.loopTime f) / durationMs)%Q /\
            (0 <= Player.progress f < 1)%Q /\
            (1 <= Player.scale f < 1.15)%Q) frames /\
  (exists f rest, frames = f :: rest /\ Player.loopTime f = 0%Z /\
                  (Player.progress f == 0)%Q /\ (Player.scale f == 1)%Q) /\
  StronglySorted (fun a b => (Player.scale a <= Player.scale b)%Q) frames /\
  (forall eps, (0 < eps)%Q ->
     exists p, (0 <= p < 1)%Q /\ (1.15 - eps < Player.zoomScale p)%Q).
Proof.
  intros Hd Hsorted Hloop.
  destruct (animationLoop_frames _ _ _ _ _ _ _ _ ticks 0%Z c frames exitTime c' Hloop)
    as [HF [Hexit Hmap]].
  assert (Htimes : StronglySorted Z.le (map Player.loopTime frames)).
  { apply StronglySorted_app_l with (l' := [exitTime]). rewrite Hmap.
    change (0%Z :: firstn (length frames) ticks)
      with (firstn (S (length frames)) (0%Z :: ticks)).
    now apply StronglySorted_firstn. }
  assert (Hnonneg : Forall (fun f => (0 <= Player.loopTime f)%Z) frames).
  { destruct frames as [|f fs]; [constructor|].
    cbn [map app] in Hmap. injection Hmap as Hf _.
    cbn [map] in Htimes. apply StronglySorted_inv in Htimes.
    destruct Htimes as [_ Hle]. constructor; [lia|].
    rewrite Forall_forall in *. intros g Hg.
    rewrite <- Hf. apply Hle. now apply in_map. }
  split; [|split; [|split]].
  - rewrite Forall_forall in *. intros f Hf.
    destruct (HF f Hf) as [Hlt [Hp Hs]].
    pose proof (progress_range _ _ (Hnonneg f Hf) Hlt) as Hr.
    rewrite <- Hp in Hr.
    split; [exact Hs | split; [exact Hp | split; [exact Hr|]]].
    rewrite Hs. now apply zoomScale_range.
  - destruct frames as [|f fs].
    + cbn in Hmap. injection Hmap as ->. exfalso.
      now apply Qle_not_lt in Hexit.
    + cbn [map app] in Hmap. injection Hmap as Hf _.
      inversion HF as [|? ? [_ [Hp Hs]] _]; subst.
      exists f, fs. split; [reflexivity | split; [exact Hf|]].
      assert (Hp0 : (Player.progress f == 0)%Q).
      { rewrite Hp, Hf. unfold Qdiv. apply Qmult_0_l. }
      split; [exact Hp0|]. rewrite Hs. unfold Player.zoomScale.
      rewrite Hp0. reflexivity.
  - eapply frames_sorted; eassumption.
  - apply zoomScale_approaches.
Qed.

(** A 3.5 s scene on a clock read once a second. *)
Lemma kenBurns_zoom_witness :
  exists frames c',
    Player.animationLoop Player.monoWidth 1920 1080 MODERN false None
      "Hello world" 3500 [1000; 2000; 3000; 4000]%Z 0 Player.freshCtx
    = Some (Player.LoopDone frames 4000 c') /\
    StronglySorted (fun a b => (Player.scale a <= Player.scale b)%Q) frames.
Proof.
  eexists. eexists. split; [reflexivity|].
  eapply (kenBurns_zoom Player.monoWidth 1920 1080 MODERN false None
            "Hello world" 3500 [1000; 2000; 3000; 4000]%Z).
  - reflexivity.
  - repeat constructor; lia.
  - reflexivity.
Defined.

(* ------------------------------------------------------------------ *)
(** ** Scene duration *)

Lemma decodeSceneAudio_some (fetchAudio : string -> option Q) (scene : Scene)
    (url : string) :
  audioUrl scene = Some url -> url <> "" ->
  Player.decodeSceneAudio fetchAudio scene = fetchAudio url.
Proof.
  intros Hu Hne. unfold Player.decodeSceneAudio. rewrite Hu.
  destruct url; [congruence | reflexivity].
Qed.

Lemma decodeSceneAudio_none (fetchAudio : string -> option Q) (scene : Scene) :
  audioUrl scene = None -> Player.decodeSceneAudio fetchAudio scene = None.
Proof. intros Hu. unfold Player.decodeSceneAudio. now rewrite Hu. Qed.

(** The nominal duration is positive whenever the decoded clip has a
    duration that is not negative. *)
Lemma nominalDurationMs_positive (decoded : option Q) :
  match decoded with
  | Some seconds => (0 <= seconds)%Q
  | None => True
  end ->
  (0 < Player.nominalDurationMs decoded)%Q.
Proof.
  unfold Player.nominalDurationMs, Player.defaultDurationMs, Player.graceMs.
  destruct decoded as [seconds|]; intros H; lra.
Qed.

(** On a 34 ms clock the loop of a scene without audio (nominal 3500 ms)
    is left at 3502 ms: the loop does not run for exactly the nominal
    duration. *)
Lemma loop_overshoots_nominal_duration :
  exists frames c',
    Player.animationLoop Player.monoWidth 1920 1080 MODERN false None
      "Hello world"
      (Player.sceneDurationMs Player.demoFetchAudio Player.sceneNoAudio)
      (Player.clock34 103) 0 Player.freshCtx
    = Some (Player.LoopDone frames 3502 c') /\
    ~ (inject_Z 3502
       == Player.sceneDurationMs Player.demoFetchAudio Player.sceneNoAudio)%Q.
Proof.
  eexists. eexists. split.
  - vm_compute. reflexivity.
  - vm_compute. discriminate.
Qed.

(** C1, as the code has it.  A scene whose audio reference fetches and decodes has
    the nominal duration [audioBuffer.duration * 1000 + 500]; a scene
    without audio reference has [3000 + 500]. The animation loop is driven
    by that value through wall-clock readings: every frame is rendered at a
    [loopTime] below it, the loop is left at the first reading that is not
    below it (so after at least the nominal duration), and it is left as
    soon as some reading reaches it. *)
Theorem scene_duration_drives_loop (fetchAudio : string -> option Q)
    (scene : Scene) :
  (forall url seconds,
     audioUrl scene = Some url -> url <> "" -> fetchAudio url = Some seconds ->
     (Player.sceneDurationMs fetchAudio scene == seconds * 1000 + 500)%Q) /\
  (audioUrl scene = None ->
     (Player.sceneDurationMs fetchAudio scene == 3000 + 500)%Q) /\
  (forall measureText canvasWidth canvasHeight subtitleStyle showSubtitles
          img ticks c,
     let durationMs := Player.sceneDurationMs fetchAudio scene in
     let loop :=
       Player.animationLoop measureText canvasWidth canvasHeight subtitleStyle
         showSubtitles img (narration scene) durationMs ticks 0 c in
     (forall frames exitTime c',
        loop = Some (Player.LoopDone frames exitTime c') ->
        Forall (fun f => (inject_Z (Player.loopTime f) < durationMs)%Q) frames /\
        (durationMs <= inject_Z exitTime)%Q /\
        map Player.loopTime frames ++ [exitTime]
        = 0%Z :: firstn (length frames) ticks) /\
     (img <> Some Player.ImgBroken ->
      Exists (fun r => (durationMs <= inject_Z r)%Q) ticks ->
      exists frames exitTime c',
        loop = Some (Player.LoopDone frames exitTime c'))).
Proof.
  split; [|split].
  - intros url seconds Hu Hne Hf. unfold Player.sceneDurationMs.
    rewrite (decodeSceneAudio_some _ _ _ Hu Hne), Hf. reflexivity.
  - intros Hu. unfold Player.sceneDurationMs.
    rewrite (decodeSceneAudio_none _ _ Hu). reflexivity.
  - intros measureText canvasWidth canvasHeight subtitleStyle showSubtitles
      img ticks c durationMs loop. split.
    + intros frames exitTime c' Hloop.
      destruct (animationLoop_frames _ _ _ _ _ _ _ _ ticks 0%Z c frames
                  exitTime c' Hloop) as [HF [Hexit Hmap]].
      split; [|split; assumption].
      eapply Forall_impl; [|exact HF]. intros f [Hlt _]. exact Hlt.
    + intros Himg Hex. now apply animationLoop_returns.
Qed.

(** The scene with a 2 s clip lasts 2500 ms nominally and, read once a
    second, is left at 3000 ms. *)
Lemma scene_duration_drives_loop_witness :
  (Player.sceneDurationMs Player.demoFetchAudio Player.sceneWithAudio
   == 2 * 1000 + 500)%Q /\
  exists frames exitTime c',
    Player.animationLoop Player.monoWidth 1920 1080 MODERN true None
      "Hello world"
      (Player.sceneDurationMs Player.demoFetchAudio Player.sceneWithAudio)
      [1000; 2000; 3000]%Z 0 Player.freshCtx
    = Some (Player.LoopDone frames exitTime c').
Proof.
  destruct (scene_duration_drives_loop Player.demoFetchAudio
              Player.sceneWithAudio) as [Ha [_ Hl]].
  split.
  - apply (Ha "blob:a1" 2%Q); [reflexivity | discriminate | reflexivity].
  - destruct (Hl Player.monoWidth 1920%Q 1080%Q MODERN true None
                [1000; 2000; 3000]%Z Player.freshCtx) as [_ Hr].
    apply Hr; [discriminate|].
    apply Exists_cons_tl, Exists_cons_tl, Exists_cons_hd.
    vm_compute. discriminate.
Defined.

(* ------------------------------------------------------------------ *)
(** ** Subtitle styles *)

Section SubtitleFacts.
Import Player.
Variable measureText : string -> Q.
Variable subtitleStyle : SubtitleStyle.

Lemma setFillStyle_same (v : string) (c base : Ctx2D) :
  setFillStyle "" c = setFillStyle "" base ->
  setFillStyle v c = setFillStyle v base.
Proof.
  destruct c, base. unfold setFillStyle. cbn. intros H.
  injection H as -> -> -> -> -> -> ->. reflexivity.
Qed.

(** One line, drawn under any context that differs from [base] in the
    fill style only. *)
Lemma drawLine_lineDrawing (x lineY : Q) (line : string) (c base : Ctx2D) :
  setFillStyle "" c = setFillStyle "" base ->
  fst (drawLine measureText subtitleStyle x lineY line c)
  = lineDrawing measureText subtitleStyle base x lineY line /\
  setFillStyle "" (snd (drawLine measureText subtitleStyle x lineY line c))
  = setFillStyle "" base.
Proof.
  intros H. unfold drawLine, lineDrawing.
  destruct subtitleStyle; cbn [isModern isClassic fst snd app];
    rewrite ?(setFillStyle_same _ c base H); split; try reflexivity;
    destruct c, base; unfold setFillStyle in *; cbn in *; congruence.
Qed.

Lemma drawLines_lineDrawing (x y : Q) (total : nat) (base : Ctx2D)
    (lines : list string) :
  forall i c,
    setFillStyle "" c = setFillStyle "" base ->
    fst (drawLines measureText subtitleStyle x y total i lines c)
    = flat_map
        (fun il =>
           lineDrawing measureText subtitleStyle base x
             (y - inject_Z (Z.of_nat (total - 1 - fst il)) * 60)%Q (snd il))
        (combine (seq i (length lines)) lines).
Proof.
  induction lines as [|line lines IH]; intros i c H; [reflexivity|].
  cbn [drawLines length seq combine flat_map fst snd].
  destruct (drawLine_lineDrawing x
              (y - inject_Z (Z.of_nat (total - 1 - i)) * 60)%Q line c base H)
    as [H1 H2].
  destruct (drawLine measureText subtitleStyle x _ line c) as [d1 c1].
  cbn [fst snd] in H1, H2.
  specialize (IH (S i) c1 H2).
  destruct (drawLines measureText subtitleStyle x y total (S i) lines c1)
    as [d2 c2].
  cbn [fst] in *. now rewrite H1, IH.
Qed.

End SubtitleFacts.

(** In the export, the Modern box is a plain [fillRect] (no rounded shape
    is ever drawn), and the Karaoke and Minimal styles draw no box at
    all. *)
Lemma modern_box_is_plain_rectangle :
  let c := Player.subtitleCtx Player.freshCtx in
  fst (Player.drawLine Player.monoWidth MODERN 960 980 "Hi " c)
  = [Player.FillRect (Player.setFillStyle "rgba(0,0,0,0.6)" c)
       (960 - 90 / 2 - 10) (980 - 48) (90 + 20) 60;
     Player.FillText (Player.setFillStyle "#ffffff" c) "Hi " 960 980] /\
  fst (Player.drawLine Player.monoWidth KARAOKE 960 980 "Hi " c)
  = [Player.FillText (Player.setFillStyle "#ffffff" c) "Hi " 960 980] /\
  fst (Player.drawLine Player.monoWidth MINIMAL 960 980 "Hi " c)
  = [Player.FillText (Player.setFillStyle "#ffffff" c) "Hi " 960 980] /\
  ~ (forall style, style <> CLASSIC ->
       exists cb x y w h r,
         In (Player.FillRoundRect cb x y w h r)
            (fst (Player.drawLine Player.monoWidth style 960 980 "Hi " c))).
Proof.
  cbv zeta. split; [reflexivity | split; [reflexivity | split; [reflexivity|]]].
  intros H. destruct (H MODERN ltac:(discriminate)) as (cb & x & y & w & h & r & Hin).
  cbn in Hin. destruct Hin as [Hin|[Hin|[]]]; discriminate.
Qed.

(** C8, as the code has it.  When subtitles are shown and the narration is not
    empty, what the export draws for the subtitles is, line by line from
    the top, with line [i] of [n] at [y = height - 100 - (n - 1 - i) * 60]:
    for Modern a filled rectangle in [rgba(0,0,0,0.6)], [textWidth + 20]
    wide and 60 high, and then the text in white; for Classic the text in
    gold ([#FFD700]) and no box; for Karaoke and Minimal the text in white
    and no box. Every one of these drawings is made under the drop shadow
    [rgba(0,0,0,0.8)], blur 4, offset 2/2. *)
Theorem subtitle_style_drawing (measureText : string -> Q)
    (canvasWidth canvasHeight : Q) (subtitleStyle : SubtitleStyle)
    (text : string) (c : Player.Ctx2D) :
  text <> "" ->
  let lines := Player.subtitleLines measureText canvasWidth text in
  let base := Player.subtitleCtx c in
  let drawing :=
    fst (Player.drawSubtitles measureText canvasWidth canvasHeight
           subtitleStyle true text c) in
  drawing
  = flat_map
      (fun il =>
         Player.lineDrawing measureText subtitleStyle base (canvasWidth / 2)
           (canvasHeight - 100
            - inject_Z (Z.of_nat (length lines - 1 - fst il)) * 60)%Q (snd il))
      (combine (seq 0 (length lines)) lines) /\
  Forall (fun d => exists cd, Player.drawnCtx d = Some cd /\
                              Player.hasDropShadow cd) drawing.
Proof.
  intros Hne lines base drawing.
  assert (Heq : drawing
    = flat_map
      (fun il =>
         Player.lineDrawing measureText subtitleStyle base (canvasWidth / 2)
           (canvasHeight - 100
            - inject_Z (Z.of_nat (length lines - 1 - fst il)) * 60)%Q (snd il))
      (combine (seq 0 (length lines)) lines)).
  { subst drawing. unfold Player.drawSubtitles.
    replace (String.eqb text "") with false
      by (symmetry; now apply String.eqb_neq).
    cbn [andb negb].
    pose proof (drawLines_lineDrawing measureText subtitleStyle
                  (canvasWidth / 2) (canvasHeight - 100)
                  (length lines) base lines 0 base eq_refl) as H.
    fold (Player.subtitleLines measureText canvasWidth text). fold lines.
    fold base.
    destruct (Player.drawLines measureText subtitleStyle (canvasWidth / 2)
                (canvasHeight - 100) (length lines) 0 lines base) as [d c2].
    exact H. }
  split; [exact Heq|]. rewrite Heq.
  apply Forall_flat_map. apply Forall_forall. intros [i line] _.
  unfold Player.lineDrawing.
  destruct subtitleStyle; repeat constructor;
    eexists; (split; [reflexivity | repeat split]).
Qed.

(** "Hello world" in the Classic style on the 1920 x 1080 canvas. *)
Lemma subtitle_style_drawing_witness :
  fst (Player.drawSubtitles Player.monoWidth 1920 1080 CLASSIC true
         "Hello world" Player.freshCtx)
  = [Player.FillText
       (Player.setFillStyle "#FFD700" (Player.subtitleCtx Player.freshCtx))
       "Hello world " (1920 / 2) (1080 - 100 - inject_Z 0 * 60)].
Proof.
  destruct (subtitle_style_drawing Player.monoWidth 1920 1080 CLASSIC
              "Hello world" Player.freshCtx ltac:(discriminate)) as [H _].
  exact H.
Defined.

(* ------------------------------------------------------------------ *)
(** ** The export as a whole *)

(** Evaluates the world updates innermost first, and nothing else. *)
Ltac simpl_world :=
  cbv beta iota delta
    [Player.isPlaying Player.isExporting Player.isZipping
     Player.documentTitle Player.console Player.alerts Player.downloads
     Player.openAudioContexts Player.loopingSources Player.activeRecorders
     Player.exportFinally Player.exportCatch Player.download Player.alert
     Player.closeAudioContext Player.stopRecorder Player.stopMusic
     Player.startRecorder Player.startMusic Player.openAudioContext
     Player.setResources Player.log Player.setDocumentTitle
     Player.setIsPlaying Player.setIsExporting Player.setIsZipping
     Player.applyEffect pred].

Section ExportFacts.
Import Player.
Variable env : Env.
Variable props : Props.





End ExportFacts.

(** C10.  With an empty scene list, starting an export and downloading
    the assets both return at once and leave the world as it was: no
    state changed, nothing logged, no resource acquired, no recorder
    started, no file produced. *)
Theorem empty_scene_list_is_noop (env : Player.Env) (props : Player.Props)
    (w : Player.World) :
  Player.scenes props = [] ->
  Player.handleExportVideo env props w = Some w /\
  Player.handleDownloadZip env props w = w.
Proof.
  intros H. unfold Player.handleExportVideo, Player.exportBegin,
    Player.handleDownloadZip. rewrite H. split; reflexivity.
Qed.

Lemma empty_scene_list_is_noop_witness :
  let props := Player.mkProps [] (Some "music.mp3") Player.Ratio16x9 (1 # 2)
                 MODERN true in
  Player.handleExportVideo Player.demoEnv props (Player.initialWorld "App")
  = Some (Player.initialWorld "App") /\
  Player.handleDownloadZip Player.demoEnv props (Player.initialWorld "App")
  = Player.initialWorld "App".
Proof.
  exact (empty_scene_list_is_noop Player.demoEnv
           (Player.mkProps [] (Some "music.mp3") Player.Ratio16x9 (1 # 2)
              MODERN true)
           (Player.initialWorld "App") eq_refl).
Defined.




(* ------------------------------------------------------------------ *)
(** ** Failure of the export *)

(** When the recorder cannot be constructed, the failure is logged and
    alerted, nothing is downloaded and the busy flag and the title are
    reset; but the audio context opened before stays open, and the music
    source started before keeps looping. *)
Lemma recorder_failure_outcome (env : Player.Env) (props : Player.Props)
    (w : Player.World) :
  Player.scenes props <> [] ->
  Player.canvasMounted env = true ->
  Player.context2d env = true ->
  Player.mediaRecorderSupported env = false ->
  exists w',
    Player.handleExportVideo env props w = Some w' /\
    Player.downloads w' = Player.downloads w /\
    Player.alerts w' = Player.alerts w ++
      ["Erro ao exportar vídeo. Tente a opção 'Baixar Assets' se o problema persistir."] /\
    Player.isExporting w' = false /\
    Player.documentTitle w' = Player.documentTitle w /\
    Player.openAudioContexts w' = S (Player.openAudioContexts w) /\
    Player.loopingSources w'
    = match Player.decodeMusic env props with
      | Some _ => S (Player.loopingSources w)
      | None => Player.loopingSources w
      end.
Proof.
  intros Hne Hcanvas Hctx Hrec.
  unfold Player.handleExportVideo, Player.exportBegin, Player.exportBody.
  assert (Hlen : (length (Player.scenes props) =? 0) = false)
    by (destruct (Player.scenes props); [congruence | reflexivity]).
  rewrite Hlen, Hcanvas, Hctx, Hrec. cbn [negb].
  eexists. split; [reflexivity|].
  destruct (Player.decodeMusic env props); simpl_world; auto 10.
Qed.

(** C6, at its failing input: three scenes, a music track that loads, and
    a browser that cannot construct the recorder. The export is aborted
    and reported and produces no file, but one audio context is left open
    and one looping music source is left playing; the same export with a
    working recorder releases both. *)
Theorem export_failure_leaks_audio_graph :
  Player.handleExportVideo (Player.musicEnv false) Player.demoProps
    (Player.initialWorld "App")
  = Some (Player.mkWorld false false false "App"
            [Player.ConsoleError "Export failed"]
            ["Erro ao exportar vídeo. Tente a opção 'Baixar Assets' se o problema persistir."]
            [] 1 1 0) /\
  (exists w',
     Player.handleExportVideo (Player.musicEnv true) Player.demoProps
       (Player.initialWorld "App") = Some w' /\
     length (Player.downloads w') = 1 /\
     Player.openAudioContexts w' = 0 /\
     Player.loopingSources w' = 0 /\
     Player.activeRecorders w' = 0).
Proof.
  split; [vm_compute; reflexivity|].
  eexists. split; [vm_compute; reflexivity|]. cbn. auto.
Qed.

(* ------------------------------------------------------------------ *)
(** ** Re-entrancy *)

Section UiFacts.
Import Player.

Lemma isExporting_applyEffect (e : BodyEffect) (w : World) :
  isExporting (applyEffect e w) = isExporting w.
Proof. destruct e; reflexivity. Qed.

Lemma isExporting_exportBegin (props : Props) (w w1 : World) :
  exportBegin props w = Some w1 -> isExporting w1 = true.
Proof.
  unfold exportBegin. destruct (length (scenes props) =? 0); [discriminate|].
  intros H. injection H as <-. reflexivity.
Qed.

Lemma busyFlagCounts_Commit (u : Ui) :
  busyFlagCounts u -> busyFlagCounts (uiStep u Commit).
Proof. exact (fun H => H). Qed.

Lemma busyFlagCounts_click (u : Ui) :
  busyFlagCounts u -> busyFlagCounts (uiRun u [Commit; ClickExport]).
Proof.
  unfold busyFlagCounts, uiRun. cbn [fold_left uiStep exportDisabled uiWorld
    uiProps exportsInFlight].
  intros H. unfold exportButtonDisabled.
  destruct (isExporting (uiWorld u)) eqn:Eb; cbn [orb];
    [cbn [uiWorld exportsInFlight]; now rewrite Eb|].
  destruct (length (scenes (uiProps u)) =? 0);
    [cbn [uiWorld exportsInFlight]; now rewrite Eb|].
  destruct (exportBegin (uiProps u) (uiWorld u)) as [w1|] eqn:Ebegin;
    cbn [exportsInFlight uiWorld length]; [|now rewrite Eb].
  rewrite (isExporting_exportBegin _ _ _ Ebegin), H. reflexivity.
Qed.

Lemma busyFlagCounts_other (u : Ui) (e : UiEvent) :
  e <> ClickExport -> busyFlagCounts u -> busyFlagCounts (uiStep u e).
Proof.
  unfold busyFlagCounts. intros He H. destruct e as [| |eff|k threw|p];
    cbn [uiStep]; [congruence | exact H | | | exact H].
  - destruct (exportsInFlight u) eqn:Ei; [now rewrite Ei|].
    cbn [exportsInFlight uiWorld]. now rewrite isExporting_applyEffect.
  - destruct (nth_error (exportsInFlight u) k) as [title|] eqn:Ek; [|exact H].
    cbn [exportsInFlight uiWorld].
    destruct (exportsInFlight u) as [|t [|t' l]]; destruct k as [|[|k]];
      cbn in Ek; try discriminate;
      destruct (isExporting (uiWorld u)); cbn in H; try discriminate;
      destruct threw; reflexivity.
Qed.

Lemma busyFlagCounts_run (events : list UiEvent) :
  forall u, busyFlagCounts u ->
            busyFlagCounts (uiRun u (renderedBeforeClicks events)).
Proof.
  unfold uiRun, renderedBeforeClicks.
  induction events as [|e events IH]; intros u H; [exact H|].
  cbn [flat_map]. rewrite fold_left_app. apply IH.
  destruct e as [| |eff|k threw|p];
    [now apply busyFlagCounts_click | | | |];
    cbn [fold_left]; apply busyFlagCounts_other; (discriminate || exact H).
Qed.

(** The handler itself does not test the busy flag: the guard is the
    [disabled] attribute of the button. *)
Remark exportBegin_ignores_busy_flag (props : Props) (w : World) :
  exportBegin props (setIsExporting true w)
  = exportBegin props w.
Proof.
  unfold exportBegin. destruct (length (scenes props) =? 0); reflexivity.
Qed.

End UiFacts.

(** [handleExportVideo] does not test [isExporting]. A second click that
    arrives before the render of the first one is committed finds the
    button still enabled and starts a second export while the first is in
    flight and the busy flag set; and the handler, called with the flag
    set, runs the export to its download. *)
Lemma export_started_while_busy :
  Player.isExporting
    (Player.uiWorld
       (Player.uiRun (Player.initialUi Player.demoProps "App")
          [Player.ClickExport])) = true /\
  length (Player.exportsInFlight
            (Player.uiRun (Player.initialUi Player.demoProps "App")
               [Player.ClickExport])) = 1 /\
  length (Player.exportsInFlight
            (Player.uiRun (Player.initialUi Player.demoProps "App")
               [Player.ClickExport; Player.ClickExport])) = 2 /\
  exists w',
    Player.handleExportVideo Player.demoEnv Player.demoProps
      (Player.uiWorld
         (Player.uiRun (Player.initialUi Player.demoProps "App")
            [Player.ClickExport])) = Some w' /\
    length (Player.downloads w') = 1.
Proof.
  split; [reflexivity|]. split; [reflexivity|]. split; [reflexivity|].
  eexists. split; [vm_compute; reflexivity|]. reflexivity.
Qed.

(** C5, as the code has it.  The guard against re-entrancy is the export
    button, rendered [disabled] while the busy flag is set. With every
    pending render committed before a click is delivered, whatever the
    user, the parent component and the exports in flight do from mount
    on: at most one export is in flight, the busy flag is set exactly
    while one is, and a click while the flag is set changes nothing. *)
Theorem export_button_guards_reentrancy (props : Player.Props)
    (title : string) (events : list Player.UiEvent) :
  let u := Player.uiRun (Player.initialUi props title)
             (Player.renderedBeforeClicks events) in
  length (Player.exportsInFlight u) <= 1 /\
  (Player.isExporting (Player.uiWorld u) = true <->
   length (Player.exportsInFlight u) = 1) /\
  (Player.isExporting (Player.uiWorld u) = true ->
   Player.uiRun u (Player.renderedBeforeClicks [Player.ClickExport])
   = Player.uiStep u Player.Commit).
Proof.
  intros u.
  assert (H : Player.busyFlagCounts u).
  { apply busyFlagCounts_run. reflexivity. }
  unfold Player.busyFlagCounts in H.
  split; [|split].
  - destruct (Player.isExporting (Player.uiWorld u)); lia.
  - destruct (Player.isExporting (Player.uiWorld u)); split; intros; try lia;
      try reflexivity; discriminate.
  - intros Hb. unfold Player.uiRun, Player.renderedBeforeClicks.
    cbn [flat_map app fold_left].
    cbn [Player.uiStep Player.exportDisabled].
    unfold Player.exportButtonDisabled. now rewrite Hb.
Qed.

(** One click starts one export; once the render is committed, further
    clicks start none until it settles; then the next click starts the
    next. *)
Example clicks_after_render_start_one_export :
  length (Player.exportsInFlight
            (Player.uiRun (Player.initialUi Player.demoProps "App")
               (Player.renderedBeforeClicks
                  [Player.ClickExport; Player.ClickExport]))) = 1 /\
  length (Player.exportsInFlight
            (Player.uiRun (Player.initialUi Player.demoProps "App")
               (Player.renderedBeforeClicks
                  [Player.ClickExport; Player.ClickExport;
                   Player.ExportSettles 0 false; Player.ClickExport]))) = 1.
Proof. split; reflexivity. Qed.

(* ================================================================== *)
(** * Part III.  Further properties of the code                        *)
(* ================================================================== *)

(* ------------------------------------------------------------------ *)
(** ** [retryOperation]: how a call settles, and how long it waits *)

Section RetryMoreFacts.
Import Retry.
Context {T : Type}.
Variable operation : nat -> Outcome T.
Variable random : nat -> Q.
Variable maxRetries : nat.

Lemma retryFrom_settles (remaining : nat) :
  forall i delay,
    1 <= remaining -> i + remaining = maxRetries ->
    exists j,
      i <= j < maxRetries /\
      (forall t, i <= t < j ->
         exists e, operation t = Rejected e /\ isRateLimit e = true) /\
      match operation j with
      | Resolved _ => True
      | Rejected e => isRateLimit e = false \/ j = maxRetries - 1
      end /\
      result (retryFrom operation random maxRetries remaining i delay)
      = operation j /\
      attempts (retryFrom operation random maxRetries remaining i delay) = S j /\
      length (waits (retryFrom operation random maxRetries remaining i delay))
      = j - i.
Proof.
  induction remaining as [|r IH]; intros i delay Hr Hsum; [lia|].
  cbn [retryFrom]. destruct (operation i) as [v|e] eqn:Eop.
  - exists i. rewrite Eop. cbn. repeat split; try lia; try (intros t Ht; lia).
  - destruct (isRateLimit e) eqn:Erl;
      destruct (Nat.eqb_spec i (maxRetries - 1)) as [Elast|Elast];
      cbn [andb negb].
    + exists i. rewrite Eop. cbn. repeat split; try lia; auto;
        try (intros t Ht; lia).
    + destruct (IH (S i) (delay * 1.5)%Q) as [j (Hj & Hbefore & Hat & Hres & Hatt & Hw)];
        try lia.
      exists j. cbn [result attempts waits length].
      repeat split; try lia; auto.
      intros t Ht. destruct (Nat.eq_dec t i) as [->|Hne]; [eauto|].
      apply Hbefore. lia.
    + exists i. rewrite Eop. cbn. repeat split; try lia; auto;
        try (intros t Ht; lia).
    + exists i. rewrite Eop. cbn. repeat split; try lia; auto;
        try (intros t Ht; lia).
Qed.

Lemma Qpower_succ_nat (a : Q) (k : nat) :
  ~ (a == 0)%Q -> (a ^ Z.of_nat (S k) == a * a ^ Z.of_nat k)%Q.
Proof.
  intros Ha. rewrite Nat2Z.inj_succ, <- Z.add_1_l.
  rewrite Qpower_plus by assumption. reflexivity.
Qed.

Lemma retryFrom_wait (remaining : nat) :
  forall i delay k w,
    nth_error (waits (retryFrom operation random maxRetries remaining i delay)) k
    = Some w ->
    (w == delay * 1.5 ^ Z.of_nat k + random (i + k) * 1000)%Q.
Proof.
  induction remaining as [|r IH]; intros i delay k w H; cbn [retryFrom] in H.
  - destruct k; discriminate.
  - destruct (operation i) as [v|e]; [destruct k; discriminate|].
    destruct (isRateLimit e && negb (Nat.eqb i (maxRetries - 1)));
      [|destruct k; discriminate].
    cbn [waits] in H. destruct k as [|k]; cbn [nth_error] in H.
    + injection H as <-. rewrite Nat.add_0_r. cbn [Z.of_nat Qpower]. ring.
    + apply IH in H. rewrite H, Qpower_succ_nat by discriminate.
      replace (S i + k) with (i + S k) by lia. ring.
Qed.

End RetryMoreFacts.

(** X1.  With at least one attempt allowed, a call of [retryOperation]
    settles exactly as one call of the operation does: the first call that
    is not a rate-limit rejection before the last attempt. Every earlier
    call was a rate-limit rejection, the operation is called no further,
    and one wait precedes each call after the first. *)
Theorem retryOperation_settles_as_first_final_call {T : Type}
    (operation : nat -> Outcome T) (random : nat -> Q) (maxRetries : nat)
    (initialDelay : Q) :
  1 <= maxRetries ->
  let run := Retry.retryOperation operation random maxRetries initialDelay in
  exists j,
    j < maxRetries /\
    (forall t, t < j ->
       exists e, operation t = Rejected e /\ Retry.isRateLimit e = true) /\
    match operation j with
    | Resolved _ => True
    | Rejected e => Retry.isRateLimit e = false \/ j = maxRetries - 1
    end /\
    Retry.result run = operation j /\
    Retry.attempts run = S j /\
    length (Retry.waits run) = j.
Proof.
  intros Hmax run. subst run. unfold Retry.retryOperation.
  destruct (retryFrom_settles operation random maxRetries maxRetries 0
              initialDelay Hmax eq_refl)
    as [j (Hj & Hbefore & Hat & Hres & Hatt & Hw)].
  exists j. repeat split; try lia; auto.
  intros t Ht. apply Hbefore. lia.
Qed.

Lemma retryOperation_settles_as_first_final_call_witness :
  exists j,
    j < 3 /\
    Retry.result (Retry.retryOperation
                    (Retry.failsThenSucceeds 1 (fun _ => Retry.err429) 7%Z)
                    (fun _ => 0%Q) 3 2000%Q)
    = Retry.failsThenSucceeds 1 (fun _ => Retry.err429) 7%Z j.
Proof.
  destruct (retryOperation_settles_as_first_final_call
              (Retry.failsThenSucceeds 1 (fun _ => Retry.err429) 7%Z)
              (fun _ => 0%Q) 3 2000%Q ltac:(lia))
    as [j (Hj & _ & _ & Hres & _)].
  exists j. split; [exact Hj | exact Hres].
Defined.

(** X2.  The wait before the retry that follows the [k]-th failed call is
    [initialDelay * 1.5 ^ k] plus the jitter [Math.random() * 1000] drawn
    then. *)
Theorem retryOperation_backoff {T : Type} (operation : nat -> Outcome T)
    (random : nat -> Q) (maxRetries : nat) (initialDelay : Q) (k : nat)
    (w : Q) :
  nth_error
    (Retry.waits (Retry.retryOperation operation random maxRetries initialDelay))
    k = Some w ->
  (w == initialDelay * 1.5 ^ Z.of_nat k + random k * 1000)%Q.
Proof.
  intros H. unfold Retry.retryOperation in H.
  apply retryFrom_wait in H. exact H.
Qed.

Lemma retryOperation_backoff_witness :
  nth_error
    (Retry.waits (Retry.retryOperation
                    (fun _ : nat => @Rejected Z Retry.err429)
                    (fun _ => 1 # 2) 5 4000)) 1
  = Some (4000 * 1.5 + (1 # 2) * 1000)%Q /\
  (4000 * 1.5 + (1 # 2) * 1000
   == 4000 * 1.5 ^ Z.of_nat 1 + (1 # 2) * 1000)%Q.
Proof.
  split; [reflexivity|].
  apply (retryOperation_backoff
           (fun _ : nat => @Rejected Z Retry.err429) (fun _ => 1 # 2) 5 4000 1).
  reflexivity.
Defined.

(* ------------------------------------------------------------------ *)
(** ** Rounding to the nearest double *)

Section DoubleFacts.
Import Double.

Lemma pow2_pos (e : Z) : (0 < 2 ^ e)%Q.
Proof. now apply Qpower_0_lt. Qed.

Lemma pow2_add (a b : Z) : (2 ^ (a + b) == 2 ^ a * 2 ^ b)%Q.
Proof. apply Qpower_plus. discriminate. Qed.

Lemma pow2_le (a b : Z) : (a <= b)%Z -> (2 ^ a <= 2 ^ b)%Q.
Proof. intros H. apply Qpower_le_compat_l; [exact H | discriminate]. Qed.

Lemma pow2_lt_inv (a b : Z) : (2 ^ a < 2 ^ b)%Q -> (a < b)%Z.
Proof. intros H. eapply Qpower_lt_compat_l_inv; [exact H | reflexivity]. Qed.

Lemma pow2_Z (n : Z) : (0 <= n)%Z -> (inject_Z (2 ^ n) == 2 ^ n)%Q.
Proof. intros H. now rewrite Zpower_Qpower. Qed.

(** [x / 2 ^ s] and back. *)
Lemma div_pow2_mul (x : Q) (s : Z) : (x / 2 ^ s * 2 ^ s == x)%Q.
Proof.
  field. intros H. pose proof (pow2_pos s) as Hp. rewrite H in Hp.
  now apply Qlt_irrefl in Hp.
Qed.

Lemma mul_pow2_div (x : Q) (s : Z) : (x * 2 ^ s / 2 ^ s == x)%Q.
Proof.
  field. intros H. pose proof (pow2_pos s) as Hp. rewrite H in Hp.
  now apply Qlt_irrefl in Hp.
Qed.

Lemma div_pow2_le (x y : Q) (s : Z) : (x <= y)%Q -> (x / 2 ^ s <= y / 2 ^ s)%Q.
Proof.
  intros H. unfold Qdiv. apply Qmult_le_compat_r; [exact H|].
  apply Qlt_le_weak, Qinv_lt_0_compat, pow2_pos.
Qed.


Lemma pow2_sub_Z (p q : Z) :
  (0 <= p)%Z -> (0 <= q)%Z ->
  (2 ^ (p - q) == inject_Z (2 ^ p) / inject_Z (2 ^ q))%Q.
Proof.
  intros Hp Hq. rewrite !pow2_Z by assumption.
  apply Qpower_minus. discriminate.
Qed.

(** [exponent x] is the binade of [x]. *)
Lemma exponent_spec (x : Q) :
  (0 < x)%Q -> (2 ^ exponent x <= x)%Q /\ (x < 2 ^ (exponent x + 1))%Q.
Proof.
  intros Hx. destruct x as [n d].
  assert (Hn : (0 < n)%Z) by (unfold Qlt in Hx; cbn in Hx; lia).
  unfold exponent. cbn [Qnum Qden].
  pose proof (Z.log2_spec n Hn) as [Ha1 Ha2].
  pose proof (Z.log2_spec (Zpos d) (Pos2Z.is_pos d)) as [Hb1 Hb2].
  pose proof (Z.log2_nonneg n) as Ha0.
  pose proof (Z.log2_nonneg (Zpos d)) as Hb0.
  set (a := Z.log2 n) in *. set (b := Z.log2 (Zpos d)) in *.
  assert (HA : (0 < 2 ^ a)%Z) by (apply Z.pow_pos_nonneg; lia).
  assert (HB : (0 < 2 ^ b)%Z) by (apply Z.pow_pos_nonneg; lia).
  assert (Hup : (n # d < 2 ^ (a - b + 1))%Q).
  { replace (a - b + 1)%Z with (Z.succ a - b)%Z by lia.
    rewrite pow2_sub_Z by lia.
    apply Qlt_shift_div_l.
    - change 0%Q with (inject_Z 0). rewrite <- Zlt_Qlt. exact HB.
    - unfold Qlt, Qmult, inject_Z. cbn [Qnum Qden].
      rewrite Pos.mul_1_r, Z.mul_1_r.
      generalize dependent (2 ^ b)%Z. generalize dependent (2 ^ Z.succ a)%Z.
      intros. nia. }
  assert (Hlo : (2 ^ (a - b - 1) < n # d)%Q).
  { replace (a - b - 1)%Z with (a - Z.succ b)%Z by lia.
    rewrite pow2_sub_Z by lia.
    apply Qlt_shift_div_r.
    - change 0%Q with (inject_Z 0). rewrite <- Zlt_Qlt.
      apply Z.pow_pos_nonneg; lia.
    - unfold Qlt, Qmult, inject_Z. cbn [Qnum Qden].
      rewrite Pos.mul_1_r, Z.mul_1_r.
      generalize dependent (2 ^ a)%Z. generalize dependent (2 ^ Z.succ b)%Z.
      intros. nia. }
  destruct (Qle_bool (2 ^ (a - b)) (n # d)) eqn:E.
  - apply Qle_bool_iff in E. split; assumption.
  - split; [now apply Qlt_le_weak|].
    replace (a - b - 1 + 1)%Z with (a - b)%Z by lia.
    apply Qnot_le_lt. intros H. apply Qle_bool_iff in H. congruence.
Qed.

Lemma exponent_unique (x : Q) (e : Z) :
  (2 ^ e <= x)%Q -> (x < 2 ^ (e + 1))%Q -> exponent x = e.
Proof.
  intros H1 H2.
  assert (Hx : (0 < x)%Q) by (eapply Qlt_le_trans; [apply pow2_pos | exact H1]).
  destruct (exponent_spec x Hx) as [H3 H4].
  assert (exponent x < e + 1)%Z
    by (apply pow2_lt_inv; eapply Qle_lt_trans; eassumption).
  assert (e < exponent x + 1)%Z
    by (apply pow2_lt_inv; eapply Qle_lt_trans; eassumption).
  lia.
Qed.

Lemma exponent_mono (x y : Q) :
  (0 < x)%Q -> (x <= y)%Q -> (exponent x <= exponent y)%Z.
Proof.
  intros Hx Hxy.
  assert (Hy : (0 < y)%Q) by (eapply Qlt_le_trans; eassumption).
  destruct (exponent_spec x Hx) as [H1 _].
  destruct (exponent_spec y Hy) as [_ H2].
  assert (exponent x < exponent y + 1)%Z; [|lia].
  apply pow2_lt_inv. eapply Qle_lt_trans; [exact H1|].
  eapply Qle_lt_trans; eassumption.
Qed.

Lemma quantum_mono (x y : Q) :
  (0 < x)%Q -> (x <= y)%Q -> (quantum x <= quantum y)%Z.
Proof.
  intros Hx Hxy. pose proof (exponent_mono x y Hx Hxy). unfold quantum. lia.
Qed.


Lemma roundHalfEven_Z (k : Z) : roundHalfEven (inject_Z k) = k.
Proof.
  unfold roundHalfEven. rewrite Qfloor_Z.
  assert (H : (inject_Z k - inject_Z k ?= 1 # 2)%Q = Lt).
  { rewrite <- Qlt_alt. lra. }
  now rewrite H.
Qed.

Lemma roundHalfEven_bounds (m : Q) :
  (Qfloor m <= roundHalfEven m <= Qfloor m + 1)%Z.
Proof.
  unfold roundHalfEven.
  destruct (m - inject_Z (Qfloor m) ?= 1 # 2)%Q; [|lia|lia].
  destruct (Z.even (Qfloor m)); lia.
Qed.

Lemma roundHalfEven_mono (m m' : Q) :
  (m <= m')%Q -> (roundHalfEven m <= roundHalfEven m')%Z.
Proof.
  intros H. pose proof (Qfloor_resp_le _ _ H) as Hf.
  destruct (Z.eq_dec (Qfloor m) (Qfloor m')) as [E|NE].
  - unfold roundHalfEven. rewrite <- E.
    destruct (Qcompare_spec (m - inject_Z (Qfloor m)) (1 # 2)),
             (Qcompare_spec (m' - inject_Z (Qfloor m)) (1 # 2));
      try lia; try (destruct (Z.even (Qfloor m)); lia); exfalso; lra.
  - pose proof (roundHalfEven_bounds m). pose proof (roundHalfEven_bounds m').
    lia.
Qed.

Lemma roundHalfEven_le_Z (m : Q) (k : Z) :
  (m <= inject_Z k)%Q -> (roundHalfEven m <= k)%Z.
Proof.
  intros H. rewrite <- (roundHalfEven_Z k). now apply roundHalfEven_mono.
Qed.

Lemma roundHalfEven_ge_Z (m : Q) (k : Z) :
  (inject_Z k <= m)%Q -> (k <= roundHalfEven m)%Z.
Proof.
  intros H. rewrite <- (roundHalfEven_Z k) at 1. now apply roundHalfEven_mono.
Qed.

Lemma roundTo_mono (s : Z) (x y : Q) :
  (x <= y)%Q -> (roundTo s x <= roundTo s y)%Q.
Proof.
  intros H. unfold roundTo. apply Qmult_le_compat_r.
  - rewrite <- Zle_Qle. apply roundHalfEven_mono. now apply div_pow2_le.
  - apply Qlt_le_weak, pow2_pos.
Qed.

Lemma roundTo_le_grid (s : Z) (x : Q) (k : Z) :
  (x <= inject_Z k * 2 ^ s)%Q -> (roundTo s x <= inject_Z k * 2 ^ s)%Q.
Proof.
  intros H. unfold roundTo. apply Qmult_le_compat_r.
  - rewrite <- Zle_Qle. apply roundHalfEven_le_Z.
    apply Qle_shift_div_r; [apply pow2_pos | exact H].
  - apply Qlt_le_weak, pow2_pos.
Qed.

Lemma roundTo_ge_grid (s : Z) (x : Q) (k : Z) :
  (inject_Z k * 2 ^ s <= x)%Q -> (inject_Z k * 2 ^ s <= roundTo s x)%Q.
Proof.
  intros H. unfold roundTo. apply Qmult_le_compat_r.
  - rewrite <- Zle_Qle. apply roundHalfEven_ge_Z.
    apply Qle_shift_div_l; [apply pow2_pos | exact H].
  - apply Qlt_le_weak, pow2_pos.
Qed.

(** A multiple of [2 ^ s] is its own nearest multiple. *)
Lemma roundTo_grid (s : Z) (x : Q) (k : Z) :
  (x == inject_Z k * 2 ^ s)%Q -> (roundTo s x == x)%Q.
Proof.
  intros H. apply Qle_antisym.
  - rewrite H at 2. apply roundTo_le_grid. rewrite H. apply Qle_refl.
  - rewrite H at 1. apply roundTo_ge_grid. rewrite H. apply Qle_refl.
Qed.


Lemma roundPositive_mono (x y : Q) :
  (0 < x)%Q -> (x <= y)%Q -> (roundPositive x <= roundPositive y)%Q.
Proof.
  intros Hx Hxy. unfold roundPositive.
  assert (Hy : (0 < y)%Q) by (eapply Qlt_le_trans; eassumption).
  pose proof (quantum_mono x y Hx Hxy) as Hq.
  destruct (Z.eq_dec (quantum x) (quantum y)) as [E|NE].
  - rewrite E. now apply roundTo_mono.
  - (* [x] and [y] lie in different binades: [2 ^ exponent y] is between *)
    destruct (exponent_spec x Hx) as [_ Hx2].
    destruct (exponent_spec y Hy) as [Hy1 _].
    assert (Hsy : quantum y = (exponent y - 52)%Z) by (unfold quantum in *; lia).
    assert (Hsx : (exponent x - 52 <= quantum x)%Z) by (unfold quantum; lia).
    apply Qle_trans with (2 ^ exponent y)%Q.
    + assert (Hg : (2 ^ exponent y
                    == inject_Z (2 ^ (exponent y - quantum x)) * 2 ^ quantum x)%Q).
      { rewrite pow2_Z by lia. rewrite <- pow2_add.
        now replace (exponent y - quantum x + quantum x)%Z with (exponent y) by lia. }
      rewrite Hg. apply roundTo_le_grid. rewrite <- Hg.
      apply Qlt_le_weak. eapply Qlt_le_trans; [exact Hx2|].
      apply pow2_le. lia.
    + assert (Hg : (2 ^ exponent y == inject_Z (2 ^ 52) * 2 ^ quantum y)%Q).
      { rewrite pow2_Z by lia. rewrite <- pow2_add.
        now replace (52 + quantum y)%Z with (exponent y) by lia. }
      rewrite Hg. apply roundTo_ge_grid. rewrite <- Hg. exact Hy1.
Qed.

Lemma roundPositive_nonneg (x : Q) : (0 < x)%Q -> (0 <= roundPositive x)%Q.
Proof.
  intros Hx. unfold roundPositive.
  setoid_replace 0%Q with (inject_Z 0 * 2 ^ quantum x)%Q by ring.
  apply roundTo_ge_grid. setoid_replace (inject_Z 0 * 2 ^ quantum x)%Q with 0%Q by ring.
  now apply Qlt_le_weak.
Qed.

(** A positive multiple [k * 2 ^ s] with [k] of at most 53 bits and [s]
    not below the subnormal exponent is a double. *)
Lemma roundPositive_grid (x : Q) (k s : Z) :
  (0 < k <= 2 ^ 53)%Z -> (-1074 <= s)%Z ->
  (x == inject_Z k * 2 ^ s)%Q -> (roundPositive x == x)%Q.
Proof.
  intros Hk Hs Hx.
  assert (Hpos : (0 < x)%Q).
  { rewrite Hx. apply Qmult_lt_0_compat; [|apply pow2_pos].
    change 0%Q with (inject_Z 0). rewrite <- Zlt_Qlt. lia. }
  destruct (exponent_spec x Hpos) as [He1 He2].
  unfold roundPositive.
  destruct (Z.eq_dec k (2 ^ 53)) as [E|NE].
  - (* [x] is the power [2 ^ (53 + s)] *)
    assert (Hx' : (x == 2 ^ (53 + s))%Q).
    { rewrite Hx, E. rewrite pow2_Z by lia. now rewrite <- pow2_add. }
    assert (He : exponent x = (53 + s)%Z).
    { apply exponent_unique.
      - rewrite Hx'. apply Qle_refl.
      - rewrite Hx'. apply Qpower_lt_compat_l; [lia | reflexivity]. }
    assert (Hq : quantum x = (s + 1)%Z) by (unfold quantum; lia).
    rewrite Hq. apply roundTo_grid with (k := (2 ^ 52)%Z).
    rewrite Hx'. rewrite pow2_Z by lia. rewrite <- pow2_add.
    now replace (52 + (s + 1))%Z with (53 + s)%Z by lia.
  - assert (Hlt : (x < 2 ^ (53 + s))%Q).
    { rewrite Hx, pow2_add. apply Qmult_lt_compat_r; [apply pow2_pos|].
      rewrite <- pow2_Z by lia. rewrite <- Zlt_Qlt. lia. }
    assert (He : (exponent x < 53 + s)%Z).
    { apply pow2_lt_inv. eapply Qle_lt_trans; eassumption. }
    assert (Hq : (quantum x <= s)%Z) by (unfold quantum; lia).
    apply roundTo_grid with (k := (k * 2 ^ (s - quantum x))%Z).
    eapply Qeq_trans; [exact Hx|]. rewrite inject_Z_mult.
    rewrite pow2_Z by lia.
    rewrite <- Qmult_assoc, <- pow2_add.
    now replace (s - quantum x + quantum x)%Z with s by lia.
Qed.


Lemma roundFinite_zero (x : Q) : (x == 0)%Q -> roundFinite x = 0%Q.
Proof. intros H. unfold roundFinite. apply Qeq_alt in H. now rewrite H. Qed.

Lemma roundFinite_pos (x : Q) : (0 < x)%Q -> roundFinite x = roundPositive x.
Proof. intros H. unfold roundFinite. apply Qgt_alt in H. now rewrite H. Qed.

Lemma roundFinite_nonneg (x : Q) : (0 <= x)%Q -> (0 <= roundFinite x)%Q.
Proof.
  intros H. destruct (Qlt_le_dec 0 x) as [Hp|Hz].
  - rewrite roundFinite_pos by exact Hp. now apply roundPositive_nonneg.
  - rewrite roundFinite_zero; [apply Qle_refl | now apply Qle_antisym].
Qed.

(** Rounding keeps the order. *)
Lemma roundFinite_mono (x y : Q) :
  (0 <= x)%Q -> (x <= y)%Q -> (roundFinite x <= roundFinite y)%Q.
Proof.
  intros Hx Hxy. destruct (Qlt_le_dec 0 x) as [Hp|Hz].
  - rewrite !roundFinite_pos; [now apply roundPositive_mono | | exact Hp].
    eapply Qlt_le_trans; eassumption.
  - rewrite (roundFinite_zero x) by now apply Qle_antisym.
    apply roundFinite_nonneg. eapply Qle_trans; eassumption.
Qed.

Lemma roundFinite_grid (x : Q) (k s : Z) :
  (0 <= k <= 2 ^ 53)%Z -> (-1074 <= s)%Z ->
  (x == inject_Z k * 2 ^ s)%Q -> (roundFinite x == x)%Q.
Proof.
  intros Hk Hs Hx. destruct (Z.eq_dec k 0) as [->|Hne].
  - assert (H0 : (x == 0)%Q) by (rewrite Hx; ring).
    rewrite (roundFinite_zero x H0). now symmetry.
  - assert (Hp : (0 < x)%Q).
    { rewrite Hx. apply Qmult_lt_0_compat; [|apply pow2_pos].
      change 0%Q with (inject_Z 0). rewrite <- Zlt_Qlt. lia. }
    rewrite (roundFinite_pos x Hp).
    apply roundPositive_grid with (k := k) (s := s); [lia | exact Hs | exact Hx].
Qed.

(** The integers up to [2 ^ 53] are doubles. *)
Lemma roundFinite_Z (n : Z) :
  (0 <= n <= 2 ^ 53)%Z -> (roundFinite (inject_Z n) == inject_Z n)%Q.
Proof.
  intros Hn. apply roundFinite_grid with (k := n) (s := 0%Z); [exact Hn | lia|].
  change (2 ^ 0)%Q with 1%Q. ring.
Qed.

(** What rounding answers is a double. *)
Lemma roundFinite_idem (x : Q) :
  (0 <= x)%Q -> (roundFinite (roundFinite x) == roundFinite x)%Q.
Proof.
  intros H. destruct (Qlt_le_dec 0 x) as [Hp|Hz].
  - rewrite (roundFinite_pos x Hp).
    destruct (exponent_spec x Hp) as [_ He].
    assert (Hq : (-1074 <= quantum x)%Z /\ (exponent x - 52 <= quantum x)%Z)
      by (unfold quantum; lia).
    apply roundFinite_grid
      with (k := roundHalfEven (x / 2 ^ quantum x)) (s := quantum x);
      [|apply Hq | reflexivity].
    split.
    + apply roundHalfEven_ge_Z. apply Qle_shift_div_l; [apply pow2_pos|].
      rewrite Qmult_0_l. now apply Qlt_le_weak.
    + apply roundHalfEven_le_Z. apply Qle_shift_div_r; [apply pow2_pos|].
      rewrite pow2_Z by lia. rewrite <- pow2_add.
      apply Qlt_le_weak. eapply Qlt_le_trans; [exact He|].
      apply pow2_le. lia.
  - rewrite (roundFinite_zero x) by now apply Qle_antisym. reflexivity.
Qed.

Lemma maxValue_big : (9007199254740992 <= maxValue)%Q.
Proof. vm_compute. discriminate. Qed.

Lemma round_finite (x : Q) :
  (- maxValue <= roundFinite x)%Q -> (roundFinite x <= maxValue)%Q ->
  round x = Finite (roundFinite x).
Proof.
  intros H1 H2. unfold round. apply Qle_bool_iff in H1, H2.
  now rewrite H1, H2.
Qed.

Lemma leb_round_mono (x y : Q) :
  (0 <= x)%Q -> (x <= y)%Q -> leb (round x) (round y) = true.
Proof.
  intros Hx Hxy. pose proof (roundFinite_mono x y Hx Hxy) as Hm.
  pose proof (roundFinite_nonneg x Hx) as H0.
  assert (Hneg : forall r, (0 <= r)%Q -> Qle_bool (- maxValue) r = true).
  { intros r Hr. apply Qle_bool_iff. pose proof maxValue_big. lra. }
  unfold round. rewrite !Hneg; [|lra|lra].
  destruct (Qle_bool (roundFinite y) maxValue) eqn:Ey.
  - apply Qle_bool_iff in Ey.
    assert (Ex : Qle_bool (roundFinite x) maxValue = true)
      by (apply Qle_bool_iff; lra).
    rewrite Ex. cbn [leb]. now apply Qle_bool_iff.
  - destruct (Qle_bool (roundFinite x) maxValue); reflexivity.
Qed.

Lemma leb_trans (a b c : number) :
  leb a b = true -> leb b c = true -> leb a c = true.
Proof.
  destruct a as [x| | |], b as [y| | |], c as [z| | |]; cbn [leb];
    try reflexivity; try discriminate.
  rewrite !Qle_bool_iff. apply Qle_trans.
Qed.

End DoubleFacts.

(* ------------------------------------------------------------------ *)
(** ** The back-off in doubles *)

Section RetryDoubleFacts.
Import Double.
Context {T : Type}.
Variable operation : nat -> Outcome T.
Variable random : nat -> Q.
Variable maxRetries : nat.
Hypothesis random_range : forall n, (0 <= random n < 1)%Q.

(** The control flow does not depend on the arithmetic. *)
Lemma retryFrom_same_run (remaining : nat) :
  forall i delay delay',
    RetryDouble.result
      (RetryDouble.retryFrom operation random maxRetries remaining i delay)
    = Retry.result (Retry.retryFrom operation random maxRetries remaining i delay') /\
    RetryDouble.attempts
      (RetryDouble.retryFrom operation random maxRetries remaining i delay)
    = Retry.attempts (Retry.retryFrom operation random maxRetries remaining i delay') /\
    length (RetryDouble.waits
              (RetryDouble.retryFrom operation random maxRetries remaining i delay))
    = length (Retry.waits
                (Retry.retryFrom operation random maxRetries remaining i delay')).
Proof.
  induction remaining as [|r IH]; intros i delay delay'; [now repeat split|].
  cbn [RetryDouble.retryFrom Retry.retryFrom].
  destruct (operation i) as [v|e]; [now repeat split|].
  destruct (Retry.isRateLimit e && negb (Nat.eqb i (maxRetries - 1)));
    [|now repeat split].
  cbn [RetryDouble.result RetryDouble.attempts RetryDouble.waits
       Retry.result Retry.attempts Retry.waits length].
  destruct (IH (S i) (mul delay (Finite 1.5)) (delay' * 1.5)%Q)
    as [H1 [H2 H3]].
  now rewrite H1, H2, H3.
Qed.

(** The jitter is a double between 0 and 1000. *)
Lemma jitter_range (n : nat) :
  exists j, mul (Finite (random n)) (Finite 1000) = Finite j /\
            (0 <= j <= 1000)%Q.
Proof.
  destruct (random_range n) as [H0 H1].
  exists (roundFinite (random n * 1000)). cbn [mul].
  assert (Hlo : (0 <= roundFinite (random n * 1000))%Q)
    by (apply roundFinite_nonneg; lra).
  assert (Hhi : (roundFinite (random n * 1000) <= 1000)%Q).
  { apply Qle_trans with (roundFinite 1000); [apply roundFinite_mono; lra|].
    apply Qle_lteq. right.
    apply (roundFinite_Z 1000). split; [lia | now vm_compute]. }
  pose proof maxValue_big.
  split; [apply round_finite; lra | split; assumption].
Qed.

Lemma delayOk_backoff (delay : number) :
  RetryDouble.delayOk delay -> RetryDouble.delayOk (mul delay (Finite 1.5)).
Proof.
  destruct delay as [q| | |]; cbn [RetryDouble.delayOk]; try easy.
  intros [Hq _]. cbn [mul]. unfold round.
  assert (Hr : (2000 <= roundFinite (q * 1.5))%Q).
  { apply Qle_trans with (roundFinite 2000); [|apply roundFinite_mono; lra].
    apply Qle_lteq. right. symmetry.
    apply (roundFinite_Z 2000). split; [lia | now vm_compute]. }
  assert (Hd : isDouble (roundFinite (q * 1.5)))
    by (apply roundFinite_idem; lra).
  assert (Hn : Qle_bool (- maxValue) (roundFinite (q * 1.5)) = true).
  { apply Qle_bool_iff. pose proof maxValue_big. lra. }
  rewrite Hn. destruct (Qle_bool (roundFinite (q * 1.5)) maxValue);
    cbn [RetryDouble.delayOk]; auto.
Qed.

(** A wait is not longer than the next delay. *)
Lemma wait_le_next_delay (delay : number) (j : Q) :
  RetryDouble.delayOk delay -> (0 <= j <= 1000)%Q ->
  leb (add delay (Finite j)) (mul delay (Finite 1.5)) = true.
Proof.
  destruct delay as [q| | |]; cbn [RetryDouble.delayOk]; try easy.
  intros [Hq _] Hj. cbn [add mul]. apply leb_round_mono; lra.
Qed.

(** A delay is not longer than the wait it gives. *)
Lemma delay_le_wait (delay : number) (j : Q) :
  RetryDouble.delayOk delay -> (0 <= j)%Q ->
  leb delay (add delay (Finite j)) = true.
Proof.
  destruct delay as [q| | |]; cbn [RetryDouble.delayOk]; try easy.
  intros [Hq Hd] Hj. cbn [add]. unfold round.
  assert (Hr : (q <= roundFinite (q + j))%Q).
  { unfold isDouble in Hd. rewrite <- Hd at 1. apply roundFinite_mono; lra. }
  assert (Hn : Qle_bool (- maxValue) (roundFinite (q + j)) = true).
  { apply Qle_bool_iff. pose proof maxValue_big. lra. }
  rewrite Hn. destruct (Qle_bool (roundFinite (q + j)) maxValue);
    cbn [leb]; [now apply Qle_bool_iff | reflexivity].
Qed.

Lemma retryFrom_first_wait (remaining i : nat) (delay w : number) :
  nth_error
    (RetryDouble.waits
       (RetryDouble.retryFrom operation random maxRetries remaining i delay))
    0 = Some w ->
  w = add delay (mul (Finite (random i)) (Finite 1000)).
Proof.
  destruct remaining as [|r]; cbn [RetryDouble.retryFrom]; [discriminate|].
  destruct (operation i) as [v|e]; [discriminate|].
  destruct (Retry.isRateLimit e && negb (Nat.eqb i (maxRetries - 1)));
    [|discriminate].
  cbn [RetryDouble.waits nth_error]. congruence.
Qed.

Lemma retryFrom_waits_ordered (remaining : nat) :
  forall i delay k w w',
    RetryDouble.delayOk delay ->
    nth_error
      (RetryDouble.waits
         (RetryDouble.retryFrom operation random maxRetries remaining i delay))
      k = Some w ->
    nth_error
      (RetryDouble.waits
         (RetryDouble.retryFrom operation random maxRetries remaining i delay))
      (S k) = Some w' ->
    leb w w' = true.
Proof.
  induction remaining as [|r IH]; intros i delay k w w' Hok;
    cbn [RetryDouble.retryFrom]; [destruct k; discriminate|].
  destruct (operation i) as [v|e]; [destruct k; discriminate|].
  destruct (Retry.isRateLimit e && negb (Nat.eqb i (maxRetries - 1)));
    [|destruct k; discriminate].
  cbn [RetryDouble.waits]. destruct k as [|k]; cbn [nth_error].
  - intros Hw Hw'. injection Hw as <-.
    apply retryFrom_first_wait in Hw'. subst w'.
    destruct (jitter_range i) as [j [Ej Hj]].
    destruct (jitter_range (S i)) as [j' [Ej' Hj']].
    cbn [mul] in Ej, Ej'. fold (mul delay (Finite 1.5)).
    change (mul (Finite (random (S i))) (Finite 1000))
      with (round (random (S i) * 1000)).
    rewrite Ej, Ej'.
    eapply leb_trans; [now apply wait_le_next_delay|].
    apply delay_le_wait; [now apply delayOk_backoff | tauto].
  - apply IH. now apply delayOk_backoff.
Qed.

End RetryDoubleFacts.

(** X3.  With an initial delay of at least 2000 ms (every call site passes
    2000, 3000 or 4000) and [Math.random()] in [[0, 1)], no wait is shorter
    than the one before, in the arithmetic of doubles and whatever the
    jitter. *)
Theorem retryOperation_waits_never_shrink {T : Type}
    (operation : nat -> Outcome T) (random : nat -> Q) (maxRetries : nat)
    (initialDelay : Q) (k : nat) (w w' : Double.number) :
  (2000 <= initialDelay)%Q ->
  Double.isDouble initialDelay ->
  (forall n, 0 <= random n < 1)%Q ->
  nth_error
    (RetryDouble.waits
       (RetryDouble.retryOperation operation random maxRetries
          (Double.Finite initialDelay)))
    k = Some w ->
  nth_error
    (RetryDouble.waits
       (RetryDouble.retryOperation operation random maxRetries
          (Double.Finite initialDelay)))
    (S k) = Some w' ->
  Double.leb w w' = true.
Proof.
  intros Hd Hdouble Hrand Hw Hw'. unfold RetryDouble.retryOperation in *.
  eapply retryFrom_waits_ordered; [exact Hrand | | exact Hw | exact Hw'].
  cbn [RetryDouble.delayOk]. now split.
Qed.

(** The jitter [1 - 2 ^ -52] followed by the jitter 0, on an initial delay
    of 2000 ms: both waits are 3000 ms, the first one by rounding. *)
Lemma retryOperation_waits_never_shrink_witness :
  exists w w',
    nth_error
      (RetryDouble.waits
         (RetryDouble.retryOperation
            (fun _ : nat => @Rejected Z Retry.err429)
            (fun n => if Nat.eqb n 0
                      then (4503599627370495 # 4503599627370496)%Q else 0%Q)
            3 (Double.Finite 2000))) 0 = Some (Double.Finite w) /\
    nth_error
      (RetryDouble.waits
         (RetryDouble.retryOperation
            (fun _ : nat => @Rejected Z Retry.err429)
            (fun n => if Nat.eqb n 0
                      then (4503599627370495 # 4503599627370496)%Q else 0%Q)
            3 (Double.Finite 2000))) 1 = Some (Double.Finite w') /\
    (w == 3000)%Q /\ (w' == 3000)%Q /\
    Double.leb (Double.Finite w) (Double.Finite w') = true.
Proof.
  eexists. eexists.
  split; [vm_compute; reflexivity|]. split; [vm_compute; reflexivity|].
  split; [reflexivity|]. split; [reflexivity|].
  eapply (retryOperation_waits_never_shrink
            (fun _ : nat => @Rejected Z Retry.err429)
            (fun n => if Nat.eqb n 0
                      then (4503599627370495 # 4503599627370496)%Q else 0%Q)
            3 2000 0).
  - discriminate.
  - vm_compute. reflexivity.
  - intros n. destruct (Nat.eqb n 0); split; (discriminate || reflexivity).
  - vm_compute. reflexivity.
  - vm_compute. reflexivity.
Defined.

(* ------------------------------------------------------------------ *)
(** ** Scene count of a generated script *)

Section SceneCount.
Import Double.

(** The product of an integer by 6 is exact as long as it fits 53 bits. *)
Lemma times_6_exact (d : Z) :
  (0 <= d)%Z -> (6 * d <= 2 ^ 53)%Z ->
  mul (Finite (inject_Z d)) (Finite 6) = Finite (roundFinite (inject_Z d * 6)) /\
  (roundFinite (inject_Z d * 6) == inject_Z (6 * d))%Q.
Proof.
  intros H0 H53.
  assert (Hx : (inject_Z d * 6 == inject_Z (6 * d))%Q).
  { rewrite inject_Z_mult. change (inject_Z 6) with 6%Q. ring. }
  assert (Hr : (roundFinite (inject_Z d * 6) == inject_Z (6 * d))%Q).
  { eapply Qeq_trans; [|exact Hx].
    apply roundFinite_grid with (k := (6 * d)%Z) (s := 0%Z); [lia | lia|].
    eapply Qeq_trans; [exact Hx|]. change (2 ^ 0)%Q with 1%Q. ring. }
  split; [|exact Hr]. cbn [mul]. apply round_finite.
  - rewrite Hr. pose proof maxValue_big.
    assert (0 <= inject_Z (6 * d))%Q
      by (change 0%Q with (inject_Z 0); rewrite <- Zle_Qle; lia).
    lra.
  - rewrite Hr. eapply Qle_trans; [|apply maxValue_big].
    change 9007199254740992%Q with (inject_Z (2 ^ 53)).
    now rewrite <- Zle_Qle.
Qed.

Lemma ceil_times_6 (d : Z) :
  (0 <= d)%Z -> (6 * d <= 2 ^ 53)%Z ->
  ceil (mul (Finite (inject_Z d)) (Finite 6)) = Finite (inject_Z (6 * d)).
Proof.
  intros H0 H53. destruct (times_6_exact d H0 H53) as [-> Hr].
  cbn [ceil]. now rewrite (Qceiling_comp _ _ Hr), Qceiling_Z.
Qed.

End SceneCount.

(** X4.  For every value the duration input stores (its [onChange] clamps
    to an integer of at least 1) whose product by 6 fits the 53 bits of a
    double: the count requested from the model by [generateScript] is six
    scenes per minute, it is the count shown beside the input, and the
    floor of three scenes does not apply. For any duration at all, the
    count requested is the count shown wherever that is at least 3, and
    it is never below 3 unless the duration is [NaN]. *)
Theorem estimatedScenes_matches_shown (parsed : option Z)
    (anyDuration : Double.number) :
  let duration := ScriptView.customDuration parsed in
  ((6 * duration <= 2 ^ 53)%Z ->
   (1 <= duration)%Z /\
   Gemini.estimatedScenes (Double.Finite (inject_Z duration))
   = Double.Finite (inject_Z (6 * duration)) /\
   ScriptView.shownScenes (Double.Finite (inject_Z duration))
   = Double.Finite (inject_Z (6 * duration))) /\
  (Double.leb (Double.Finite 3) (ScriptView.shownScenes anyDuration) = true ->
   Gemini.estimatedScenes anyDuration = ScriptView.shownScenes anyDuration) /\
  (anyDuration <> Double.NaN ->
   Double.leb (Double.Finite 3) (Gemini.estimatedScenes anyDuration) = true).
Proof.
  intros duration.
  assert (H1 : (1 <= duration)%Z)
    by (subst duration; unfold ScriptView.customDuration; lia).
  unfold Gemini.estimatedScenes, ScriptView.shownScenes.
  split; [|split].
  - intros H53. split; [exact H1|].
    rewrite ceil_times_6 by lia. split; [|reflexivity].
    unfold Double.max. cbn [Double.leb].
    assert (H : Qle_bool 3 (inject_Z (6 * duration)) = true).
    { apply Qle_bool_iff. change 3%Q with (inject_Z 3).
      rewrite <- Zle_Qle. lia. }
    now rewrite H.
  - intros H. unfold Double.max.
    destruct (Double.ceil (Double.mul anyDuration (Double.Finite 6)))
      as [c| | |]; try discriminate; now rewrite ?H.
  - intros Hnan. unfold Double.max.
    destruct anyDuration as [x| | |]; [| | |congruence].
    + cbn [Double.mul]. unfold Double.round.
      destruct (Qle_bool (Double.roundFinite (x * 6)) Double.maxValue);
        [|reflexivity].
      destruct (Qle_bool (- Double.maxValue) (Double.roundFinite (x * 6)));
        [|reflexivity].
      cbn [Double.ceil Double.leb].
      destruct (Qle_bool 3 (inject_Z (Qceiling (Double.roundFinite (x * 6)))))
        eqn:E; [cbn [Double.leb]; exact E | reflexivity].
    + reflexivity.
    + reflexivity.
Qed.

Lemma estimatedScenes_matches_shown_witness :
  Gemini.estimatedScenes
    (Double.Finite (inject_Z (ScriptView.customDuration (Some 5%Z))))
  = Double.Finite (inject_Z 30) /\
  ScriptView.shownScenes
    (Double.Finite (inject_Z (ScriptView.customDuration (Some 5%Z))))
  = Double.Finite (inject_Z 30).
Proof.
  destruct (estimatedScenes_matches_shown (Some 5%Z) Double.NaN)
    as [H _].
  apply H. now vm_compute.
Defined.

(** Where the product is not exact the rounding shows: the double nearest
    to 7/6 times 6 is exactly 7, and six times [2 ^ 53 + 2] is rounded to
    a multiple of 8. *)
Example estimatedScenes_rounds :
  Gemini.estimatedScenes
    (Double.Finite (5254199565265579 # 4503599627370496))
  = Double.Finite (inject_Z 7) /\
  Gemini.estimatedScenes (Double.Finite (inject_Z 9007199254740994))
  = Double.Finite (inject_Z 54043195528445968) /\
  Gemini.estimatedScenes (Double.Finite (2 ^ 1023))
  = Double.PosInfinity.
Proof. repeat split; vm_compute; reflexivity. Qed.

(* ------------------------------------------------------------------ *)
(** ** [generateImage]: the fallback under the retry wrapper *)

Lemma retryFrom_ext {T : Type} (op op' : nat -> Outcome T) (random : nat -> Q)
    (maxRetries : nat) :
  (forall i, op i = op' i) ->
  forall remaining i delay,
    Retry.retryFrom op random maxRetries remaining i delay
    = Retry.retryFrom op' random maxRetries remaining i delay.
Proof.
  intros Hext. induction remaining as [|r IH]; intros i delay; [reflexivity|].
  cbn [Retry.retryFrom]. rewrite Hext.
  destruct (op' i) as [v|e]; [reflexivity|].
  destruct (Retry.isRateLimit e && negb (Nat.eqb i (maxRetries - 1)));
    [|reflexivity].
  now rewrite IH.
Qed.

Lemma generateImageOnce_fails (imagen flash : Outcome (option string)) :
  Gemini.imagenFails imagen ->
  Gemini.generateImageOnce imagen flash = Gemini.generateImageFallback flash.
Proof.
  unfold Gemini.imagenFails, Gemini.generateImageOnce.
  destruct imagen as [[b|]|e]; try reflexivity.
  intros ->. reflexivity.
Qed.

(** X5.  [generateImage] never shows the retry wrapper a failure of
    Imagen. When Imagen yields an image at the first attempt, that image is
    returned as a JPEG data URL after one attempt. When Imagen fails at
    every attempt, in whatever way, the call behaves as the fallback alone
    under the same retry policy; so a rate-limited Imagen followed by a
    fallback failure that is not a rate limit is not retried at all. *)
Theorem generateImage_retries_on_fallback_only
    (imagen flash : nat -> Outcome (option string)) (random : nat -> Q) :
  (forall base64Image,
     imagen 0 = Resolved (Some base64Image) -> base64Image <> "" ->
     Retry.result (Gemini.generateImage imagen flash random)
     = Resolved ("data:image/jpeg;base64," ++ base64Image)%string /\
     Retry.attempts (Gemini.generateImage imagen flash random) = 1) /\
  ((forall i, Gemini.imagenFails (imagen i)) ->
     Gemini.generateImage imagen flash random
     = Retry.retryOperation (fun i => Gemini.generateImageFallback (flash i))
         random 5 4000) /\
  (forall e e',
     imagen 0 = Rejected e -> flash 0 = Rejected e' ->
     Retry.isRateLimit e' = false ->
     Retry.result (Gemini.generateImage imagen flash random) = Rejected e' /\
     Retry.attempts (Gemini.generateImage imagen flash random) = 1).
Proof.
  unfold Gemini.generateImage, Retry.retryOperation. split; [|split].
  - intros b Hb Hne. cbn [Retry.retryFrom]. unfold Gemini.generateImageOnce.
    rewrite Hb. replace (String.eqb b "") with false
      by (symmetry; now apply String.eqb_neq).
    split; reflexivity.
  - intros Hfail. apply retryFrom_ext. intros i.
    now apply generateImageOnce_fails.
  - intros e e' He He' Hrl. cbn [Retry.retryFrom].
    unfold Gemini.generateImageOnce, Gemini.generateImageFallback.
    rewrite He, He', Hrl. split; reflexivity.
Qed.

(** Imagen answers 429 and the fallback answers that it has no image: the
    call fails after a single attempt. *)
Lemma generateImage_retries_on_fallback_only_witness :
  Retry.attempts
    (Gemini.generateImage (fun _ => Rejected Retry.err429)
       (fun _ => Rejected Retry.errNoText) (fun _ => 0%Q)) = 1 /\
  Retry.result
    (Gemini.generateImage (fun _ => Resolved (Some "QUJD"))
       (fun _ => Rejected Retry.errNoText) (fun _ => 0%Q))
  = Resolved "data:image/jpeg;base64,QUJD".
Proof.
  destruct (generateImage_retries_on_fallback_only
              (fun _ => Rejected Retry.err429)
              (fun _ => Rejected Retry.errNoText) (fun _ => 0%Q))
    as [_ [_ H3]].
  destruct (generateImage_retries_on_fallback_only
              (fun _ => Resolved (Some "QUJD"))
              (fun _ => Rejected Retry.errNoText) (fun _ => 0%Q))
    as [H1 _].
  split.
  - apply (H3 Retry.err429 Retry.errNoText); reflexivity.
  - apply (H1 "QUJD"); [reflexivity | discriminate].
Defined.

(* ------------------------------------------------------------------ *)
(** ** [split] and the wrapped lines as a whole *)

Lemma join_cons (sep : ascii) (w x : string) (ws : list string) :
  join sep (w :: x :: ws) = (w ++ String sep (join sep (x :: ws)))%string.
Proof. reflexivity. Qed.

Lemma join_split (sep : ascii) (s : string) : join sep (split sep s) = s.
Proof.
  induction s as [|c s IH]; [reflexivity|].
  cbn [split]. destruct (split sep s) as [|w ws] eqn:E.
  - now elim (split_not_nil sep s).
  - destruct (Ascii.eqb_spec c sep) as [->|Hne].
    + rewrite join_cons, IH. reflexivity.
    + destruct ws as [|x ws].
      * unfold join in *. cbn in *. now rewrite IH.
      * rewrite join_cons. rewrite join_cons in IH. cbn [append].
        now rewrite IH.
Qed.

Lemma split_no_sep (sep : ascii) (s : string) :
  Forall (fun w => hasChar sep w = false) (split sep s).
Proof.
  induction s as [|c s IH]; [repeat constructor|].
  cbn [split]. destruct (split sep s) as [|w ws] eqn:E.
  - now elim (split_not_nil sep s).
  - inversion IH as [|? ? Hw Hws]; subst.
    destruct (Ascii.eqb_spec c sep) as [->|Hne].
    + constructor; [reflexivity | assumption].
    + constructor; [|assumption]. cbn [hasChar].
      destruct (Ascii.eqb_spec c sep); [contradiction | exact Hw].
Qed.

Lemma split_app_sep (sep : ascii) (w rest : string) :
  hasChar sep w = false ->
  split sep (w ++ String sep rest) = w :: split sep rest.
Proof.
  induction w as [|c w IH]; cbn [hasChar append split]; intros H.
  - now rewrite Ascii.eqb_refl.
  - apply orb_false_iff in H. destruct H as [Hc Hw].
    rewrite Hc, (IH Hw). reflexivity.
Qed.

Lemma split_single (sep : ascii) (w : string) :
  hasChar sep w = false -> split sep w = [w].
Proof.
  induction w as [|c w IH]; cbn [hasChar split]; intros H; [reflexivity|].
  apply orb_false_iff in H. destruct H as [Hc Hw].
  now rewrite Hc, (IH Hw).
Qed.

(** [split] and [join] are inverse to each other: joining the pieces
    of a string gives the string back, no piece contains the separator,
    and splitting the join of a non-empty list of pieces without separator
    gives the pieces back. *)
Theorem split_join_round_trip (sep : ascii) :
  (forall s, join sep (split sep s) = s) /\
  (forall s, Forall (fun w => hasChar sep w = false) (split sep s)) /\
  (forall ws, ws <> [] -> Forall (fun w => hasChar sep w = false) ws ->
              split sep (join sep ws) = ws).
Proof.
  split; [apply join_split | split; [apply split_no_sep|]].
  induction ws as [|w ws IH]; intros Hne HF; [congruence|].
  inversion HF as [|? ? Hw Hws]; subst. destruct ws as [|x ws].
  - unfold join. cbn. now apply split_single.
  - rewrite join_cons, split_app_sep by assumption.
    rewrite IH; [reflexivity | discriminate | assumption].
Qed.

Lemma split_join_round_trip_witness :
  split "," (join "," ["data:image/png;base64"; "QUJD"])
  = ["data:image/png;base64"; "QUJD"].
Proof.
  destruct (split_join_round_trip ",") as [_ [_ H]].
  apply H; [discriminate | repeat constructor].
Defined.

Section WrapWhole.
Import Player.
Variable measureText : string -> Q.
Variable maxWidth : Q.

Lemma renderLine_app (a b : list string) :
  renderLine (a ++ b) = (renderLine a ++ renderLine b)%string.
Proof.
  induction a as [|w a IH]; [reflexivity|].
  change (renderLine ((w :: a) ++ b)) with (w ++ " " ++ renderLine (a ++ b))%string.
  change (renderLine (w :: a)) with (w ++ " " ++ renderLine a)%string.
  now rewrite IH, !string_app_assoc.
Qed.

Lemma concat_renderLine (groups : list (list string)) :
  String.concat "" (map renderLine groups) = renderLine (concat groups).
Proof.
  induction groups as [|g gs IH]; [reflexivity|].
  cbn [concat map]. rewrite renderLine_app, <- IH.
  destruct gs as [|g' gs].
  - cbn. now rewrite string_app_nil_r.
  - reflexivity.
Qed.

Lemma renderLine_join (ws : list string) :
  ws <> [] -> renderLine ws = (join " " ws ++ " ")%string.
Proof.
  induction ws as [|w ws IH]; intros Hne; [congruence|].
  destruct ws as [|x ws]; [reflexivity|].
  change (renderLine (w :: x :: ws)) with (w ++ " " ++ renderLine (x :: ws))%string.
  rewrite IH by discriminate. rewrite join_cons.
  now rewrite !string_app_assoc.
Qed.

End WrapWhole.

(** X6.  Whatever the widths and the maximum, the wrapped lines put end to
    end are the narration itself followed by one space: the wrap changes
    no character, keeps repeated spaces, and only decides where the lines
    break. *)
Theorem wordWrap_keeps_text (measureText : string -> Q) (maxWidth : Q)
    (text : string) :
  String.concat "" (Player.wordWrap measureText maxWidth text)
  = (text ++ " ")%string.
Proof.
  unfold Player.wordWrap.
  change (Player.wrapWords measureText maxWidth (split " " text) 0 "" [])
    with (Player.wrapWords measureText maxWidth (split " " text) 0
            (Player.renderLine []) (map Player.renderLine [])).
  rewrite (wrapWords_greedyLoop measureText maxWidth (split " " text) 0 [] []
             eq_refl).
  rewrite concat_renderLine, greedyLoop_concat. cbn [concat app].
  rewrite renderLine_join by apply split_not_nil.
  now rewrite join_split.
Qed.

(* ------------------------------------------------------------------ *)
(** ** Image placement *)

Lemma Qgtb_true (a b : Q) : Qgtb a b = true -> (b < a)%Q.
Proof.
  unfold Qgtb. rewrite negb_true_iff. intros H. apply Qnot_le_lt.
  intros Hle. apply Qle_bool_iff in Hle. congruence.
Qed.

Lemma Qgtb_false_le (a b : Q) : Qgtb a b = false -> (a <= b)%Q.
Proof.
  unfold Qgtb. rewrite negb_false_iff. apply Qle_bool_iff.
Qed.

(** Zooming by at least 1 about the middle of a span keeps a wider,
    centred span over it. *)
Lemma zoom_keeps_cover (zoom W dw : Q) :
  (1 <= zoom)%Q -> (0 < W)%Q -> (W <= dw)%Q ->
  (zoomAbout zoom (W / 2) ((W - dw) / 2) <= 0)%Q /\
  (W <= zoomAbout zoom (W / 2) ((W - dw) / 2 + dw))%Q.
Proof.
  intros Hz HW Hdw. unfold zoomAbout.
  assert (Hzd : (1 * dw <= zoom * dw)%Q).
  { apply Qmult_le_compat_r; [assumption | lra]. }
  setoid_replace (W / 2 + zoom * ((W - dw) / 2 - W / 2))%Q
    with (W / 2 - (zoom * dw) / 2)%Q by field.
  setoid_replace (W / 2 + zoom * ((W - dw) / 2 + dw - W / 2))%Q
    with (W / 2 + (zoom * dw) / 2)%Q by field.
  set (P := (zoom * dw)%Q) in *.
  unfold Qdiv. change (/ 2)%Q with (1 # 2)%Q. split; lra.
Qed.

(** X7.  An image with positive dimensions is placed as CSS
    [object-cover] does, and stays so under the zoom: the rectangle drawn
    has the aspect ratio of the image, is centred on the canvas, matches
    the canvas in one dimension and is at least as large in the other;
    and, zoomed by any scale of at least 1 about the centre, it still
    covers the canvas from edge to edge, so no black border shows. *)
Theorem drawImage_covers_canvas (canvasWidth canvasHeight iw ih zoom : Q) :
  (0 < canvasWidth)%Q -> (0 < canvasHeight)%Q -> (0 < iw)%Q -> (0 < ih)%Q ->
  (1 <= zoom)%Q ->
  exists offsetX offsetY drawW drawH,
    Player.drawImage canvasWidth canvasHeight
      (Some (Player.ImgLoaded iw ih)) zoom
    = inr [Player.DrawImage zoom (canvasWidth / 2) (canvasHeight / 2)
             offsetX offsetY drawW drawH] /\
    (drawW * ih == drawH * iw)%Q /\
    (drawW == canvasWidth \/ drawH == canvasHeight)%Q /\
    (canvasWidth <= drawW)%Q /\ (canvasHeight <= drawH)%Q /\
    (offsetX + drawW / 2 == canvasWidth / 2)%Q /\
    (offsetY + drawH / 2 == canvasHeight / 2)%Q /\
    (zoomAbout zoom (canvasWidth / 2) offsetX <= 0)%Q /\
    (canvasWidth <= zoomAbout zoom (canvasWidth / 2) (offsetX + drawW))%Q /\
    (zoomAbout zoom (canvasHeight / 2) offsetY <= 0)%Q /\
    (canvasHeight <= zoomAbout zoom (canvasHeight / 2) (offsetY + drawH))%Q.
Proof.
  intros HW HH Hiw Hih Hz. unfold Player.drawImage.
  assert (Hih0 : ~ (ih == 0)%Q) by lra.
  assert (Hiw0 : ~ (iw == 0)%Q) by lra.
  assert (HH0 : ~ (canvasHeight == 0)%Q) by lra.
  assert (Hr : (0 < iw / ih)%Q).
  { apply Qlt_shift_div_l; [assumption | lra]. }
  destruct (Qgtb (iw / ih) (canvasWidth / canvasHeight)) eqn:E.
  - apply Qgtb_true in E.
    assert (Hcover : (canvasWidth <= canvasHeight * (iw / ih))%Q).
    { apply Qlt_le_weak.
      setoid_replace canvasWidth with (canvasWidth / canvasHeight * canvasHeight)%Q
        at 1 by (field; assumption).
      rewrite (Qmult_comm canvasHeight).
      apply Qmult_lt_compat_r; assumption. }
    destruct (zoom_keeps_cover zoom canvasWidth _ Hz HW Hcover) as [Hx1 Hx2].
    destruct (zoom_keeps_cover zoom canvasHeight canvasHeight Hz HH
                ltac:(apply Qle_refl)) as [Hy1 Hy2].
    do 4 eexists. split; [reflexivity|].
    split; [field; repeat split; assumption|]. split; [right; reflexivity|].
    split; [exact Hcover|]. split; [apply Qle_refl|].
    split; [field; repeat split; assumption|].
    split; [field; repeat split; assumption|].
    repeat split; assumption.
  - apply Qgtb_false_le in E.
    assert (Hcover : (canvasHeight <= canvasWidth / (iw / ih))%Q).
    { apply Qle_shift_div_l; [assumption|].
      setoid_replace canvasWidth with (canvasWidth / canvasHeight * canvasHeight)%Q
        by (field; assumption).
      rewrite (Qmult_comm canvasHeight).
      apply Qmult_le_compat_r; [assumption | lra]. }
    destruct (zoom_keeps_cover zoom canvasWidth canvasWidth Hz HW
                ltac:(apply Qle_refl)) as [Hx1 Hx2].
    destruct (zoom_keeps_cover zoom canvasHeight _ Hz HH Hcover) as [Hy1 Hy2].
    do 4 eexists. split; [reflexivity|].
    split; [field; repeat split; assumption|]. split; [left; reflexivity|].
    split; [apply Qle_refl|]. split; [exact Hcover|].
    split; [field|]. split; [field; repeat split; assumption|].
    repeat split; assumption.
Qed.

(** A square image on the 1920 x 1080 canvas at the largest zoom. *)
Lemma drawImage_covers_canvas_witness :
  exists offsetX offsetY drawW drawH,
    Player.drawImage 1920 1080 (Some (Player.ImgLoaded 1024 1024)) 1.15
    = inr [Player.DrawImage 1.15 (1920 / 2) (1080 / 2)
             offsetX offsetY drawW drawH] /\
    (1920 <= drawW)%Q /\ (1080 <= drawH)%Q.
Proof.
  destruct (drawImage_covers_canvas 1920 1080 1024 1024 1.15)
    as (ox & oy & dw & dh & H1 & _ & _ & H4 & H5 & _);
    try reflexivity; try discriminate.
  exists ox, oy, dw, dh. auto.
Defined.

(* ------------------------------------------------------------------ *)
(** ** Preview playback *)

Section PlaybackFacts.
Import Playback.
Variable length_scenes : nat.
Variable hasMusic : bool.

Local Abbreviation indexInBounds := (Playback.indexInBounds length_scenes).

Lemma step_in_bounds (st : State) (e : Event) :
  1 <= length_scenes -> indexInBounds st ->
  indexInBounds (step length_scenes hasMusic st e).
Proof.
  unfold Playback.indexInBounds. intros Hn H. destruct e; cbn [step].
  - unfold handleEnded.
    destruct (Z.ltb_spec (currentSceneIndex st) (Z.of_nat length_scenes - 1));
      cbn [currentSceneIndex]; lia.
  - unfold skipBack. destruct (Z.eqb_spec (currentSceneIndex st) 0);
      cbn [currentSceneIndex]; lia.
  - unfold skipForward.
    destruct (Z.eqb_spec (currentSceneIndex st) (Z.of_nat length_scenes - 1));
      cbn [currentSceneIndex]; lia.
  - unfold togglePlay. destruct (isPlaying st); cbn [currentSceneIndex]; lia.
Qed.

Lemma run_in_bounds (events : list Event) :
  1 <= length_scenes ->
  forall st, indexInBounds st ->
             indexInBounds (run length_scenes hasMusic st events).
Proof.
  intros Hn. unfold run. induction events as [|e events IH]; intros st H;
    [exact H|].
  cbn [fold_left]. apply IH. now apply step_in_bounds.
Qed.

Lemma run_ended (k : nat) :
  forall st,
    (0 <= currentSceneIndex st)%Z ->
    (currentSceneIndex st + Z.of_nat k < Z.of_nat length_scenes)%Z ->
    run length_scenes hasMusic st (repeat Ended k)
    = mkState (currentSceneIndex st + Z.of_nat k) (isPlaying st) (musicPlaying st).
Proof.
  unfold run. induction k as [|k IH]; intros st H0 Hk.
  - cbn. rewrite Z.add_0_r. now destruct st.
  - cbn [repeat fold_left step]. unfold handleEnded.
    destruct (Z.ltb_spec (currentSceneIndex st) (Z.of_nat length_scenes - 1));
      [|lia].
    rewrite IH; cbn [currentSceneIndex isPlaying musicPlaying]; try lia.
    f_equal. lia.
Qed.

End PlaybackFacts.

(** X8.  With a scene list that is not empty and does not change, the
    preview controls keep [currentSceneIndex] on a scene, whatever is
    clicked and whenever a narration ends; narrations ending one after the
    other step through the scenes in order; and the one ending on the last
    scene stops playback and the music and rewinds to the first scene.
    With an empty list the skip-forward button is not disabled and moves
    the index to -1. *)
Theorem playback_index_stays_on_a_scene (length_scenes : nat) (hasMusic : bool) :
  (1 <= length_scenes ->
   forall events,
     Playback.indexInBounds length_scenes
       (Playback.run length_scenes hasMusic Playback.initial events)) /\
  (forall k, k < length_scenes ->
     Playback.run length_scenes hasMusic (Playback.mkState 0 true hasMusic)
       (repeat Playback.Ended k)
     = Playback.mkState (Z.of_nat k) true hasMusic) /\
  (1 <= length_scenes ->
   Playback.run length_scenes hasMusic (Playback.mkState 0 true hasMusic)
     (repeat Playback.Ended length_scenes)
   = Playback.mkState 0 false false) /\
  (length_scenes = 0 ->
   Playback.currentSceneIndex
     (Playback.step length_scenes hasMusic Playback.initial
        Playback.ClickForward) = (-1)%Z).
Proof.
  split; [|split; [|split]].
  - intros Hn events. apply run_in_bounds; [assumption|].
    unfold Playback.indexInBounds, Playback.initial. cbn. lia.
  - intros k Hk.
    rewrite (run_ended length_scenes hasMusic k); cbn; try lia. reflexivity.
  - intros Hn. destruct length_scenes as [|n]; [lia|].
    replace (S n) with (n + 1) at 2 by lia.
    rewrite repeat_app. unfold Playback.run. rewrite fold_left_app.
    fold (Playback.run (S n) hasMusic (Playback.mkState 0 true hasMusic)
            (repeat Playback.Ended n)).
    rewrite (run_ended (S n) hasMusic n); cbn [Playback.currentSceneIndex];
      try lia.
    cbn [repeat fold_left Playback.step]. unfold Playback.handleEnded.
    cbn [Playback.currentSceneIndex].
    destruct (Z.ltb_spec (0 + Z.of_nat n) (Z.of_nat (S n) - 1)); [lia|].
    reflexivity.
  - intros ->. reflexivity.
Qed.

Lemma playback_index_stays_on_a_scene_witness :
  Playback.indexInBounds 3
    (Playback.run 3 true Playback.initial
       [Playback.ClickPlay; Playback.Ended; Playback.ClickForward;
        Playback.ClickForward; Playback.Ended]) /\
  Playback.run 3 true (Playback.mkState 0 true true)
    (repeat Playback.Ended 3)
  = Playback.mkState 0 false false.
Proof.
  destruct (playback_index_stays_on_a_scene 3 true) as [H1 [_ [H3 _]]].
  split; [apply H1; lia | apply H3; lia].
Defined.

(* ------------------------------------------------------------------ *)
(** ** Outcomes of an export *)

Section ExportOutcome.
Import Player.
Variable env : Env.
Variable props : Props.


End ExportOutcome.



(** X10.  When the canvas is not mounted or gives no 2D context, the
    export fails before it acquires anything: no audio context is opened,
    no music source or recorder started, nothing else logged; the failure
    is logged and alerted and the flags and the title are reset. *)
Theorem export_without_canvas_acquires_nothing (env : Player.Env)
    (props : Player.Props) (w : Player.World) :
  Player.scenes props <> [] ->
  Player.canvasMounted env = false \/ Player.context2d env = false ->
  Player.handleExportVideo env props w
  = Some (Player.mkWorld false false (Player.isZipping w)
            (Player.documentTitle w)
            (Player.console w ++ [Player.ConsoleError "Export failed"])
            (Player.alerts w ++ [exportAlert])
            (Player.downloads w)
            (Player.openAudioContexts w) (Player.loopingSources w)
            (Player.activeRecorders w)).
Proof.
  intros Hne Hfail. unfold Player.handleExportVideo, Player.exportBegin,
    Player.exportBody.
  assert (Hlen : (length (Player.scenes props) =? 0) = false)
    by (destruct (Player.scenes props); [congruence | reflexivity]).
  rewrite Hlen.
  destruct (Player.canvasMounted env); cbn [negb]; [|reflexivity].
  destruct Hfail as [Hc|Hc]; [discriminate|]. rewrite Hc. reflexivity.
Qed.

Lemma export_without_canvas_acquires_nothing_witness :
  Player.openAudioContexts
    (match Player.handleExportVideo
             (Player.mkEnv false true true Player.monoWidth
                Player.demoFetchAudio (fun _ => Player.ImgBroken)
                Player.demoTicks (fun _ => true) true)
             Player.demoProps (Player.initialWorld "App") with
     | Some w' => w'
     | None => Player.initialWorld "App"
     end) = 0.
Proof.
  rewrite (export_without_canvas_acquires_nothing
             (Player.mkEnv false true true Player.monoWidth
                Player.demoFetchAudio (fun _ => Player.ImgBroken)
                Player.demoTicks (fun _ => true) true)
             Player.demoProps (Player.initialWorld "App")).
  - reflexivity.
  - discriminate.
  - left. reflexivity.
Defined.

(* ------------------------------------------------------------------ *)
(** ** The asset archive *)

Lemma In_combine_seq {A} (l : list A) :
  forall start i x,
    nth_error l i = Some x -> In (start + i, x) (combine (seq start (length l)) l).
Proof.
  induction l as [|y l IH]; intros start [|i] x H; cbn in H; try discriminate.
  - injection H as ->. rewrite Nat.add_0_r. now left.
  - right. replace (start + S i) with (S start + i) by lia. now apply IH.
Qed.

Lemma In_indexed {A} (l : list A) (i : nat) (x : A) :
  nth_error l i = Some x -> In (i, x) (Player.indexed l).
Proof. intros H. apply (In_combine_seq l 0 i x H). Qed.

(** X11.  Downloading the assets of a scene list that is not empty always
    clears the zip flag again and leaves the export flag alone. If the
    archive can be generated, exactly one archive is downloaded and
    nothing is alerted: it holds the script and the media files, among
    them the audio of every scene whose audio could be fetched; a scene
    whose audio could not be fetched only gets an error logged. If the
    archive cannot be generated, nothing is downloaded and the failure is
    alerted. *)
Theorem handleDownloadZip_outcomes (env : Player.Env) (props : Player.Props)
    (w : Player.World) :
  Player.scenes props <> [] ->
  let w' := Player.handleDownloadZip env props w in
  Player.isZipping w' = false /\
  Player.isExporting w' = Player.isExporting w /\
  (Player.zipGenerates env = true ->
     Player.alerts w' = Player.alerts w /\
     Player.downloads w'
     = Player.downloads w
       ++ [Player.ZipFile
             (("script/script.txt", Player.ZText (Player.scriptContent props))
              :: zipMedia env props)]) /\
  (Player.zipGenerates env = false ->
     Player.downloads w' = Player.downloads w /\
     Player.alerts w' = Player.alerts w ++ ["Erro ao criar arquivo ZIP."]) /\
  (forall i scene url,
     nth_error (Player.scenes props) i = Some scene ->
     audioUrl scene = Some url -> url <> "" ->
     if Player.fetchBlob env url
     then In (scenePath i ".wav", Player.ZBlob url) (zipMedia env props)
     else In (Player.ConsoleError "Failed to add audio to zip")
             (Player.console w')).
Proof.
  intros Hne w'. subst w'.
  unfold Player.handleDownloadZip, Player.zipBody.
  assert (Hlen : (length (Player.scenes props) =? 0) = false)
    by (destruct (Player.scenes props); [congruence | reflexivity]).
  rewrite Hlen.
  split; [destruct (Player.zipGenerates env); reflexivity|].
  split; [destruct (Player.zipGenerates env); reflexivity|].
  split; [intros ->; split; reflexivity|].
  split; [intros ->; split; reflexivity|].
  intros i scene url Hi Hu Hurl.
  pose proof (In_indexed _ _ _ Hi) as Hin.
  assert (Ht : truthy (audioUrl scene) = true)
    by (rewrite Hu; destruct url; [congruence | reflexivity]).
  destruct (Player.fetchBlob env url) eqn:Eb.
  - unfold zipMedia. apply in_flat_map. exists (i, scene).
    split; [exact Hin|]. apply in_or_app. right.
    unfold Player.audioFile. cbn [fst snd]. rewrite Ht, Hu, Eb. now left.
  - assert (Herr : In (Player.ConsoleError "Failed to add audio to zip")
                      (flat_map (fun ix => snd (Player.audioFile env ix))
                         (Player.indexed (Player.scenes props)))).
    { apply in_flat_map. exists (i, scene). split; [exact Hin|].
      unfold Player.audioFile. cbn [fst snd]. rewrite Ht, Hu, Eb. now left. }
    destruct (Player.zipGenerates env); simpl_world.
    + apply in_or_app. right. exact Herr.
    + apply in_or_app. left. apply in_or_app. right. exact Herr.
Qed.

Lemma handleDownloadZip_outcomes_witness :
  Player.isZipping
    (Player.handleDownloadZip Player.demoEnv Player.demoProps
       (Player.initialWorld "App")) = false /\
  In (scenePath 0 ".wav", Player.ZBlob "blob:a1")
     (zipMedia Player.demoEnv Player.demoProps).
Proof.
  destruct (handleDownloadZip_outcomes Player.demoEnv Player.demoProps
              (Player.initialWorld "App") ltac:(discriminate))
    as (H1 & _ & _ & _ & H5).
  split; [exact H1|].
  apply (H5 0 Player.sceneWithAudio "blob:a1");
    [reflexivity | reflexivity | discriminate].
Defined.

(** *** File names *)

Lemma readNumber_toString (n : nat) : readNumber (Player.toString n) = Some n.
Proof.
  unfold readNumber, Player.toString.
  rewrite NilEmpty.usu. cbn. now rewrite DecimalNat.Unsigned.of_to.
Qed.

Lemma readNumber_leading_zero (s : string) (n : nat) :
  readNumber s = Some n -> readNumber (String "0" s) = Some n.
Proof.
  unfold readNumber. cbn [NilEmpty.uint_of_string].
  destruct (NilEmpty.uint_of_string s) as [d|]; [|discriminate].
  intros H. injection H as <-. reflexivity.
Qed.

Lemma readNumber_padStart2 (n : nat) :
  readNumber (Player.padStart2 (Player.toString n)) = Some n.
Proof.
  pose proof (readNumber_toString n) as H.
  unfold Player.padStart2.
  destruct (Player.toString n) as [|c [|c' s]] eqn:E; cbn [String.length].
  - cbn in H. injection H as <-. reflexivity.
  - now apply readNumber_leading_zero.
  - exact H.
Qed.

Lemma string_app_inj_l (p x y : string) :
  (p ++ x)%string = (p ++ y)%string -> x = y.
Proof.
  induction p as [|c p IH]; cbn; intros H; [exact H|].
  injection H as H. auto.
Qed.

Lemma string_length_app (a b : string) :
  String.length (a ++ b) = String.length a + String.length b.
Proof. induction a as [|c a IH]; cbn; [reflexivity | now rewrite IH]. Qed.

Lemma string_app_inj_suffix (a b e e' : string) :
  String.length e = String.length e' ->
  (a ++ e)%string = (b ++ e')%string -> a = b /\ e = e'.
Proof.
  revert b. induction a as [|c a IH]; intros [|c' b] Hlen H; cbn in H.
  - auto.
  - exfalso. apply (f_equal String.length) in H. cbn in H.
    rewrite string_length_app in H. lia.
  - exfalso. apply (f_equal String.length) in H. cbn in H.
    rewrite string_length_app in H. lia.
  - injection H as -> H. destruct (IH b Hlen H) as [-> ->]. auto.
Qed.

Lemma scenePath_inj (i j : nat) (e e' : string) :
  String.length e = String.length e' ->
  scenePath i e = scenePath j e' -> i = j /\ e = e'.
Proof.
  unfold scenePath. intros Hlen H.
  apply string_app_inj_l in H.
  destruct (string_app_inj_suffix _ _ _ _ Hlen H) as [Hpad He].
  split; [|exact He].
  pose proof (readNumber_padStart2 (i + 1)) as Hi.
  pose proof (readNumber_padStart2 (j + 1)) as Hj.
  rewrite Hpad in Hi. rewrite Hi in Hj. injection Hj as Hj. lia.
Qed.

Lemma map_fst_combine_seq {A} (l : list A) :
  forall start, map fst (combine (seq start (length l)) l) = seq start (length l).
Proof.
  induction l as [|x l IH]; intros start; cbn; [reflexivity | now rewrite IH].
Qed.

Lemma NoDup_flat_map_keys {A B} (f : nat * A -> list B) (l : list (nat * A)) :
  NoDup (map fst l) ->
  (forall x, In x l -> NoDup (f x)) ->
  (forall x y b, In x l -> In y l -> In b (f x) -> In b (f y) -> fst x = fst y) ->
  NoDup (flat_map f l).
Proof.
  induction l as [|x l IH]; cbn [map flat_map]; intros Hk Hf Hd; [constructor|].
  inversion Hk as [|? ? Hx Hk']; subst.
  apply NoDup_app.
  - apply Hf. now left.
  - apply IH; [assumption | intros; apply Hf; now right |].
    intros y z b Hy Hz. apply Hd; now right.
  - intros b Hb Hb'. apply in_flat_map in Hb'. destruct Hb' as [y [Hy Hby]].
    apply Hx. rewrite (Hd x y b); [now apply in_map | now left | now right
                                   | assumption | assumption].
Qed.

Lemma imageFile_paths (ix : nat * Scene) :
  map fst (Player.imageFile ix) = [] \/
  map fst (Player.imageFile ix) = [scenePath (fst ix) ".jpg"].
Proof.
  unfold Player.imageFile, scenePath.
  destruct (truthy (imageUrl (snd ix))); [|now left].
  destruct (imageUrl (snd ix)) as [url|]; [|now left].
  destruct (nth_error (split "," url) 1) as [b|]; [|now left].
  destruct (String.eqb b ""); [now left | now right].
Qed.

Lemma audioFile_paths (env : Player.Env) (ix : nat * Scene) :
  map fst (fst (Player.audioFile env ix)) = [] \/
  map fst (fst (Player.audioFile env ix)) = [scenePath (fst ix) ".wav"].
Proof.
  unfold Player.audioFile, scenePath.
  destruct (truthy (audioUrl (snd ix))); [|now left].
  destruct (audioUrl (snd ix)) as [url|]; [|now left].
  destruct (Player.fetchBlob env url); [now right | now left].
Qed.

Lemma scene_files_paths (env : Player.Env) (ix : nat * Scene) :
  let paths := map fst (Player.imageFile ix ++ fst (Player.audioFile env ix)) in
  NoDup paths /\
  forall p, In p paths ->
            p = scenePath (fst ix) ".jpg" \/ p = scenePath (fst ix) ".wav".
Proof.
  cbv zeta. rewrite map_app.
  destruct (imageFile_paths ix) as [-> | ->];
    destruct (audioFile_paths env ix) as [-> | ->]; cbn [app]; split;
    try (repeat constructor; cbn; tauto);
    try (intros p Hp; cbn in Hp; intuition auto; fail).
  constructor; [|repeat constructor; cbn; tauto].
  cbn [In]. intros [H|[]].
  apply (scenePath_inj (fst ix) (fst ix) ".wav" ".jpg" eq_refl) in H.
  destruct H as [_ H]. discriminate.
Qed.

(** X12.  Every file of the archive has a path of its own, so no file
    overwrites another; and the two-digit scene number in a path reads
    back as the number of the scene, for any number of scenes. *)
Theorem zip_paths_distinct (env : Player.Env) (props : Player.Props) :
  NoDup ("script/script.txt" :: map fst (zipMedia env props)) /\
  (forall i, readNumber (Player.padStart2 (Player.toString (i + 1)))
             = Some (i + 1)).
Proof.
  split; [|intros i; apply readNumber_padStart2].
  assert (Hmap : map fst (zipMedia env props)
                 = flat_map
                     (fun ix => map fst (Player.imageFile ix
                                         ++ fst (Player.audioFile env ix)))
                     (Player.indexed (Player.scenes props))).
  { unfold zipMedia. induction (Player.indexed (Player.scenes props))
      as [|ix l IH]; [reflexivity|].
    cbn [flat_map]. now rewrite map_app, IH. }
  rewrite Hmap. constructor.
  - intros Hin. apply in_flat_map in Hin. destruct Hin as [ix [_ Hp]].
    destruct (scene_files_paths env ix) as [_ Hown].
    destruct (Hown _ Hp) as [H|H]; discriminate.
  - apply NoDup_flat_map_keys.
    + unfold Player.indexed. rewrite map_fst_combine_seq. apply seq_NoDup.
    + intros ix _. apply scene_files_paths.
    + intros x y p _ _ Hx Hy.
      destruct (scene_files_paths env x) as [_ Hox].
      destruct (scene_files_paths env y) as [_ Hoy].
      destruct (Hox _ Hx) as [-> | ->]; destruct (Hoy _ Hy) as [H|H];
        apply scenePath_inj in H; try reflexivity; tauto.
Qed.

(* ------------------------------------------------------------------ *)
(** ** The scenes view *)

Section ScenesViewFacts.
Import ScenesView.

Lemma merge_id (s : SceneState) (u : Partial) : sceneIdOf (merge s u) = sceneIdOf s.
Proof. reflexivity. Qed.

Lemma merge_andThen (s : SceneState) (u1 u2 : Partial) :
  merge (merge s u1) u2 = merge s (andThen u1 u2).
Proof.
  destruct u1 as [n1 i1 a1 gi1 ga1 e1], u2 as [n2 i2 a2 gi2 ga2 e2].
  unfold merge, andThen, orKeep. cbn.
  destruct n2, i2, a2, gi2, ga2, e2; reflexivity.
Qed.

Lemma updateScene_ids (i : string) (u : Partial) (l : list SceneState) :
  map sceneIdOf (updateScene i u l) = map sceneIdOf l.
Proof.
  unfold updateScene. rewrite map_map. apply map_ext. intros s.
  destruct (String.eqb (id (scene s)) i); reflexivity.
Qed.

Lemma updateScene_absent (i : string) (u : Partial) (l : list SceneState) :
  ~ In i (map sceneIdOf l) -> updateScene i u l = l.
Proof.
  unfold updateScene. induction l as [|s l IH]; cbn [map In]; intros H;
    [reflexivity|].
  destruct (String.eqb_spec (id (scene s)) i) as [E|E].
  - exfalso. apply H. now left.
  - rewrite IH; [reflexivity | tauto].
Qed.

Lemma updateScene_commute (i j : string) (u v : Partial) (l : list SceneState) :
  i <> j ->
  updateScene i u (updateScene j v l) = updateScene j v (updateScene i u l).
Proof.
  intros Hij. unfold updateScene. rewrite !map_map. apply map_ext. intros s.
  destruct (String.eqb (id (scene s)) i) eqn:Ei;
    destruct (String.eqb (id (scene s)) j) eqn:Ej;
    cbn [merge scene id]; rewrite ?Ei, ?Ej; try reflexivity.
  apply String.eqb_eq in Ei. apply String.eqb_eq in Ej. congruence.
Qed.

Lemma updateScene_andThen (i : string) (u v : Partial) (l : list SceneState) :
  updateScene i v (updateScene i u l) = updateScene i (andThen u v) l.
Proof.
  unfold updateScene. rewrite map_map. apply map_ext. intros s.
  destruct (String.eqb (id (scene s)) i) eqn:E;
    cbn [merge scene id]; rewrite E; [apply merge_andThen | reflexivity].
Qed.

End ScenesViewFacts.

(** X13.  [updateScene] touches only the scenes with the given id: ids,
    order and number of scenes are kept; an id that is not in the list
    changes nothing; updates of two different ids can be applied in either
    order, so generations settling in any order give the same list; and
    two updates of one id amount to their merge. *)
Theorem updateScene_is_local (i j : string) (u v : ScenesView.Partial)
    (l : list ScenesView.SceneState) :
  map ScenesView.sceneIdOf (ScenesView.updateScene i u l)
  = map ScenesView.sceneIdOf l /\
  (~ In i (map ScenesView.sceneIdOf l) -> ScenesView.updateScene i u l = l) /\
  (i <> j ->
   ScenesView.updateScene i u (ScenesView.updateScene j v l)
   = ScenesView.updateScene j v (ScenesView.updateScene i u l)) /\
  ScenesView.updateScene i v (ScenesView.updateScene i u l)
  = ScenesView.updateScene i (ScenesView.andThen u v) l.
Proof.
  split; [apply updateScene_ids|].
  split; [apply updateScene_absent|].
  split; [apply updateScene_commute | apply updateScene_andThen].
Qed.

Lemma updateScene_is_local_witness :
  ScenesView.updateScene "zz" ScenesView.imageStarted ScenesView.demoScenes
  = ScenesView.demoScenes /\
  ScenesView.updateScene "a" ScenesView.imageStarted
    (ScenesView.updateScene "b" ScenesView.audioStarted ScenesView.demoScenes)
  = ScenesView.updateScene "b" ScenesView.audioStarted
      (ScenesView.updateScene "a" ScenesView.imageStarted ScenesView.demoScenes).
Proof.
  destruct (updateScene_is_local "zz" "b" ScenesView.imageStarted
              ScenesView.audioStarted ScenesView.demoScenes) as [_ [H2 _]].
  destruct (updateScene_is_local "a" "b" ScenesView.imageStarted
              ScenesView.audioStarted ScenesView.demoScenes) as [_ [_ [H3 _]]].
  split.
  - apply H2. cbn. intros [H|[H|[]]]; discriminate.
  - apply H3. discriminate.
Defined.

Section MagicFacts.
Import ScenesView.

Lemma In_magicTasks_audio (l : list SceneState) (s : SceneState) :
  In (GenerateAudio s) (magicTasks l) <-> In s l /\ needsAudio s = true.
Proof.
  unfold magicTasks. rewrite in_app_iff, !in_map_iff. split.
  - intros [[x [Hx Hin]]|[x [Hx _]]]; [|discriminate].
    injection Hx as ->. now apply filter_In in Hin.
  - intros H. left. exists s. split; [reflexivity | now apply filter_In].
Qed.

Lemma In_magicTasks_image (l : list SceneState) (s : SceneState) :
  In (GenerateImage s) (magicTasks l) <-> In s l /\ needsImage s = true.
Proof.
  unfold magicTasks. rewrite in_app_iff, !in_map_iff. split.
  - intros [[x [Hx _]]|[x [Hx Hin]]]; [discriminate|].
    injection Hx as ->. now apply filter_In in Hin.
  - intros H. right. exists s. split; [reflexivity | now apply filter_In].
Qed.

Lemma needsAudio_no_audio (s : SceneState) :
  needsAudio s = true -> truthy (audioUrl (scene s)) = false.
Proof.
  unfold needsAudio. destruct (truthy (audioUrl (scene s))); [|reflexivity].
  cbn. now rewrite andb_false_r.
Qed.

Lemma needsImage_no_image (s : SceneState) :
  needsImage s = true -> truthy (imageUrl (scene s)) = false.
Proof.
  unfold needsImage. destruct (truthy (imageUrl (scene s))); [|reflexivity].
  cbn. now rewrite andb_false_r.
Qed.

Lemma filter_length_le {A} (f : A -> bool) (l : list A) :
  length (filter f l) <= length l.
Proof.
  induction l as [|x l IH]; cbn; [lia|]. destruct (f x); cbn; lia.
Qed.

Lemma truthy_messageOr (e : JsError) (fallback : string) :
  fallback <> "" -> truthy (Some (messageOr e fallback)) = true.
Proof.
  intros Hf. unfold messageOr.
  destruct (message e) as [[|c m]|]; try reflexivity;
    destruct fallback; congruence || reflexivity.
Qed.

Lemma Forall2_map_self {A} (P : A -> A -> Prop) (f : A -> A) (l : list A) :
  (forall x, P x (f x)) -> Forall2 P l (map f l).
Proof. intros H. induction l; cbn; constructor; auto. Qed.

End MagicFacts.

(** X14.  "Gerar Tudo" queues a generation only for what is missing: a
    scene is queued for audio only if it has no audio, and then exactly
    when it is not already generating audio or carries an error; likewise
    for images; so a scene that has both assets is never queued, and at
    most two tasks are queued per scene. *)
Theorem magicTasks_only_what_is_missing (l : list ScenesView.SceneState) :
  (forall s, In (ScenesView.GenerateAudio s) (ScenesView.magicTasks l) <->
             In s l /\ truthy (audioUrl (ScenesView.scene s)) = false /\
             (ScenesView.isGeneratingAudio s = false \/
              truthy (ScenesView.error s) = true)) /\
  (forall s, In (ScenesView.GenerateImage s) (ScenesView.magicTasks l) <->
             In s l /\ truthy (imageUrl (ScenesView.scene s)) = false /\
             (ScenesView.isGeneratingImage s = false \/
              truthy (ScenesView.error s) = true)) /\
  length (ScenesView.magicTasks l) <= 2 * length l.
Proof.
  split; [|split].
  - intros s. rewrite In_magicTasks_audio. unfold ScenesView.needsAudio.
    destruct (truthy (audioUrl (ScenesView.scene s)));
      destruct (ScenesView.isGeneratingAudio s);
      destruct (truthy (ScenesView.error s)); cbn; intuition congruence.
  - intros s. rewrite In_magicTasks_image. unfold ScenesView.needsImage.
    destruct (truthy (imageUrl (ScenesView.scene s)));
      destruct (ScenesView.isGeneratingImage s);
      destruct (truthy (ScenesView.error s)); cbn; intuition congruence.
  - unfold ScenesView.magicTasks. rewrite length_app, !length_map.
    pose proof (filter_length_le ScenesView.needsAudio l).
    pose proof (filter_length_le ScenesView.needsImage l). lia.
Qed.

(** X15.  A call of [handleGenerateAudio] on a scene not marked as
    generating, its two updates landing with no other in between, keeps
    ids and order and changes that scene only: it ends
    not generating, with its text, image and image flag as they were, and
    with the new audio and no error when the generation resolved, or its
    old audio and a non-empty error message when it rejected. After a
    rejection "Gerar Tudo" queues the scene for audio again unless it
    already had audio; after a resolution with a non-empty URL it never
    does. A call on a scene marked as generating changes nothing. *)
Theorem handleGenerateAudio_settles (snapshot : ScenesView.SceneState)
    (outcome : Outcome string) (l : list ScenesView.SceneState) :
  let sceneId := ScenesView.sceneIdOf snapshot in
  let l' := ScenesView.handleGenerateAudio snapshot outcome l in
  (ScenesView.isGeneratingAudio snapshot = true -> l' = l) /\
  (ScenesView.isGeneratingAudio snapshot = false ->
   Forall2 (audioSettledAs sceneId outcome) l l' /\
   (forall s', In s' l' -> ScenesView.sceneIdOf s' = sceneId ->
      match outcome with
      | Resolved url =>
          url <> "" ->
          ~ In (ScenesView.GenerateAudio s') (ScenesView.magicTasks l')
      | Rejected _ =>
          truthy (audioUrl (ScenesView.scene s')) = false ->
          In (ScenesView.GenerateAudio s') (ScenesView.magicTasks l')
      end)).
Proof.
  intros sceneId l'. subst l'. unfold ScenesView.handleGenerateAudio.
  split; [intros ->; reflexivity|].
  intros ->.
  change (id (ScenesView.scene snapshot)) with sceneId.
  generalize dependent sceneId. intros sceneId.
  assert (HF : Forall2 (audioSettledAs sceneId outcome) l
                 (ScenesView.updateScene sceneId (ScenesView.audioSettled outcome)
                    (ScenesView.updateScene sceneId ScenesView.audioStarted l))).
  { rewrite updateScene_andThen. unfold ScenesView.updateScene.
    apply Forall2_map_self. intros s. unfold audioSettledAs.
    change (id (ScenesView.scene s)) with (ScenesView.sceneIdOf s).
    destruct (String.eqb (ScenesView.sceneIdOf s) sceneId); [|reflexivity].
    destruct outcome as [url|e]; cbn; repeat split.
    apply (truthy_messageOr e). discriminate. }
  split; [exact HF|].
  intros s' Hin Hid.
  assert (Hs' : exists s, audioSettledAs sceneId outcome s s').
  { clear Hid. induction HF as [|a b l1 l2 Hab _ IH]; [contradiction|].
    destruct Hin as [->|Hin]; eauto. }
  destruct Hs' as [s Hs]. unfold audioSettledAs in Hs.
  destruct (String.eqb (ScenesView.sceneIdOf s) sceneId) eqn:E.
  - destruct Hs as (_ & Hga & _ & _ & _ & Hout).
    destruct outcome as [url|e].
    + intros Hurl Htask. apply In_magicTasks_audio in Htask.
      destruct Htask as [_ Hneeds]. apply needsAudio_no_audio in Hneeds.
      destruct Hout as [Hau _]. rewrite Hau in Hneeds.
      destruct url; [congruence | discriminate].
    + intros Hno. apply In_magicTasks_audio. split; [exact Hin|].
      unfold ScenesView.needsAudio. now rewrite Hno, Hga.
  - subst s'. apply String.eqb_neq in E. contradiction.
Qed.

Lemma handleGenerateAudio_settles_witness :
  In (ScenesView.GenerateAudio
        (ScenesView.mkSceneState (mkScene "a" "One" "p1" None None) false false
           (Some "Too Many Requests")))
     (ScenesView.magicTasks
        (ScenesView.handleGenerateAudio
           (ScenesView.mkSceneState (mkScene "a" "One" "p1" None None)
              false false None)
           (Rejected Retry.err429) ScenesView.demoScenes)).
Proof.
  destruct (handleGenerateAudio_settles
              (ScenesView.mkSceneState (mkScene "a" "One" "p1" None None)
                 false false None)
              (Rejected Retry.err429) ScenesView.demoScenes) as [_ H].
  destruct (H eq_refl) as [_ Hq].
  apply (Hq (ScenesView.mkSceneState (mkScene "a" "One" "p1" None None)
               false false (Some "Too Many Requests")));
    [now left | reflexivity | reflexivity].
Defined.

(* ------------------------------------------------------------------ *)
(** ** A script just generated *)

Lemma processScenes_bare (uuid : nat -> string) (generated : list (string * string)) :
  Forall (fun s => imageUrl s = None /\ audioUrl s = None)
    (ScriptView.processScenes uuid generated).
Proof.
  unfold ScriptView.processScenes. apply Forall_forall. intros s Hs.
  apply in_map_iff in Hs. destruct Hs as [ig [<- _]]. split; reflexivity.
Qed.

Lemma processScenes_texts (uuid : nat -> string) (generated : list (string * string)) :
  forall start,
    map (fun s => (narration s, visualPrompt s))
      (map (fun ig => mkScene (uuid (fst ig)) (fst (snd ig)) (snd (snd ig))
                        None None)
         (combine (seq start (length generated)) generated))
    = generated.
Proof.
  induction generated as [|[n v] l IH]; intros start; [reflexivity|].
  cbn. now rewrite IH.
Qed.

Lemma filter_all {A} (f : A -> bool) (l : list A) :
  Forall (fun x => f x = true) l -> filter f l = l.
Proof.
  induction 1 as [|x l Hx _ IH]; cbn; [reflexivity|]. now rewrite Hx, IH.
Qed.

Lemma flat_map_nil {A B} (f : A -> list B) (l : list A) :
  Forall (fun x => f x = []) l -> flat_map f l = [].
Proof.
  induction 1 as [|x l Hx _ IH]; cbn; [reflexivity|]. now rewrite Hx, IH.
Qed.

(** X16.  The scenes the script view hands over keep the generated texts,
    in order, and have neither image nor audio. Hence "Gerar Tudo" queues
    an audio task for every scene and then an image task for every scene;
    an export gives every scene the default 3000 + 500 ms whatever could
    be fetched; and the asset archive holds no media file. *)
Theorem fresh_script_needs_everything (uuid : nat -> string)
    (generated : list (string * string)) :
  let scenes := ScriptView.processScenes uuid generated in
  map (fun s => (narration s, visualPrompt s)) scenes = generated /\
  ScenesView.magicTasks (ScenesView.fresh scenes)
  = map ScenesView.GenerateAudio (ScenesView.fresh scenes)
    ++ map ScenesView.GenerateImage (ScenesView.fresh scenes) /\
  (forall fetchAudio,
     Forall (fun s => (Player.sceneDurationMs fetchAudio s == 3000 + 500)%Q)
       scenes) /\
  (forall env props, Player.scenes props = scenes -> zipMedia env props = []).
Proof.
  intros scenes. pose proof (processScenes_bare uuid generated) as Hbare.
  fold scenes in Hbare. split; [|split; [|split]].
  - apply processScenes_texts.
  - unfold ScenesView.magicTasks. rewrite !filter_all; [reflexivity | |].
    + unfold ScenesView.fresh. apply Forall_forall. intros s Hs.
      apply in_map_iff in Hs. destruct Hs as [x [<- Hx]].
      rewrite Forall_forall in Hbare. destruct (Hbare x Hx) as [Hi _].
      unfold ScenesView.needsImage. cbn. now rewrite Hi.
    + unfold ScenesView.fresh. apply Forall_forall. intros s Hs.
      apply in_map_iff in Hs. destruct Hs as [x [<- Hx]].
      rewrite Forall_forall in Hbare. destruct (Hbare x Hx) as [_ Ha].
      unfold ScenesView.needsAudio. cbn. now rewrite Ha.
  - intros fetchAudio. eapply Forall_impl; [|exact Hbare].
    intros s [_ Ha]. unfold Player.sceneDurationMs.
    rewrite (decodeSceneAudio_none _ _ Ha). reflexivity.
  - intros env props Hp. unfold zipMedia. apply flat_map_nil.
    apply Forall_forall. intros [i s] Hin.
    assert (Hs : In s scenes).
    { rewrite <- Hp. unfold Player.indexed in Hin.
      eapply in_combine_r. exact Hin. }
    rewrite Forall_forall in Hbare. destruct (Hbare s Hs) as [Hi Ha].
    unfold Player.imageFile, Player.audioFile. cbn [fst snd].
    now rewrite Hi, Ha.
Qed.

Lemma fresh_script_needs_everything_witness :
  zipMedia Player.demoEnv
    (Player.mkProps
       (ScriptView.processScenes (fun i => Player.toString i)
          [("One", "p1"); ("Two", "p2")])
       None Player.Ratio16x9 (1 # 5) MODERN true) = [].
Proof.
  destruct (fresh_script_needs_everything (fun i => Player.toString i)
              [("One", "p1"); ("Two", "p2")]) as (_ & _ & _ & H).
  apply H. reflexivity.
Defined.

(* ------------------------------------------------------------------ *)
(** ** From the image service to the archive *)

Lemma imageFile_data_url (mime base64 : string) (i : nat) (scene : Scene) :
  hasChar "," mime = false ->
  imageUrl scene = Some ("data:" ++ mime ++ String "," base64)%string ->
  hasChar "," base64 = false ->
  Player.imageFile (i, scene)
  = if String.eqb base64 "" then []
    else [(scenePath i ".jpg", Player.ZBase64 base64)].
Proof.
  intros Hmime Hurl Hb. unfold Player.imageFile, scenePath. cbn [fst snd].
  rewrite Hurl. cbn [truthy append].
  change (String "d" (String "a" (String "t" (String "a"
            (String ":" (mime ++ String "," base64))))))%string
    with (("data:" ++ mime) ++ String "," base64)%string.
  rewrite split_app_sep by (cbn; exact Hmime).
  rewrite (split_single "," base64 Hb). cbn [nth_error].
  reflexivity.
Qed.

(** X17.  An image URL that [generateImage] resolved to is a data URL,
    JPEG from Imagen or PNG from the fallback; and when its payload is
    non-empty base64 (which has no comma), the archive stores exactly that
    payload for the scene, under the name [scene_NN.jpg] in both cases. *)
Theorem generated_image_reaches_archive
    (imagen flash : Outcome (option string)) (url : string) (i : nat)
    (scene : Scene) :
  Gemini.generateImageOnce imagen flash = Resolved url ->
  imageUrl scene = Some url ->
  exists base64,
    (url = ("data:image/jpeg;base64," ++ base64)%string \/
     url = ("data:image/png;base64," ++ base64)%string) /\
    (hasChar "," base64 = false -> base64 <> "" ->
     Player.imageFile (i, scene)
     = [(scenePath i ".jpg", Player.ZBase64 base64)]).
Proof.
  intros Hgen Hurl.
  assert (Hform : exists base64,
             url = ("data:image/jpeg;base64," ++ base64)%string \/
             url = ("data:image/png;base64," ++ base64)%string).
  { assert (Hfb : Gemini.generateImageFallback flash = Resolved url ->
                   exists base64,
                     url = ("data:image/jpeg;base64," ++ base64)%string \/
                     url = ("data:image/png;base64," ++ base64)%string).
    { unfold Gemini.generateImageFallback.
      destruct flash as [[d|]|e']; intros H; try discriminate.
      injection H as <-. exists d. now right. }
    unfold Gemini.generateImageOnce in Hgen.
    destruct imagen as [[b|]|e]; auto.
    destruct (String.eqb b ""); cbn [negb] in Hgen.
    - auto.
    - injection Hgen as <-. exists b. now left. }
  destruct Hform as [base64 Hform]. exists base64. split; [exact Hform|].
  intros Hb Hne.
  destruct Hform as [-> | ->].
  - rewrite (imageFile_data_url "image/jpeg;base64" base64 i scene
               eq_refl Hurl Hb).
    destruct (String.eqb_spec base64 ""); [contradiction | reflexivity].
  - rewrite (imageFile_data_url "image/png;base64" base64 i scene
               eq_refl Hurl Hb).
    destruct (String.eqb_spec base64 ""); [contradiction | reflexivity].
Qed.

Lemma generated_image_reaches_archive_witness :
  Player.imageFile
    (0, mkScene "s1" "One" "p1" (Some "data:image/png;base64,QUJD") None)
  = [(scenePath 0 ".jpg", Player.ZBase64 "QUJD")].
Proof.
  destruct (generated_image_reaches_archive
              (Rejected Retry.err429) (Resolved (Some "QUJD"))
              "data:image/png;base64,QUJD" 0
              (mkScene "s1" "One" "p1" (Some "data:image/png;base64,QUJD") None)
              eq_refl eq_refl) as [b [Hform H]].
  destruct Hform as [Hf|Hf]; [discriminate|].
  apply (string_app_inj_l "data:image/png;base64," "QUJD" b) in Hf.
  subst b. apply H; [reflexivity | discriminate].
Defined.

(* ------------------------------------------------------------------ *)
(** ** What a frame shows *)

Section FrameContent.
Import Player.
Variable measureText : string -> Q.
Variable canvasWidth canvasHeight : Q.
Variable subtitleStyle : SubtitleStyle.
Variable showSubtitles : bool.
Variable img : option Img.
Variable text : string.

Lemma drawLine_no_image (x lineY : Q) (line : string) (c : Ctx2D) :
  existsb isImage (fst (drawLine measureText subtitleStyle x lineY line c))
  = false.
Proof. unfold drawLine. destruct (isModern subtitleStyle); reflexivity. Qed.

Lemma drawLines_no_image (x y : Q) (total : nat) (lines : list string) :
  forall i c,
    existsb isImage (fst (drawLines measureText subtitleStyle x y total i lines c))
    = false.
Proof.
  induction lines as [|line lines IH]; intros i c; [reflexivity|].
  cbn [drawLines].
  pose proof (drawLine_no_image x
                (y - inject_Z (Z.of_nat (total - 1 - i)) * 60)%Q line c) as H1.
  destruct (drawLine measureText subtitleStyle x _ line c) as [d1 c1].
  specialize (IH (S i) c1).
  destruct (drawLines measureText subtitleStyle x y total (S i) lines c1)
    as [d2 c2].
  cbn [fst] in *. now rewrite existsb_app, H1, IH.
Qed.

Lemma drawSubtitles_no_image (c : Ctx2D) :
  existsb isImage
    (fst (drawSubtitles measureText canvasWidth canvasHeight subtitleStyle
            showSubtitles text c)) = false.
Proof.
  unfold drawSubtitles.
  destruct (showSubtitles && negb (String.eqb text "")); [|reflexivity].
  match goal with
  | |- context [drawLines ?m ?s ?x ?y ?t ?i ?l ?c0] =>
      pose proof (drawLines_no_image x y t l i c0) as H;
      destruct (drawLines m s x y t i l c0)
  end.
  exact H.
Qed.

Lemma renderFrame_shows (p : Q) (c : Ctx2D) (d : list Drawn) (c' : Ctx2D) :
  renderFrame measureText canvasWidth canvasHeight subtitleStyle showSubtitles
    img text p c = inr (d, c') ->
  exists rest,
    d = FillRect (setFillStyle "#000" c) 0 0 canvasWidth canvasHeight :: rest /\
    (img = None -> existsb isImage rest = false) /\
    (showSubtitles && negb (String.eqb text "") = false ->
     existsb isText rest = false) /\
    (img = None -> showSubtitles && negb (String.eqb text "") = false ->
     rest = []).
Proof.
  unfold renderFrame. intros H.
  destruct (drawImage canvasWidth canvasHeight img (zoomScale p))
    as [e|image] eqn:Ei; [discriminate|].
  pose proof (drawSubtitles_no_image (setFillStyle "#000" c)) as Hni.
  assert (Hoff : showSubtitles && negb (String.eqb text "") = false ->
                 drawSubtitles measureText canvasWidth canvasHeight
                   subtitleStyle showSubtitles text (setFillStyle "#000" c)
                 = ([], setFillStyle "#000" c)).
  { intros Hs. unfold drawSubtitles. now rewrite Hs. }
  destruct (drawSubtitles measureText canvasWidth canvasHeight subtitleStyle
              showSubtitles text (setFillStyle "#000" c)) as [subs c2].
  injection H as <- <-. exists (image ++ subs). split; [reflexivity|].
  assert (Himg : existsb isText image = false /\
                 (img = None -> image = [])).
  { unfold drawImage in Ei. destruct img as [[iw ih|]|]; try discriminate.
    - destruct (Qgtb _ _); injection Ei as <-; split;
        [reflexivity | discriminate | reflexivity | discriminate].
    - injection Ei as <-. auto. }
  destruct Himg as [Hnt Hnone].
  split; [|split].
  - intros Hi. rewrite existsb_app, (Hnone Hi). exact Hni.
  - intros Hs. specialize (Hoff Hs). injection Hoff as -> _.
    now rewrite existsb_app, Hnt.
  - intros Hi Hs. specialize (Hoff Hs). injection Hoff as -> _.
    now rewrite (Hnone Hi).
Qed.

Lemma animationLoop_shows (durationMs : Q) (ticks : list Z) :
  forall t c frames exitTime c',
    animationLoop measureText canvasWidth canvasHeight subtitleStyle
      showSubtitles img text durationMs ticks t c
    = Some (LoopDone frames exitTime c') ->
    Forall (frameShows canvasWidth canvasHeight img
              (showSubtitles && negb (String.eqb text ""))) frames.
Proof.
  induction ticks as [|t' ticks IH]; intros t c frames exitTime c' H;
    cbn [animationLoop] in H;
    destruct (Qltb (inject_Z t) durationMs).
  - destruct (renderFrame _ _ _ _ _ _ _ _ _) as [e|[d c1]]; discriminate.
  - injection H as <- _ _. constructor.
  - destruct (renderFrame _ _ _ _ _ _ _ _ _) as [e|[d c1]] eqn:Er;
      [discriminate|].
    destruct (animationLoop _ _ _ _ _ _ _ _ ticks t' c1)
      as [[fs ex c2|e]|] eqn:Erec; try discriminate.
    injection H as <- _ _. constructor; [|eapply IH; exact Erec].
    destruct (renderFrame_shows _ _ _ _ Er) as [rest (Hd & H1 & H2 & H3)].
    exists c, rest. cbn [drawn]. auto.
  - injection H as <- _ _. constructor.
Qed.

End FrameContent.

(** X18.  Every frame recorded for a scene starts by filling the whole
    canvas in black. A scene without image never gets an image drawn, and
    with subtitles switched off or an empty narration no text is drawn in
    any frame; with both, every frame is the black fill alone. *)
Theorem frames_show_only_what_is_there (measureText : string -> Q)
    (canvasWidth canvasHeight : Q) (subtitleStyle : SubtitleStyle)
    (showSubtitles : bool) (img : option Player.Img) (text : string)
    (durationMs : Q) (ticks : list Z) (c c' : Player.Ctx2D)
    (frames : list Player.Frame) (exitTime : Z) :
  Player.animationLoop measureText canvasWidth canvasHeight subtitleStyle
    showSubtitles img text durationMs ticks 0 c
  = Some (Player.LoopDone frames exitTime c') ->
  Forall (frameShows canvasWidth canvasHeight img
            (showSubtitles && negb (String.eqb text ""))) frames.
Proof. intros H. exact (animationLoop_shows _ _ _ _ _ _ _ _ _ _ _ _ _ _ H). Qed.

Lemma frames_show_only_what_is_there_witness :
  exists frames c',
    Player.animationLoop Player.monoWidth 1920 1080 MODERN false None
      "Hello world" 3500 [1000; 2000; 3000; 4000]%Z 0 Player.freshCtx
    = Some (Player.LoopDone frames 4000 c') /\
    Forall (frameShows 1920 1080 None false) frames.
Proof.
  eexists. eexists. split; [reflexivity|].
  eapply (frames_show_only_what_is_there Player.monoWidth 1920 1080 MODERN
            false None "Hello world" 3500 [1000; 2000; 3000; 4000]%Z
            Player.freshCtx).
  reflexivity.
Defined.
